(** * Bancor formula, Python port of the Solidity contract

    A shallow embedding of [solidity/python/FormulaSolidityPort/__init__.py]
    (version 0.2) and the properties of its conversion formulas.

    The module is Python 2 code: [/] on integers is floor division, and
    integers are unbounded (nothing wraps; the 256-bit limits of the
    Solidity original survive only as the assertions of [safeMul] and
    [safeAdd]).  Integers are modelled by [Z], [/] by [Z.div], [>>] and [<<]
    by [Z.shiftr] and [Z.shiftl], [|] by [Z.lor].  A failed [assert], a
    division by zero and a list index out of range end the call; they are
    modelled by the [Err] results of a small error monad. *)

From Stdlib Require Import ZArith List Bool Lia Znumtheory.
From Stdlib Require Import Reals Lra.
Import ListNotations.

#[local] Open Scope Z_scope.

(** ** Errors *)

(** Every [assert] of the module raises Python's AssertionError; the
    constructors record which assertion failed:
    - [InvalidArgument]: the input validation of the two return formulas;
    - [ArithmeticOverflow]: [safeMul], [safeAdd];
    - [ArithmeticUnderflow]: [safeSub];
    - [NumeratorOutOfRange]: [assert(_numerator <= MAX_NUM)] in [ln];
    - [PrecisionRangeExceeded]: [assert(False)] in [findPositionInMaxExpArray].
    [ZeroDivisionError] and [IndexError] are Python's own exceptions. *)
Inductive error : Set :=
| InvalidArgument
| ArithmeticOverflow
| ArithmeticUnderflow
| NumeratorOutOfRange
| PrecisionRangeExceeded
| ZeroDivisionError
| IndexError.

Inductive result (A : Type) : Type :=
| Ok (a : A)
| Err (e : error).

Arguments Ok {A} a.
Arguments Err {A} e.

Definition bind {A B : Type} (m : result A) (k : A -> result B) : result B :=
  match m with
  | Ok a => k a
  | Err e => Err e
  end.

Notation "x <- m ;; k" := (bind m (fun x => k))
  (at level 61, m at next level, right associativity).
Notation "' p <- m ;; k" := (bind m (fun p => k))
  (at level 61, p pattern, m at next level, right associativity).

Definition assert (b : bool) (e : error) : result unit :=
  if b then Ok tt else Err e.

(** Python's [x / y] on integers. *)
Definition pydiv (x y : Z) : result Z :=
  if y =? 0 then Err ZeroDivisionError else Ok (x / y).

(** ** Constants *)

Definition MAX_CRR : Z := 1000000.
Definition ONE : Z := 1.
Definition MIN_PRECISION : Z := 32.
Definition MAX_PRECISION : Z := 127.

Definition FIXED_1 : Z := 0x080000000000000000000000000000000.
Definition FIXED_2 : Z := 0x100000000000000000000000000000000.
Definition MAX_NUM : Z := 0x1ffffffffffffffffffffffffffffffff.

Definition LN2_MANTISSA : Z := 0x2c5c85fdf473de6af278ece600fcbda.
Definition LN2_EXPONENT : Z := 122.

(** ** The table [maxExpArray] *)

(** [a[i] = v] on a Python list.  Out of range Python raises IndexError;
    every index [BancorFormula] writes is below 128, so the list is left
    as it is there. *)
Fixpoint list_set (l : list Z) (i : nat) (v : Z) : list Z :=
  match l, i with
  | [], _ => []
  | _ :: t, O => v :: t
  | h :: t, S j => h :: list_set t j v
  end.

(** The assignments of [BancorFormula], in source order (the entries 0..31
    are commented out in the source and stay 0). *)
Definition BancorFormula_assignments : list (nat * Z) :=
  [
    (32%nat, 0x1c35fedd14ffffffffffffffffffffffff);
    (33%nat, 0x1b0ce43b323fffffffffffffffffffffff);
    (34%nat, 0x19f0028ec1ffffffffffffffffffffffff);
    (35%nat, 0x18ded91f0e7fffffffffffffffffffffff);
    (36%nat, 0x17d8ec7f0417ffffffffffffffffffffff);
    (37%nat, 0x16ddc6556cdbffffffffffffffffffffff);
    (38%nat, 0x15ecf52776a1ffffffffffffffffffffff);
    (39%nat, 0x15060c256cb2ffffffffffffffffffffff);
    (40%nat, 0x1428a2f98d72ffffffffffffffffffffff);
    (41%nat, 0x13545598e5c23fffffffffffffffffffff);
    (42%nat, 0x1288c4161ce1dfffffffffffffffffffff);
    (43%nat, 0x11c592761c666fffffffffffffffffffff);
    (44%nat, 0x110a688680a757ffffffffffffffffffff);
    (45%nat, 0x1056f1b5bedf77ffffffffffffffffffff);
    (46%nat, 0x0faadceceeff8bffffffffffffffffffff);
    (47%nat, 0x0f05dc6b27edadffffffffffffffffffff);
    (48%nat, 0x0e67a5a25da4107fffffffffffffffffff);
    (49%nat, 0x0dcff115b14eedffffffffffffffffffff);
    (50%nat, 0x0d3e7a392431239fffffffffffffffffff);
    (51%nat, 0x0cb2ff529eb71e4fffffffffffffffffff);
    (52%nat, 0x0c2d415c3db974afffffffffffffffffff);
    (53%nat, 0x0bad03e7d883f69bffffffffffffffffff);
    (54%nat, 0x0b320d03b2c343d5ffffffffffffffffff);
    (55%nat, 0x0abc25204e02828dffffffffffffffffff);
    (56%nat, 0x0a4b16f74ee4bb207fffffffffffffffff);
    (57%nat, 0x09deaf736ac1f569ffffffffffffffffff);
    (58%nat, 0x0976bd9952c7aa957fffffffffffffffff);
    (59%nat, 0x09131271922eaa606fffffffffffffffff);
    (60%nat, 0x08b380f3558668c46fffffffffffffffff);
    (61%nat, 0x0857ddf0117efa215bffffffffffffffff);
    (62%nat, 0x07ffffffffffffffffffffffffffffffff);
    (63%nat, 0x07abbf6f6abb9d087fffffffffffffffff);
    (64%nat, 0x075af62cbac95f7dfa7fffffffffffffff);
    (65%nat, 0x070d7fb7452e187ac13fffffffffffffff);
    (66%nat, 0x06c3390ecc8af379295fffffffffffffff);
    (67%nat, 0x067c00a3b07ffc01fd6fffffffffffffff);
    (68%nat, 0x0637b647c39cbb9d3d27ffffffffffffff);
    (69%nat, 0x05f63b1fc104dbd39587ffffffffffffff);
    (70%nat, 0x05b771955b36e12f7235ffffffffffffff);
    (71%nat, 0x057b3d49dda84556d6f6ffffffffffffff);
    (72%nat, 0x054183095b2c8ececf30ffffffffffffff);
    (73%nat, 0x050a28be635ca2b888f77fffffffffffff);
    (74%nat, 0x04d5156639708c9db33c3fffffffffffff);
    (75%nat, 0x04a23105873875bd52dfdfffffffffffff);
    (76%nat, 0x0471649d87199aa990756fffffffffffff);
    (77%nat, 0x04429a21a029d4c1457cfbffffffffffff);
    (78%nat, 0x0415bc6d6fb7dd71af2cb3ffffffffffff);
    (79%nat, 0x03eab73b3bbfe282243ce1ffffffffffff);
    (80%nat, 0x03c1771ac9fb6b4c18e229ffffffffffff);
    (81%nat, 0x0399e96897690418f785257fffffffffff);
    (82%nat, 0x0373fc456c53bb779bf0ea9fffffffffff);
    (83%nat, 0x034f9e8e490c48e67e6ab8bfffffffffff);
    (84%nat, 0x032cbfd4a7adc790560b3337ffffffffff);
    (85%nat, 0x030b50570f6e5d2acca94613ffffffffff);
    (86%nat, 0x02eb40f9f620fda6b56c2861ffffffffff);
    (87%nat, 0x02cc8340ecb0d0f520a6af58ffffffffff);
    (88%nat, 0x02af09481380a0a35cf1ba02ffffffffff);
    (89%nat, 0x0292c5bdd3b92ec810287b1b3fffffffff);
    (90%nat, 0x0277abdcdab07d5a77ac6d6b9fffffffff);
    (91%nat, 0x025daf6654b1eaa55fd64df5efffffffff);
    (92%nat, 0x0244c49c648baa98192dce88b7ffffffff);
    (93%nat, 0x022ce03cd5619a311b2471268bffffffff);
    (94%nat, 0x0215f77c045fbe885654a44a0fffffffff);
    (95%nat, 0x01ffffffffffffffffffffffffffffffff);
    (96%nat, 0x01eaefdbdaaee7421fc4d3ede5ffffffff);
    (97%nat, 0x01d6bd8b2eb257df7e8ca57b09bfffffff);
    (98%nat, 0x01c35fedd14b861eb0443f7f133fffffff);
    (99%nat, 0x01b0ce43b322bcde4a56e8ada5afffffff);
    (100%nat, 0x019f0028ec1fff007f5a195a39dfffffff);
    (101%nat, 0x018ded91f0e72ee74f49b15ba527ffffff);
    (102%nat, 0x017d8ec7f04136f4e5615fd41a63ffffff);
    (103%nat, 0x016ddc6556cdb84bdc8d12d22e6fffffff);
    (104%nat, 0x015ecf52776a1155b5bd8395814f7fffff);
    (105%nat, 0x015060c256cb23b3b3cc3754cf40ffffff);
    (106%nat, 0x01428a2f98d728ae223ddab715be3fffff);
    (107%nat, 0x013545598e5c23276ccf0ede68034fffff);
    (108%nat, 0x01288c4161ce1d6f54b7f61081194fffff);
    (109%nat, 0x011c592761c666aa641d5a01a40f17ffff);
    (110%nat, 0x0110a688680a7530515f3e6e6cfdcdffff);
    (111%nat, 0x01056f1b5bedf75c6bcb2ce8aed428ffff);
    (112%nat, 0x00faadceceeff8a0890f3875f008277fff);
    (113%nat, 0x00f05dc6b27edad306388a600f6ba0bfff);
    (114%nat, 0x00e67a5a25da41063de1495d5b18cdbfff);
    (115%nat, 0x00dcff115b14eedde6fc3aa5353f2e4fff);
    (116%nat, 0x00d3e7a3924312399f9aae2e0f868f8fff);
    (117%nat, 0x00cb2ff529eb71e41582cccd5a1ee26fff);
    (118%nat, 0x00c2d415c3db974ab32a51840c0b67edff);
    (119%nat, 0x00bad03e7d883f69ad5b0a186184e06bff);
    (120%nat, 0x00b320d03b2c343d4829abd6075f0cc5ff);
    (121%nat, 0x00abc25204e02828d73c6e80bcdb1a95bf);
    (122%nat, 0x00a4b16f74ee4bb2040a1ec6c15fbbf2df);
    (123%nat, 0x009deaf736ac1f569deb1b5ae3f36c130f);
    (124%nat, 0x00976bd9952c7aa957f5937d790ef65037);
    (125%nat, 0x009131271922eaa6064b73a22d0bd4f2bf);
    (126%nat, 0x008b380f3558668c46c91c49a2f8e967b9);
    (127%nat, 0x00857ddf0117efa215952912839f6473e6)
  ].

Definition BancorFormula (arr : list Z) : list Z :=
  fold_left (fun a iv => list_set a (fst iv) (snd iv)) BancorFormula_assignments arr.

(** [maxExpArray = [0] * 128], then the call [BancorFormula()] that ends
    the module. *)
Definition maxExpArray : list Z :=
  Eval vm_compute in BancorFormula (repeat 0 128).

(** [maxExpArray[i]] *)
Definition maxExp (i : Z) : result Z :=
  if i <? 0 then
    (* a negative index counts from the end of the list *)
    match nth_error maxExpArray (Z.to_nat (128 + i)) with
    | Some v => if 128 + i <? 0 then Err IndexError else Ok v
    | None => Err IndexError
    end
  else
    match nth_error maxExpArray (Z.to_nat i) with
    | Some v => Ok v
    | None => Err IndexError
    end.

(** ** Checked arithmetic *)

Definition safeMul (x y : Z) : result Z :=
  _ <- assert (x * y <? Z.shiftl 1 256) ArithmeticOverflow ;;
  Ok (x * y).

Definition safeAdd (x y : Z) : result Z :=
  _ <- assert (x + y <? Z.shiftl 1 256) ArithmeticOverflow ;;
  Ok (x + y).

Definition safeSub (x y : Z) : result Z :=
  _ <- assert (x - y >=? 0) ArithmeticUnderflow ;;
  Ok (x - y).

(** ** floorLog2 *)

(** [while (_n > 1): _n >>= 1; res += 1], entered with [_n < 256]: eight
    rounds are enough ([floorLog2_small_done]). *)
Fixpoint floorLog2_small (fuel : nat) (n res : Z) : Z * Z :=
  match fuel with
  | O => (n, res)
  | S f =>
      if n >? 1 then floorLog2_small f (Z.shiftr n 1) (res + 1)
      else (n, res)
  end.

(** [for s in [1 << (8 - 1 - k) for k in range(8)]] *)
Definition floorLog2_widths : list Z :=
  map (fun k => Z.shiftl 1 (8 - 1 - Z.of_nat k)) (seq 0 8).

Definition floorLog2_big (n res : Z) : Z * Z :=
  fold_left
    (fun (st : Z * Z) s =>
       let '(n, res) := st in
       if n >=? Z.shiftl ONE s then (Z.shiftr n s, Z.lor res s) else (n, res))
    floorLog2_widths (n, res).

Definition floorLog2 (_n : Z) : Z :=
  let res := 0 in
  if _n <? 256 then snd (floorLog2_small 8 _n res)
  else snd (floorLog2_big _n res).

(** ** ln *)

(** The loop [for i in range(MAX_PRECISION, 0, -1)]; the argument [i] is
    the number of rounds left, which is also the loop variable. *)
Fixpoint ln_loop (i : nat) (x res : Z) : Z * Z :=
  match i with
  | O => (x, res)
  | S j =>
      let x := (x * x) / FIXED_1 in
      if x >=? FIXED_2
      then ln_loop j (Z.shiftr x 1) (res + Z.shiftl ONE (Z.of_nat i - 1))
      else ln_loop j x res
  end.

Definition ln (_numerator _denominator : Z) : result Z :=
  _ <- assert (_numerator <=? MAX_NUM) NumeratorOutOfRange ;;
  let res := 0 in
  x <- pydiv (_numerator * FIXED_1) _denominator ;;
  let '(x, res) :=
    if x >=? FIXED_2 then
      let count := floorLog2 (x / FIXED_1) in
      (Z.shiftr x count, count * FIXED_1)
    else (x, res) in
  let '(x, res) :=
    if x >? FIXED_1 then ln_loop (Z.to_nat MAX_PRECISION) x res
    else (x, res) in
  Ok (Z.shiftr (res * LN2_MANTISSA) LN2_EXPONENT).

(** ** findPositionInMaxExpArray *)

(** The [while (lo + 1 < hi)] loop.  [hi - lo] shrinks in every round, so
    [hi - lo] rounds are enough ([findPosition_loop_done]). *)
Fixpoint findPosition_loop (fuel : nat) (_x lo hi : Z) : result (Z * Z) :=
  match fuel with
  | O => Ok (lo, hi)
  | S f =>
      if lo + 1 <? hi then
        let mid := (lo + hi) / 2 in
        v <- maxExp mid ;;
        if v >=? _x then findPosition_loop f _x mid hi
        else findPosition_loop f _x lo mid
      else Ok (lo, hi)
  end.

Definition findPositionInMaxExpArray (_x : Z) : result Z :=
  let lo := MIN_PRECISION in
  let hi := MAX_PRECISION in
  '(lo, hi) <- findPosition_loop (Z.to_nat (hi - lo)) _x lo hi ;;
  vhi <- maxExp hi ;;
  if vhi >=? _x then Ok hi
  else
    vlo <- maxExp lo ;;
    if vlo >=? _x then Ok lo
    else Err PrecisionRangeExceeded.

(** ** fixedExp *)

(** The 32 factors of the unrolled summation, in source order. *)
Definition fixedExp_coefficients : list Z :=
  [
    0x3442c4e6074a82f1797f72ac0000000;
    0x116b96f757c380fb287fd0e40000000;
    0x45ae5bdd5f0e03eca1ff4390000000;
    0xdefabf91302cd95b9ffda50000000;
    0x2529ca9832b22439efff9b8000000;
    0x54f1cf12bd04e516b6da88000000;
    0xa9e39e257a09ca2d6db51000000;
    0x12e066e7b839fa050c309000000;
    0x1e33d7d926c329a1ad1a800000;
    0x2bee513bdb4a6b19b5f800000;
    0x3a9316fa79b88eccf2a00000;
    0x48177ebe1fa812375200000;
    0x5263fe90242dcbacf00000;
    0x57e22099c030d94100000;
    0x57e22099c030d9410000;
    0x52b6b54569976310000;
    0x4985f67696bf748000;
    0x3dea12ea99e498000;
    0x31880f2214b6e000;
    0x25bcff56eb36000;
    0x1b722e10ab1000;
    0x1317c70077000;
    0xcba84aafa00;
    0x82573a0a00;
    0x5035ad900;
    0x2f881b00;
    0x1b29340;
    0xefc40;
    0x7fe0;
    0x420;
    0x21;
    0x1
  ].

(** One pair of lines [xi = (xi * _x) >> _precision; res += xi * c]. *)
Definition fixedExp_step (_x _precision : Z) (st : Z * Z) (c : Z) : Z * Z :=
  let '(xi, res) := st in
  let xi := Z.shiftr (xi * _x) _precision in
  (xi, res + xi * c).

Definition fixedExp_divisor : Z := 0x688589cc0e9505e2f2fee5580000000.

Definition fixedExp (_x _precision : Z) : Z :=
  let xi := _x in
  let res := 0 in
  let '(xi, res) :=
    fold_left (fixedExp_step _x _precision) fixedExp_coefficients (xi, res) in
  res / fixedExp_divisor + _x + Z.shiftl ONE _precision.

(** ** power *)

Definition power (_baseN _baseD _expN _expD : Z) : result (Z * Z) :=
  l <- ln _baseN _baseD ;;
  lnBaseTimesExp <- pydiv (l * _expN) _expD ;;
  precision <- findPositionInMaxExpArray lnBaseTimesExp ;;
  Ok (fixedExp (Z.shiftr lnBaseTimesExp (MAX_PRECISION - precision)) precision,
      precision).

(** ** The two return formulas *)

Definition calculatePurchaseReturn
  (_supply _reserveBalance _reserveRatio _depositAmount : Z) : result Z :=
  _ <- assert ((_supply >? 0) && (_reserveBalance >? 0) && (_reserveRatio >? 0)
               && (_reserveRatio <=? MAX_CRR)) InvalidArgument ;;
  if _depositAmount =? 0 then Ok 0
  else if _reserveRatio =? MAX_CRR then
    m <- safeMul _supply _depositAmount ;;
    pydiv m _reserveBalance
  else
    baseN <- safeAdd _depositAmount _reserveBalance ;;
    '(result, precision) <- power baseN _reserveBalance _reserveRatio MAX_CRR ;;
    m <- safeMul _supply result ;;
    let temp := Z.shiftr m precision in
    Ok (temp - _supply).

Definition calculateSaleReturn
  (_supply _reserveBalance _reserveRatio _sellAmount : Z) : result Z :=
  _ <- assert ((_supply >? 0) && (_reserveBalance >? 0) && (_reserveRatio >? 0)
               && (_reserveRatio <=? MAX_CRR) && (_sellAmount <=? _supply))
         InvalidArgument ;;
  if _sellAmount =? 0 then Ok 0
  else if _sellAmount =? _supply then Ok _reserveBalance
  else if _reserveRatio =? MAX_CRR then
    m <- safeMul _reserveBalance _sellAmount ;;
    pydiv m _supply
  else
    let baseD := _supply - _sellAmount in
    '(result, precision) <- power _supply baseD MAX_CRR _reserveRatio ;;
    temp1 <- safeMul _reserveBalance result ;;
    let temp2 := Z.shiftl _reserveBalance precision in
    pydiv (temp1 - temp2) result.

(** * Definitions used by the statements and the proofs *)

Definition valid_pool (s r c : Z) : Prop := 0 < s /\ 0 < r /\ 0 < c <= MAX_CRR.

(** The claim C5 for the sale formula, as it is written: the quotient when
    the product fits 256 bits, an overflow failure otherwise. *)
Definition linear_sale_claim (s r a : Z) : Prop :=
  (r * a < 2 ^ 256 -> calculateSaleReturn s r MAX_CRR a = Ok (r * a / s)) /\
  (2 ^ 256 <= r * a -> calculateSaleReturn s r MAX_CRR a = Err ArithmeticOverflow).

(** The entry of the table at an index in range. *)
Definition tbl (i : Z) : Z := nth (Z.to_nat i) maxExpArray 0.

Definition decreasing_at (i : Z) : bool := tbl (i + 1) <? tbl i.

(** [maxExpArray[k] >= x] *)
Definition covers (k x : Z) : Prop := exists v, maxExp k = Ok v /\ x <= v.

(** The widths [2^j, ..., 2, 1]. *)
Fixpoint widths_from (j : nat) : list Z :=
  match j with
  | O => [1]
  | S j' => 2 ^ Z.of_nat j :: widths_from j'
  end.

Definition floorLog2_step (st : Z * Z) (s : Z) : Z * Z :=
  let '(n, res) := st in
  if n >=? Z.shiftl ONE s then (Z.shiftr n s, Z.lor res s) else (n, res).

(** The base-2 logarithm that [ln] accumulates before its last line, as a
    function of the fixed-point ratio [x]. *)
Definition ln_int (x : Z) : Z * Z :=
  if x >=? FIXED_2 then
    let count := floorLog2 (x / FIXED_1) in
    (Z.shiftr x count, count * FIXED_1)
  else (x, 0).

Definition ln_frac (st : Z * Z) : Z * Z :=
  let '(x, res) := st in
  if x >? FIXED_1 then ln_loop (Z.to_nat MAX_PRECISION) x res else (x, res).

Definition log2_fixed (x : Z) : Z := snd (ln_frac (ln_int x)).

Definition ln_scale (res : Z) : Z := Z.shiftr (res * LN2_MANTISSA) LN2_EXPONENT.

(** The argument that [power] passes to [fixedExp]. *)
Definition exponent_arg (l eN eD p : Z) : Z :=
  Z.shiftr (l * eN / eD) (MAX_PRECISION - p).

(** Two calls of [power] that succeed at the same precision. *)
Definition same_precision (pw1 pw2 : result (Z * Z)) : Prop :=
  exists res1 res2 p, pw1 = Ok (res1, p) /\ pw2 = Ok (res2, p).

(** The claim C2 as it is written, for one pool state. *)
Definition returns_monotone (s r c : Z) : Prop :=
  (forall d1 d2 t1 t2,
     0 <= d1 <= d2 ->
     calculatePurchaseReturn s r c d1 = Ok t1 ->
     calculatePurchaseReturn s r c d2 = Ok t2 -> t1 <= t2) /\
  (forall a1 a2 t1 t2,
     0 <= a1 <= a2 ->
     calculateSaleReturn s r c a1 = Ok t1 ->
     calculateSaleReturn s r c a2 = Ok t2 -> t1 <= t2).

(** The natural logarithm of the reals ([ln] is the function of the
    program from here on). *)
Abbreviation Rln := Rpower.ln.

Fixpoint Zfact (n : nat) : Z :=
  match n with
  | O => 1
  | S m => Z.of_nat n * Zfact m
  end.

(** [exp_sum_num A B N = N! * B^N * sum_{k<=N} (A/B)^k / k!] *)
Fixpoint exp_sum_num (A B : Z) (N : nat) : Z :=
  match N with
  | O => 1
  | S M => Z.of_nat N * B * exp_sum_num A B M + A ^ Z.of_nat N
  end.

(** [ln]'s scaling constant, 32 * LN2_MANTISSA, plus one unit in the last
    place, over 2^127. *)
Definition ln2_below : Z := 32 * LN2_MANTISSA + 1.

(** The real number that a fixed-point value with 127 fractional bits
    stands for, and its logarithm. *)
Definition fixed_value (x : Z) : R := (IZR x / IZR FIXED_1)%R.
Definition fixed_ln (x : Z) : R := Rln (fixed_value x).

(** The factors of [fixedExp] are [33! / k!] for [k = 2..33], and its
    divisor is [33!]. *)
Fixpoint coeffs_from (k : nat) (cs : list Z) : Prop :=
  match cs with
  | [] => True
  | c :: cs' => c * Zfact (S k) = Zfact 33 /\ coeffs_from (S k) cs'
  end.

(** The real value [(bN / bD) ^ (eN / eD)]. *)
Definition real_power (bN bD eN eD : Z) : R :=
  Rpower (IZR bN / IZR bD) (IZR eN / IZR eD).

(** [2 ^ p] as a real number. *)
Definition scale (p : Z) : R := (2 ^ Z.to_nat p)%R.

(** The claim C3 as it is written, for one call: a precision in [32, 127]
    and a relative error below 2^-30. *)
Definition power_accurate (bN bD eN eD : Z) : Prop :=
  forall res p,
    power bN bD eN eD = Ok (res, p) ->
    32 <= p <= 127 /\
    (Rabs (IZR res - scale p * real_power bN bD eN eD)
     < scale p * real_power bN bD eN eD / 2 ^ 30)%R.

(** One unit in the last place of a fixed-point value. *)
Definition ulp : R := (/ IZR FIXED_1)%R.

(** [floor (D * sum_{k<=N} (A/B)^k / k!)] *)
Definition E1_floor (A B : Z) (N : nat) (D : Z) : Z :=
  (D * exp_sum_num A B N) / (Zfact N * B ^ Z.of_nat N).

(** 9.665, above [maxExpArray[74] / 2^127]. *)
Definition arg_bound_74 : R := (IZR 1933 / IZR 200)%R.

(** The numbers that [fixedExp] computes on its way, in the order of the
    source: for every pair of lines the product [xi * _x] before the shift,
    the product [xi * c] and the new [res]. *)
Fixpoint fixedExp_values (_x _precision : Z) (cs : list Z) (xi res : Z) : list Z :=
  match cs with
  | [] => []
  | c :: cs' =>
      let prod := xi * _x in
      let xi' := Z.shiftr prod _precision in
      let term := xi' * c in
      let res' := res + term in
      prod :: term :: res' :: fixedExp_values _x _precision cs' xi' res'
  end.

(** "The maximum permitted value for x": [maxExpArray[precision] >>
    (MAX_PRECISION - precision)]. *)
Definition max_permitted (p : Z) : Z := Z.shiftr (tbl p) (MAX_PRECISION - p).

Definition fits_256 (v : Z) : bool := v <? 2 ^ 256.

Definition fixedExp_fits_at (p : Z) : bool :=
  forallb fits_256
    (fixedExp_values (max_permitted p) p fixedExp_coefficients (max_permitted p) 0)
  && fits_256 (fixedExp (max_permitted p) p).

Definition fixedExp_overflows_after (p : Z) : bool :=
  existsb (fun v => negb (fits_256 v))
    (fixedExp_values (max_permitted p + 1) p fixedExp_coefficients
       (max_permitted p + 1) 0).

Definition low_bits_set (p : Z) : bool :=
  (tbl p + 1) mod 2 ^ (MAX_PRECISION - p) =? 0.

(** The products that [ln] forms, in the order of the source: the scaled
    numerator, the squares of the refinement loop, and the product with
    LN2_MANTISSA of the last line. *)
Fixpoint ln_loop_squares (i : nat) (x : Z) : list Z :=
  match i with
  | O => []
  | S j =>
      let sq := x * x in
      let x := sq / FIXED_1 in
      sq :: (if x >=? FIXED_2 then ln_loop_squares j (Z.shiftr x 1)
             else ln_loop_squares j x)
  end.

Definition ln_products (_numerator _denominator : Z) : list Z :=
  let x := _numerator * FIXED_1 / _denominator in
  let x0 := fst (ln_int x) in
  (_numerator * FIXED_1)
    :: (if x0 >? FIXED_1 then ln_loop_squares (Z.to_nat MAX_PRECISION) x0 else [])
    ++ [log2_fixed x * LN2_MANTISSA].

(** * Properties *)

(** ** The error monad *)

Lemma bind_Ok {A B} (m : result A) (k : A -> result B) b :
  bind m k = Ok b -> exists a, m = Ok a /\ k a = Ok b.
Proof. destruct m as [a|e]; simpl; [eauto | discriminate]. Qed.

Lemma assert_Ok b e : assert b e = Ok tt -> b = true.
Proof. unfold assert; destruct b; congruence. Qed.

Lemma assert_Ok_inv b e u : assert b e = Ok u -> b = true.
Proof. unfold assert; destruct b; congruence. Qed.

Lemma pydiv_Ok x y q : pydiv x y = Ok q -> y <> 0 /\ q = x / y.
Proof.
  unfold pydiv. destruct (Z.eqb_spec y 0); [discriminate|].
  intros [= <-]. auto.
Qed.

Lemma pydiv_pos x y : y <> 0 -> pydiv x y = Ok (x / y).
Proof. unfold pydiv. destruct (Z.eqb_spec y 0); congruence. Qed.

Lemma safeMul_Ok x y m : safeMul x y = Ok m -> m = x * y /\ x * y < 2 ^ 256.
Proof.
  unfold safeMul, assert. change (Z.shiftl 1 256) with (2 ^ 256).
  destruct (Z.ltb_spec (x * y) (2 ^ 256)); simpl; [|discriminate].
  intros [= <-]. auto.
Qed.

Lemma safeMul_small x y : x * y < 2 ^ 256 -> safeMul x y = Ok (x * y).
Proof.
  unfold safeMul, assert. change (Z.shiftl 1 256) with (2 ^ 256).
  destruct (Z.ltb_spec (x * y) (2 ^ 256)); simpl; [auto|lia].
Qed.

Lemma safeMul_large x y : 2 ^ 256 <= x * y -> safeMul x y = Err ArithmeticOverflow.
Proof.
  unfold safeMul, assert. change (Z.shiftl 1 256) with (2 ^ 256).
  destruct (Z.ltb_spec (x * y) (2 ^ 256)); simpl; [lia|auto].
Qed.

Lemma safeAdd_Ok x y m : safeAdd x y = Ok m -> m = x + y /\ x + y < 2 ^ 256.
Proof.
  unfold safeAdd, assert. change (Z.shiftl 1 256) with (2 ^ 256).
  destruct (Z.ltb_spec (x + y) (2 ^ 256)); simpl; [|discriminate].
  intros [= <-]. auto.
Qed.

(** ** Valid pool states *)

Lemma valid_pool_check s r c :
  valid_pool s r c ->
  (s >? 0) && (r >? 0) && (c >? 0) && (c <=? MAX_CRR) = true.
Proof.
  intros (Hs & Hr & Hc1 & Hc2).
  rewrite !andb_true_iff. repeat split; lia.
Qed.

(** The two formulas after their input validation and shortcuts. *)
Lemma purchase_general s r c d :
  valid_pool s r c -> d <> 0 -> c <> MAX_CRR ->
  calculatePurchaseReturn s r c d =
    (baseN <- safeAdd d r ;;
     '(result, precision) <- power baseN r c MAX_CRR ;;
     m <- safeMul s result ;;
     Ok (Z.shiftr m precision - s)).
Proof.
  intros H Hd Hc. unfold calculatePurchaseReturn.
  rewrite (valid_pool_check _ _ _ H). simpl.
  destruct (Z.eqb_spec d 0); [contradiction|].
  destruct (Z.eqb_spec c MAX_CRR); [contradiction|]. reflexivity.
Qed.

Lemma purchase_linear s r d :
  0 < s -> 0 < r -> d <> 0 ->
  calculatePurchaseReturn s r MAX_CRR d = (m <- safeMul s d ;; pydiv m r).
Proof.
  intros Hs Hr Hd. unfold calculatePurchaseReturn.
  replace (s >? 0) with true by lia. replace (r >? 0) with true by lia.
  simpl. destruct (Z.eqb_spec d 0); [contradiction|]. reflexivity.
Qed.

Lemma sale_general s r c a :
  valid_pool s r c -> a < s -> a <> 0 -> c <> MAX_CRR ->
  calculateSaleReturn s r c a =
    ('(result, precision) <- power s (s - a) MAX_CRR c ;;
     temp1 <- safeMul r result ;;
     pydiv (temp1 - Z.shiftl r precision) result).
Proof.
  intros H Ha Ha0 Hc. unfold calculateSaleReturn.
  rewrite (valid_pool_check _ _ _ H). replace (a <=? s) with true by lia.
  simpl.
  destruct (Z.eqb_spec a 0); [contradiction|].
  destruct (Z.eqb_spec a s); [lia|].
  destruct (Z.eqb_spec c MAX_CRR); [contradiction|]. reflexivity.
Qed.

Lemma sale_linear s r a :
  0 < s -> 0 < r -> a < s -> a <> 0 ->
  calculateSaleReturn s r MAX_CRR a = (m <- safeMul r a ;; pydiv m s).
Proof.
  intros Hs Hr Ha Ha0. unfold calculateSaleReturn.
  replace (s >? 0) with true by lia. replace (r >? 0) with true by lia.
  replace (a <=? s) with true by lia. simpl.
  destruct (Z.eqb_spec a 0); [contradiction|].
  destruct (Z.eqb_spec a s); [lia|]. reflexivity.
Qed.

(** ** Zero amounts and the whole supply *)

Lemma purchase_zero s r c :
  valid_pool s r c -> calculatePurchaseReturn s r c 0 = Ok 0.
Proof.
  intros H. unfold calculatePurchaseReturn.
  now rewrite (valid_pool_check _ _ _ H).
Qed.

Lemma sale_zero s r c :
  valid_pool s r c -> calculateSaleReturn s r c 0 = Ok 0.
Proof.
  intros H. pose proof (valid_pool_check _ _ _ H) as Hb.
  destruct H as (Hs & _). unfold calculateSaleReturn.
  rewrite Hb. replace (0 <=? s) with true by lia. reflexivity.
Qed.

Lemma sale_all s r c :
  valid_pool s r c -> calculateSaleReturn s r c s = Ok r.
Proof.
  intros H. pose proof (valid_pool_check _ _ _ H) as Hb.
  destruct H as (Hs & _).
  unfold calculateSaleReturn.
  rewrite Hb, Z.leb_refl. cbn [assert bind andb].
  replace (s =? 0) with false by lia. now rewrite Z.eqb_refl.
Qed.

(** C6: on every valid pool state a deposit of 0 buys 0 tokens and a sale of
    0 tokens returns 0, and neither call raises. *)
Theorem zero_amount_returns_zero s r c :
  valid_pool s r c ->
  calculatePurchaseReturn s r c 0 = Ok 0 /\ calculateSaleReturn s r c 0 = Ok 0.
Proof. intros H. split; [now apply purchase_zero | now apply sale_zero]. Qed.

Lemma zero_amount_returns_zero_witness :
  calculatePurchaseReturn 1000 1000 500000 0 = Ok 0 /\
  calculateSaleReturn 1000 1000 500000 0 = Ok 0.
Proof.
  apply (zero_amount_returns_zero 1000 1000 500000).
  unfold valid_pool, MAX_CRR. lia.
Defined.

(** C4: on every valid pool state, selling the entire supply returns exactly
    the reserve balance. *)
Theorem sale_of_entire_supply s r c :
  valid_pool s r c -> calculateSaleReturn s r c s = Ok r.
Proof. apply sale_all. Qed.

Lemma sale_of_entire_supply_witness :
  calculateSaleReturn 1000 2000 500000 1000 = Ok 2000.
Proof.
  apply (sale_of_entire_supply 1000 2000 500000).
  unfold valid_pool, MAX_CRR. lia.
Defined.

(** ** The linear shortcut *)

(** C5, counterexample: with supply and reserve 2^128, selling the whole
    supply has a product of 2^256, and the call returns the reserve instead
    of failing: the whole-supply shortcut comes before the multiplication. *)
Lemma linear_sale_claim_fails_on_entire_supply :
  ~ linear_sale_claim (2 ^ 128) (2 ^ 128) (2 ^ 128).
Proof.
  intros [_ H]. specialize (H ltac:(vm_compute; discriminate)).
  vm_compute in H. discriminate.
Qed.

(** C5, amended: at reserve ratio 1000000 the purchase formula returns
    floor(s*d/r) when s*d < 2^256 and fails with an overflow otherwise; the
    sale formula returns floor(r*a/s) when r*a < 2^256, fails with an
    overflow when r*a >= 2^256 and a < s, and returns r when a = s whatever
    the product. *)
Theorem linear_shortcut s r :
  0 < s -> 0 < r ->
  (forall d, 0 <= d ->
     (s * d < 2 ^ 256 -> calculatePurchaseReturn s r MAX_CRR d = Ok (s * d / r)) /\
     (2 ^ 256 <= s * d ->
        calculatePurchaseReturn s r MAX_CRR d = Err ArithmeticOverflow)) /\
  (forall a, 0 <= a <= s ->
     (r * a < 2 ^ 256 -> calculateSaleReturn s r MAX_CRR a = Ok (r * a / s)) /\
     (2 ^ 256 <= r * a -> a < s ->
        calculateSaleReturn s r MAX_CRR a = Err ArithmeticOverflow) /\
     (a = s -> calculateSaleReturn s r MAX_CRR a = Ok r)).
Proof.
  intros Hs Hr. split.
  - intros d Hd. destruct (Z.eq_dec d 0) as [->|Hd0].
    + split; [|lia]. intros _.
      rewrite Z.mul_0_r, Z.div_0_l by lia.
      apply purchase_zero. unfold valid_pool, MAX_CRR; lia.
    + rewrite purchase_linear by assumption. split; intros H.
      * rewrite safeMul_small by assumption. simpl. apply pydiv_pos; lia.
      * now rewrite safeMul_large.
  - intros a Ha.
    assert (Hv : valid_pool s r MAX_CRR) by (unfold valid_pool, MAX_CRR; lia).
    assert (Hall : calculateSaleReturn s r MAX_CRR s = Ok r)
      by (now apply sale_all).
    destruct (Z.eq_dec a 0) as [->|Ha0].
    + repeat split; try lia. intros _.
      rewrite Z.mul_0_r, Z.div_0_l by lia.
      now apply sale_zero.
    + destruct (Z.eq_dec a s) as [->|Has].
      * repeat split; try lia; auto. intros _.
        rewrite Z.div_mul by lia. exact Hall.
      * assert (a < s) by lia. rewrite sale_linear by assumption.
        repeat split; try lia; intros H1.
        -- rewrite safeMul_small by assumption. simpl. apply pydiv_pos; lia.
        -- intros _. now rewrite safeMul_large.
Qed.

Lemma linear_shortcut_witness :
  calculatePurchaseReturn 1000 300 MAX_CRR 7 = Ok (1000 * 7 / 300) /\
  calculateSaleReturn 1000 300 MAX_CRR 7 = Ok (300 * 7 / 1000).
Proof.
  destruct (linear_shortcut 1000 300 ltac:(lia) ltac:(lia)) as [Hp Hs].
  split.
  - apply (Hp 7); lia.
  - apply (Hs 7); lia.
Defined.

(** ** The precision table *)

Lemma maxExp_tbl i : 0 <= i < 128 -> maxExp i = Ok (tbl i).
Proof.
  intros Hi. unfold maxExp, tbl.
  replace (i <? 0) with false by lia.
  assert (Hlen : (Z.to_nat i < length maxExpArray)%nat)
    by (change (length maxExpArray) with 128%nat; lia).
  now rewrite (nth_error_nth' maxExpArray 0 Hlen).
Qed.

Lemma tbl_decreasing_check :
  forallb decreasing_at (map Z.of_nat (seq 32 95)) = true.
Proof. vm_compute. reflexivity. Qed.

Lemma tbl_step i : 32 <= i < 127 -> tbl (i + 1) < tbl i.
Proof.
  intros Hi. pose proof tbl_decreasing_check as H.
  rewrite forallb_forall in H. specialize (H i).
  unfold decreasing_at in H. apply Z.ltb_lt, H.
  apply in_map_iff. exists (Z.to_nat i). split; [lia|]. apply in_seq. lia.
Qed.

Lemma tbl_strict i j : 32 <= i -> i < j -> j <= 127 -> tbl j < tbl i.
Proof.
  intros Hi Hij Hj.
  replace j with (i + 1 + Z.of_nat (Z.to_nat (j - i - 1))) in * by lia.
  induction (Z.to_nat (j - i - 1)) as [|n IH].
  - rewrite Z.add_0_r. apply tbl_step. lia.
  - etransitivity; [|apply IH; lia].
    replace (i + 1 + Z.of_nat (S n)) with (i + 1 + Z.of_nat n + 1) by lia.
    apply tbl_step. lia.
Qed.

Lemma tbl_mono i j : 32 <= i <= j -> j <= 127 -> tbl j <= tbl i.
Proof.
  intros Hij Hj. destruct (Z.eq_dec i j) as [->|]; [lia|].
  apply Z.lt_le_incl, tbl_strict; lia.
Qed.

(** C9: between the indices 32 and 127 every entry of the table is strictly
    larger than the next one. *)
Theorem maxExpArray_strictly_decreasing i :
  32 <= i < 127 ->
  exists a b, maxExp i = Ok a /\ maxExp (i + 1) = Ok b /\ b < a.
Proof.
  intros Hi. exists (tbl i), (tbl (i + 1)).
  rewrite !maxExp_tbl by lia. auto using tbl_step.
Qed.

Lemma maxExpArray_strictly_decreasing_witness :
  exists a b, maxExp 61 = Ok a /\ maxExp (61 + 1) = Ok b /\ b < a.
Proof. apply (maxExpArray_strictly_decreasing 61). lia. Defined.

(** ** The precision selector *)

Lemma covers_tbl k x : 32 <= k <= 127 -> covers k x <-> x <= tbl k.
Proof.
  intros Hk. unfold covers. rewrite maxExp_tbl by lia. split.
  - intros (v & [= <-] & H). exact H.
  - eauto.
Qed.

Section Selector.
Variable x : Z.

(** What the search knows about its two ends. *)
Let lo_ok (lo : Z) : Prop := lo = 32 \/ x <= tbl lo.
Let hi_ok (hi : Z) : Prop := hi = 127 \/ tbl hi < x.

Lemma findPosition_loop_done fuel lo hi :
  32 <= lo -> lo < hi -> hi <= 127 -> hi - lo <= Z.of_nat fuel ->
  lo_ok lo -> hi_ok hi ->
  exists lo' hi',
    findPosition_loop fuel x lo hi = Ok (lo', hi') /\
    32 <= lo' /\ hi' = lo' + 1 /\ hi' <= 127 /\ lo_ok lo' /\ hi_ok hi'.
Proof.
  revert lo hi. induction fuel as [|f IH]; intros lo hi H1 H2 H3 Hf Hlo Hhi.
  - lia.
  - simpl. destruct (Z.ltb_spec (lo + 1) hi) as [Hlt|Hge].
    + set (mid := (lo + hi) / 2).
      assert (Hmid : lo < mid < hi).
      { unfold mid. pose proof (Z.div_mod (lo + hi) 2 ltac:(lia)).
        pose proof (Z.mod_pos_bound (lo + hi) 2 ltac:(lia)). lia. }
      rewrite maxExp_tbl by lia. simpl.
      destruct (Z.geb_spec (tbl mid) x) as [Hc|Hc].
      * apply IH; try lia; auto. right; lia.
      * apply IH; try lia; auto. right; lia.
    + exists lo, hi. repeat split; auto; lia.
Qed.

Lemma findPosition_cases :
  (exists k, findPositionInMaxExpArray x = Ok k /\ 32 <= k <= 127 /\
             x <= tbl k /\ forall j, 32 <= j <= 127 -> x <= tbl j -> j <= k) \/
  (findPositionInMaxExpArray x = Err PrecisionRangeExceeded /\
   forall j, 32 <= j <= 127 -> tbl j < x).
Proof.
  unfold findPositionInMaxExpArray.
  destruct (findPosition_loop_done (Z.to_nat (MAX_PRECISION - MIN_PRECISION))
              MIN_PRECISION MAX_PRECISION)
    as (lo & hi & -> & Hlo & Hhi & Hhi' & Plo & Phi);
    try (unfold MIN_PRECISION, MAX_PRECISION; lia);
    try (left; reflexivity); try (now left).
  simpl. rewrite !maxExp_tbl by lia. simpl.
  destruct (Z.geb_spec (tbl hi) x) as [Hc|Hc].
  - left. exists hi. repeat split; try lia.
    destruct Phi as [->|]; [|lia]. intros j Hj _. lia.
  - destruct (Z.geb_spec (tbl lo) x) as [Hc'|Hc'].
    + left. exists lo. repeat split; try lia.
      intros j Hj Hx. destruct (Z_le_gt_dec j lo) as [|Hgt]; [assumption|].
      pose proof (tbl_mono hi j ltac:(lia) ltac:(lia)). lia.
    + right. split; [reflexivity|].
      intros j Hj. destruct Plo as [->|]; [|lia].
      pose proof (tbl_mono 32 j ltac:(lia) ltac:(lia)). lia.
Qed.
End Selector.

(** C8: the selector returns the highest index of [32, 127] whose table
    entry is at least [x] when there is one, and fails with
    [PrecisionRangeExceeded] exactly when every entry of that range is
    below [x]. *)
Theorem findPositionInMaxExpArray_spec x :
  0 <= x ->
  ((exists k, 32 <= k <= 127 /\ covers k x) ->
   exists k, findPositionInMaxExpArray x = Ok k /\ 32 <= k <= 127 /\
             covers k x /\
             forall j, 32 <= j <= 127 -> covers j x -> j <= k) /\
  (findPositionInMaxExpArray x = Err PrecisionRangeExceeded <->
   forall k, 32 <= k <= 127 -> ~ covers k x) /\
  (forall e, findPositionInMaxExpArray x = Err e -> e = PrecisionRangeExceeded).
Proof.
  intros _. destruct (findPosition_cases x) as [(k & E & Hk & Hx & Hmax)|[E Hnone]].
  - split; [|split].
    + intros _. exists k. repeat split; try lia; auto.
      * now apply covers_tbl.
      * intros j Hj Hc. apply Hmax; auto. now apply covers_tbl.
    + rewrite E. split; [discriminate|].
      intros H. exfalso. apply (H k Hk). now apply covers_tbl.
    + intros e. rewrite E. discriminate.
  - split; [|split].
    + intros (k & Hk & Hc). apply covers_tbl in Hc; auto.
      specialize (Hnone k Hk). lia.
    + split; auto. intros _ k Hk Hc. apply covers_tbl in Hc; auto.
      specialize (Hnone k Hk). lia.
    + intros e. rewrite E. congruence.
Qed.

Lemma findPositionInMaxExpArray_spec_witness :
  exists k, findPositionInMaxExpArray (2 ^ 130) = Ok k /\ 32 <= k <= 127 /\
            covers k (2 ^ 130) /\
            forall j, 32 <= j <= 127 -> covers j (2 ^ 130) -> j <= k.
Proof.
  apply (findPositionInMaxExpArray_spec (2 ^ 130)); [lia|].
  exists 32. split; [lia|]. exists (tbl 32). split; [reflexivity|].
  vm_compute. discriminate.
Defined.

Lemma findPosition_range x k :
  findPositionInMaxExpArray x = Ok k -> 32 <= k <= 127 /\ x <= tbl k.
Proof.
  destruct (findPosition_cases x) as [(k' & E & Hk & Hx & _)|[E _]];
    rewrite E; [intros [= <-]; auto | discriminate].
Qed.

(** ** floorLog2 *)

Lemma shiftr_pos_bounds n s m :
  0 <= s -> 0 <= m -> 2 ^ s <= n < 2 ^ (s + m) -> 0 < Z.shiftr n s < 2 ^ m.
Proof.
  intros Hs Hm [H1 H2]. rewrite Z.shiftr_div_pow2 by assumption.
  assert (0 < 2 ^ s) by (apply Z.pow_pos_nonneg; lia). split.
  - apply Z.div_str_pos. lia.
  - apply Z.div_lt_upper_bound; [assumption|]. now rewrite <- Z.pow_add_r.
Qed.

Lemma floorLog2_small_done fuel n res :
  0 < n < 2 ^ Z.of_nat fuel ->
  floorLog2_small fuel n res = (1, res + Z.log2 n).
Proof.
  revert n res. induction fuel as [|f IH]; intros n res Hn.
  - simpl in Hn. lia.
  - simpl. destruct (Z.gtb_spec n 1) as [Hgt|Hle].
    + rewrite IH.
      * f_equal. rewrite Z.log2_shiftr by lia.
        assert (1 <= Z.log2 n) by (apply Z.log2_le_pow2; simpl; lia). lia.
      * apply shiftr_pos_bounds; try lia.
        replace (1 + Z.of_nat f) with (Z.of_nat (S f)) by lia. simpl (2 ^ 1). lia.
    + assert (n = 1) by lia. subst n. simpl. now rewrite Z.add_0_r.
Qed.

Lemma floorLog2_widths_eq : floorLog2_widths = widths_from 7.
Proof. reflexivity. Qed.

Lemma lor_pow2 res j :
  0 <= j -> res mod 2 ^ (j + 1) = 0 -> Z.lor res (2 ^ j) = res + 2 ^ j.
Proof.
  intros Hj Hres.
  assert (Hland : Z.land res (2 ^ j) = 0).
  { apply Z.bits_inj'. intros n Hn. rewrite Z.land_spec, Z.bits_0.
    rewrite Z.pow2_bits_eqb by assumption.
    destruct (Z.eqb_spec j n) as [<-|]; [|apply andb_false_r].
    rewrite andb_true_r.
    apply Z.mod_divide in Hres; [|apply Z.pow_nonzero; lia].
    destruct Hres as [q ->]. apply Z.mul_pow2_bits_low. lia. }
  rewrite <- Z.lxor_lor by assumption.
  symmetry. now apply Z.add_nocarry_lxor.
Qed.

Lemma floorLog2_big_fold n res :
  floorLog2_big n res = fold_left floorLog2_step floorLog2_widths (n, res).
Proof. reflexivity. Qed.

Lemma floorLog2_widths_done j n res :
  0 < n < 2 ^ (2 ^ (Z.of_nat j + 1)) -> res mod 2 ^ (Z.of_nat j + 1) = 0 ->
  fold_left floorLog2_step (widths_from j) (n, res) = (1, res + Z.log2 n).
Proof.
  revert n res. induction j as [|j IH]; intros n res Hn Hres.
  - simpl in *. change (Z.shiftl ONE 1) with 2.
    change (2 ^ 2 ^ 1) with 4 in Hn.
    destruct (Z.geb_spec n 2).
    + assert (Hc : n = 2 \/ n = 3) by lia.
      pose proof (lor_pow2 res 0 ltac:(lia) Hres) as E.
      change (2 ^ 0) with 1 in E. rewrite E.
      destruct Hc as [-> | ->]; reflexivity.
    + assert (n = 1) by lia. subst n. simpl. now rewrite Z.add_0_r.
  - cbn [widths_from fold_left floorLog2_step].
    set (s := 2 ^ Z.of_nat (S j)).
    assert (Hs : 0 < s) by (apply Z.pow_pos_nonneg; lia).
    assert (Hs2 : 2 ^ (Z.of_nat (S j) + 1) = s + s).
    { unfold s. rewrite Z.pow_add_r by lia. lia. }
    assert (Hs' : s = 2 ^ (Z.of_nat j + 1)) by (unfold s; f_equal; lia).
    rewrite Hs2 in Hn.
    unfold ONE. rewrite Z.shiftl_1_l.
    assert (Hres' : res mod 2 ^ (Z.of_nat j + 1) = 0).
    { apply Z.mod_divide; [apply Z.pow_nonzero; lia|].
      apply Z.mod_divide in Hres; [|apply Z.pow_nonzero; lia].
      destruct Hres as [q ->]. exists (q * 2).
      replace (Z.of_nat (S j) + 1) with (Z.of_nat j + 1 + 1) by lia.
      rewrite (Z.pow_add_r _ _ 1) by lia. simpl (2 ^ 1). lia. }
    destruct (Z.geb_spec n (2 ^ s)) as [Hge|Hlt].
    + rewrite IH.
      * f_equal. unfold s at 1. rewrite lor_pow2 by (assumption || lia). fold s.
        rewrite Z.log2_shiftr by lia.
        assert (s <= Z.log2 n) by (apply (proj1 (Z.log2_le_pow2 n s ltac:(lia))); lia). lia.
      * rewrite <- Hs'. apply shiftr_pos_bounds; lia.
      * unfold s at 1. rewrite lor_pow2 by (assumption || lia). fold s.
        rewrite Hs' at 1. rewrite <- Zplus_mod_idemp_r, Z.mod_same
          by (apply Z.pow_nonzero; lia).
        now rewrite Z.add_0_r.
    + apply IH; [rewrite <- Hs'; lia | assumption].
Qed.

(** The source's comment: "the largest integer smaller than or equal to the
    binary logarithm of the input", for every positive 256-bit input. *)
Lemma floorLog2_correct n : 0 < n < 2 ^ 256 -> floorLog2 n = Z.log2 n.
Proof.
  intros Hn. unfold floorLog2. destruct (Z.ltb_spec n 256).
  - rewrite floorLog2_small_done by (simpl; lia). reflexivity.
  - rewrite floorLog2_big_fold, floorLog2_widths_eq.
    rewrite floorLog2_widths_done by (simpl; lia || reflexivity). reflexivity.
Qed.

Example floorLog2_reference_values :
  floorLog2 1 = 0 /\ floorLog2 2 = 1 /\ floorLog2 255 = 7 /\
  floorLog2 256 = 8 /\ floorLog2 (2 ^ 256 - 1) = 255.
Proof. repeat split; reflexivity. Qed.

(** ** ln: the integer side *)

Lemma ln_unfold n d :
  ln n d =
    (_ <- assert (n <=? MAX_NUM) NumeratorOutOfRange ;;
     x <- pydiv (n * FIXED_1) d ;;
     Ok (ln_scale (log2_fixed x))).
Proof.
  unfold ln, log2_fixed, ln_frac, ln_int, ln_scale.
  destruct (assert _ _); cbn [bind]; [|reflexivity].
  destruct (pydiv _ _) as [x|]; cbn [bind]; [|reflexivity].
  destruct (x >=? FIXED_2).
  - destruct (Z.shiftr x _ >? FIXED_1); [|reflexivity].
    destruct (ln_loop _ _ _); reflexivity.
  - destruct (x >? FIXED_1); [|reflexivity].
    destruct (ln_loop _ _ _); reflexivity.
Qed.

Lemma ln_Ok n d l :
  ln n d = Ok l ->
  n <= MAX_NUM /\ d <> 0 /\ l = ln_scale (log2_fixed (n * FIXED_1 / d)).
Proof.
  rewrite ln_unfold. intros H.
  apply bind_Ok in H. destruct H as (u & Ha & H).
  apply assert_Ok_inv in Ha. apply Z.leb_le in Ha.
  apply bind_Ok in H. destruct H as (x & Hx & H).
  apply pydiv_Ok in Hx. destruct Hx as [Hd ->].
  injection H as <-. auto.
Qed.

Lemma ln_defined n d :
  n <= MAX_NUM -> d <> 0 ->
  ln n d = Ok (ln_scale (log2_fixed (n * FIXED_1 / d))).
Proof.
  intros Hn Hd. rewrite ln_unfold.
  replace (n <=? MAX_NUM) with true by lia. cbn [assert bind].
  now rewrite pydiv_pos.
Qed.

(** The ratio of a call with [1 <= d <= n <= MAX_NUM]. *)
Lemma ratio_range n d :
  1 <= d -> d <= n -> n <= MAX_NUM ->
  FIXED_1 <= n * FIXED_1 / d < 2 ^ 256.
Proof.
  intros Hd Hdn Hn. unfold MAX_NUM, FIXED_1 in *. split.
  - apply Z.div_le_lower_bound; nia.
  - apply Z.div_lt_upper_bound; nia.
Qed.

(** *** The integer part *)

Lemma ln_int_spec x :
  FIXED_1 <= x < 2 ^ 256 ->
  let c := Z.log2 (x / FIXED_1) in
  ln_int x = (Z.shiftr x c, c * FIXED_1) /\
  0 <= c /\ FIXED_1 <= Z.shiftr x c < FIXED_2.
Proof.
  intros Hx c.
  assert (Hq : 1 <= x / FIXED_1 < 2 ^ 129).
  { unfold FIXED_1 in *. split.
    - apply Z.div_le_lower_bound; lia.
    - apply Z.div_lt_upper_bound; lia. }
  assert (Hc0 : 0 <= c) by apply Z.log2_nonneg.
  destruct (Z.log2_spec (x / FIXED_1) ltac:(lia)) as [Hl Hu]. fold c in Hl, Hu.
  assert (Hp : 0 < 2 ^ c) by (apply Z.pow_pos_nonneg; lia).
  assert (Hrange : FIXED_1 <= Z.shiftr x c < FIXED_2).
  { rewrite Z.shiftr_div_pow2 by assumption.
    rewrite Z.pow_succ_r in Hu by assumption.
    pose proof (Z.div_mod x FIXED_1 ltac:(unfold FIXED_1; lia)) as E.
    pose proof (Z.mod_pos_bound x FIXED_1 ltac:(unfold FIXED_1; lia)) as B.
    unfold FIXED_1, FIXED_2 in *. split.
    - apply Z.div_le_lower_bound; nia.
    - apply Z.div_lt_upper_bound; nia. }
  split; [|auto].
  unfold ln_int. destruct (Z.geb_spec x FIXED_2) as [Hge|Hlt].
  - rewrite floorLog2_correct by lia. reflexivity.
  - assert (Hq1 : x / FIXED_1 = 1).
    { unfold FIXED_1, FIXED_2 in *.
      assert (x / 2 ^ 127 < 2) by (apply Z.div_lt_upper_bound; lia).
      change 0x080000000000000000000000000000000 with (2 ^ 127) in *. lia. }
    unfold c. rewrite Hq1. simpl. now rewrite Z.shiftr_0_r.
Qed.

(** *** The fractional part *)

Lemma square_range x :
  FIXED_1 <= x < FIXED_2 -> FIXED_1 <= x * x / FIXED_1 < 2 * FIXED_2.
Proof.
  intros Hx. unfold FIXED_1, FIXED_2 in *. split.
  - apply Z.div_le_lower_bound; nia.
  - apply Z.div_lt_upper_bound; nia.
Qed.

Lemma halve_range y :
  FIXED_2 <= y < 2 * FIXED_2 -> FIXED_1 <= Z.shiftr y 1 < FIXED_2.
Proof.
  intros Hy. rewrite Z.shiftr_div_pow2 by lia. simpl (2 ^ 1).
  unfold FIXED_1, FIXED_2 in *. split.
  - apply Z.div_le_lower_bound; lia.
  - apply Z.div_lt_upper_bound; lia.
Qed.

Lemma ln_loop_bounds i x res :
  FIXED_1 <= x < FIXED_2 ->
  let '(x', res') := ln_loop i x res in
  FIXED_1 <= x' < FIXED_2 /\ res <= res' <= res + 2 ^ Z.of_nat i - 1.
Proof.
  revert x res. induction i as [|j IH]; intros x res Hx.
  - simpl. lia.
  - cbn [ln_loop]. pose proof (square_range x Hx) as Hy.
    set (y := x * x / FIXED_1) in *.
    replace (Z.of_nat (S j) - 1) with (Z.of_nat j) by lia.
    unfold ONE. rewrite Z.shiftl_1_l.
    assert (Hp : 2 ^ Z.of_nat (S j) = 2 * 2 ^ Z.of_nat j).
    { rewrite Nat2Z.inj_succ, Z.pow_succ_r; lia. }
    assert (0 < 2 ^ Z.of_nat j) by (apply Z.pow_pos_nonneg; lia).
    destruct (Z.geb_spec y FIXED_2) as [Hge|Hlt].
    + specialize (IH (Z.shiftr y 1) (res + 2 ^ Z.of_nat j)
                     (halve_range y ltac:(lia))).
      destruct (ln_loop j _ _) as [x' res']. lia.
    + specialize (IH y res ltac:(lia)).
      destruct (ln_loop j _ _) as [x' res']. lia.
Qed.

Lemma ln_loop_mono i x1 x2 res :
  FIXED_1 <= x1 -> x1 <= x2 -> x2 < FIXED_2 ->
  snd (ln_loop i x1 res) <= snd (ln_loop i x2 res).
Proof.
  revert x1 x2 res. induction i as [|j IH]; intros x1 x2 res H1 H12 H2.
  - simpl. lia.
  - cbn [ln_loop].
    pose proof (square_range x1 ltac:(lia)) as Hy1.
    pose proof (square_range x2 ltac:(lia)) as Hy2.
    assert (Hy : x1 * x1 / FIXED_1 <= x2 * x2 / FIXED_1).
    { apply Z.div_le_mono; [unfold FIXED_1; lia|]. unfold FIXED_1 in *. nia. }
    set (y1 := x1 * x1 / FIXED_1) in *. set (y2 := x2 * x2 / FIXED_1) in *.
    replace (Z.of_nat (S j) - 1) with (Z.of_nat j) by lia.
    unfold ONE. rewrite Z.shiftl_1_l.
    destruct (Z.geb_spec y1 FIXED_2) as [G1|L1];
      destruct (Z.geb_spec y2 FIXED_2) as [G2|L2].
    + apply IH.
      * apply halve_range; lia.
      * rewrite !Z.shiftr_div_pow2 by lia. apply Z.div_le_mono; simpl; lia.
      * apply halve_range; lia.
    + lia.
    + pose proof (ln_loop_bounds j y1 res ltac:(lia)) as B1.
      pose proof (ln_loop_bounds j (Z.shiftr y2 1) (res + 2 ^ Z.of_nat j)
                    (halve_range y2 ltac:(lia))) as B2.
      destruct (ln_loop j y1 res), (ln_loop j (Z.shiftr y2 1) _). simpl. lia.
    + apply IH; lia.
Qed.

Lemma ln_frac_loop x res :
  FIXED_1 <= x < FIXED_2 ->
  snd (ln_frac (x, res)) = snd (ln_loop (Z.to_nat MAX_PRECISION) x res).
Proof.
  intros Hx. unfold ln_frac. destruct (Z.gtb_spec x FIXED_1) as [|Hle]; [reflexivity|].
  assert (x = FIXED_1) by lia. subst x. vm_compute. destruct res; reflexivity.
Qed.

(** *** The accumulated logarithm *)

Lemma log2_fixed_bounds x :
  FIXED_1 <= x < 2 ^ 256 ->
  let c := Z.log2 (x / FIXED_1) in
  c * FIXED_1 <= log2_fixed x < (c + 1) * FIXED_1.
Proof.
  intros Hx c. destruct (ln_int_spec x Hx) as (E & Hc & Hr). fold c in E, Hr.
  unfold log2_fixed. rewrite E, ln_frac_loop by assumption.
  pose proof (ln_loop_bounds (Z.to_nat MAX_PRECISION) _ (c * FIXED_1) Hr) as B.
  destruct (ln_loop _ _ _) as [x' res']. simpl snd.
  change (2 ^ Z.of_nat (Z.to_nat MAX_PRECISION)) with FIXED_1 in B. lia.
Qed.

Lemma log2_fixed_nonneg x : FIXED_1 <= x < 2 ^ 256 -> 0 <= log2_fixed x.
Proof.
  intros Hx. pose proof (log2_fixed_bounds x Hx) as B. cbv zeta in B.
  pose proof (Z.log2_nonneg (x / FIXED_1)). unfold FIXED_1 in *. nia.
Qed.

Lemma log2_fixed_mono x1 x2 :
  FIXED_1 <= x1 -> x1 <= x2 -> x2 < 2 ^ 256 ->
  log2_fixed x1 <= log2_fixed x2.
Proof.
  intros H1 H12 H2.
  assert (Hc : Z.log2 (x1 / FIXED_1) <= Z.log2 (x2 / FIXED_1)).
  { apply Z.log2_le_mono, Z.div_le_mono; [unfold FIXED_1|]; lia. }
  destruct (Z.eq_dec (Z.log2 (x1 / FIXED_1)) (Z.log2 (x2 / FIXED_1))) as [E|N].
  - destruct (ln_int_spec x1 ltac:(lia)) as (E1 & Hc1 & Hr1).
    destruct (ln_int_spec x2 ltac:(lia)) as (E2 & Hc2 & Hr2).
    unfold log2_fixed. rewrite E1, E2, !ln_frac_loop by assumption.
    rewrite <- E in *. apply ln_loop_mono; try lia.
    rewrite !Z.shiftr_div_pow2 by assumption.
    apply Z.div_le_mono; [apply Z.pow_pos_nonneg|]; lia.
  - pose proof (log2_fixed_bounds x1 ltac:(lia)) as B1.
    pose proof (log2_fixed_bounds x2 ltac:(lia)) as B2. cbv zeta in B1, B2.
    unfold FIXED_1 in *. nia.
Qed.

Lemma ln_scale_nonneg res : 0 <= res -> 0 <= ln_scale res.
Proof.
  intros H. unfold ln_scale. apply Z.shiftr_nonneg.
  unfold LN2_MANTISSA. lia.
Qed.

Lemma ln_scale_mono r1 r2 : r1 <= r2 -> ln_scale r1 <= ln_scale r2.
Proof.
  intros H. unfold ln_scale, LN2_EXPONENT. rewrite !Z.shiftr_div_pow2 by lia.
  apply Z.div_le_mono; [lia|]. unfold LN2_MANTISSA. lia.
Qed.

(** [ln] is nonnegative on ratios of at least 1. *)
Lemma ln_nonneg n d l : 1 <= d -> d <= n -> ln n d = Ok l -> 0 <= l.
Proof.
  intros Hd Hdn H. apply ln_Ok in H. destruct H as (Hn & _ & ->).
  apply ln_scale_nonneg, log2_fixed_nonneg, ratio_range; assumption.
Qed.

(** [ln] grows with the ratio [n / d]. *)
Lemma ln_mono n1 d1 n2 d2 l1 l2 :
  1 <= d1 -> d1 <= n1 -> 1 <= d2 ->
  n1 * FIXED_1 / d1 <= n2 * FIXED_1 / d2 ->
  ln n1 d1 = Ok l1 -> ln n2 d2 = Ok l2 -> l1 <= l2.
Proof.
  intros Hd1 Hn1 Hd2 Hx H1 H2.
  apply ln_Ok in H1. destruct H1 as (Hm1 & _ & ->).
  apply ln_Ok in H2. destruct H2 as (Hm2 & _ & ->).
  pose proof (ratio_range n1 d1 Hd1 Hn1 Hm1) as R1.
  assert (R2 : n2 * FIXED_1 / d2 < 2 ^ 256).
  { unfold MAX_NUM, FIXED_1 in *. apply Z.div_lt_upper_bound; nia. }
  apply ln_scale_mono, log2_fixed_mono; lia.
Qed.

(** ** fixedExp: the integer side *)

Lemma fixedExp_fold x p :
  fixedExp x p =
    snd (fold_left (fixedExp_step x p) fixedExp_coefficients (x, 0))
      / fixedExp_divisor + x + Z.shiftl ONE p.
Proof.
  unfold fixedExp. destruct (fold_left _ _ _). reflexivity.
Qed.

Lemma fixedExp_fold_nonneg x p cs xi res :
  0 <= x -> Forall (fun c => 0 <= c) cs -> 0 <= xi -> 0 <= res ->
  0 <= snd (fold_left (fixedExp_step x p) cs (xi, res)).
Proof.
  intros Hx Hcs. revert xi res.
  induction Hcs as [|c cs Hc _ IH]; intros xi res Hxi Hres; [assumption|].
  cbn [fold_left fixedExp_step].
  assert (0 <= Z.shiftr (xi * x) p) by (apply Z.shiftr_nonneg; nia).
  apply IH; nia.
Qed.

Lemma fixedExp_fold_mono p cs :
  Forall (fun c => 0 <= c) cs -> 0 <= p ->
  forall x1 x2 xi1 xi2 res1 res2,
    0 <= x1 <= x2 -> 0 <= xi1 <= xi2 -> res1 <= res2 ->
    snd (fold_left (fixedExp_step x1 p) cs (xi1, res1)) <=
    snd (fold_left (fixedExp_step x2 p) cs (xi2, res2)).
Proof.
  intros Hcs Hp.
  induction Hcs as [|c cs Hc _ IH]; intros x1 x2 xi1 xi2 res1 res2 Hx Hxi Hres;
    [assumption|].
  cbn [fold_left fixedExp_step].
  assert (0 <= Z.shiftr (xi1 * x1) p) by (apply Z.shiftr_nonneg; nia).
  assert (Z.shiftr (xi1 * x1) p <= Z.shiftr (xi2 * x2) p).
  { rewrite !Z.shiftr_div_pow2 by assumption.
    apply Z.div_le_mono; [apply Z.pow_pos_nonneg; lia | nia]. }
  apply IH; try lia. nia.
Qed.

Lemma fixedExp_coefficients_nonneg : Forall (fun c => 0 <= c) fixedExp_coefficients.
Proof. repeat constructor; discriminate. Qed.

(** The first claim of C10 on its own: the two leading terms of the series
    are a lower bound of [fixedExp]. *)
Lemma fixedExp_lower x p : 0 <= x -> 0 <= p -> x + 2 ^ p <= fixedExp x p.
Proof.
  intros Hx Hp. rewrite fixedExp_fold. unfold ONE. rewrite Z.shiftl_1_l.
  pose proof (fixedExp_fold_nonneg x p fixedExp_coefficients x 0 Hx
                fixedExp_coefficients_nonneg Hx ltac:(lia)) as H.
  assert (0 <= snd (fold_left (fixedExp_step x p) fixedExp_coefficients (x, 0))
               / fixedExp_divisor)
    by (apply Z.div_pos; [assumption | reflexivity]).
  lia.
Qed.

Lemma fixedExp_mono x1 x2 p :
  0 <= x1 <= x2 -> 0 <= p -> fixedExp x1 p <= fixedExp x2 p.
Proof.
  intros Hx Hp. rewrite !fixedExp_fold.
  pose proof (fixedExp_fold_mono p fixedExp_coefficients
                fixedExp_coefficients_nonneg Hp x1 x2 x1 x2 0 0 Hx Hx ltac:(lia)).
  assert (snd (fold_left (fixedExp_step x1 p) fixedExp_coefficients (x1, 0))
            / fixedExp_divisor <=
          snd (fold_left (fixedExp_step x2 p) fixedExp_coefficients (x2, 0))
            / fixedExp_divisor)
    by (apply Z.div_le_mono; [reflexivity | assumption]).
  lia.
Qed.

(** ** power: the integer side *)

Lemma power_Ok bN bD eN eD res p :
  power bN bD eN eD = Ok (res, p) ->
  exists l,
    ln bN bD = Ok l /\ eD <> 0 /\
    findPositionInMaxExpArray (l * eN / eD) = Ok p /\
    res = fixedExp (Z.shiftr (l * eN / eD) (MAX_PRECISION - p)) p.
Proof.
  unfold power. intros H.
  apply bind_Ok in H. destruct H as (l & Hl & H).
  apply bind_Ok in H. destruct H as (q & Hq & H).
  apply pydiv_Ok in Hq. destruct Hq as [HeD ->].
  apply bind_Ok in H. destruct H as (p' & Hp & H).
  injection H as <- <-. eauto.
Qed.

Lemma exponent_arg_nonneg l eN eD p :
  0 <= l -> 0 <= eN -> 0 < eD -> 0 <= exponent_arg l eN eD p.
Proof.
  intros Hl HeN HeD. unfold exponent_arg. apply Z.shiftr_nonneg.
  apply Z.div_pos; nia.
Qed.

Lemma power_result_lower bN bD eN eD res p :
  1 <= bD -> bD <= bN -> 0 <= eN -> 0 < eD ->
  power bN bD eN eD = Ok (res, p) ->
  32 <= p <= 127 /\ 2 ^ p <= res.
Proof.
  intros HbD HbN HeN HeD H.
  apply power_Ok in H. destruct H as (l & Hl & _ & Hp & ->).
  apply findPosition_range in Hp. destruct Hp as [Hp _]. split; [assumption|].
  pose proof (ln_nonneg _ _ _ HbD HbN Hl) as Hl0.
  pose proof (exponent_arg_nonneg l eN eD p Hl0 HeN HeD) as Hx.
  pose proof (fixedExp_lower _ p Hx ltac:(lia)) as H. unfold exponent_arg in *. lia.
Qed.

(** ** The general paths of the two formulas *)

Lemma purchase_Ok s r c d t :
  valid_pool s r c -> d <> 0 -> c <> MAX_CRR ->
  calculatePurchaseReturn s r c d = Ok t ->
  exists res p,
    d + r < 2 ^ 256 /\ power (d + r) r c MAX_CRR = Ok (res, p) /\
    s * res < 2 ^ 256 /\ t = Z.shiftr (s * res) p - s.
Proof.
  intros Hv Hd Hc. rewrite purchase_general by assumption. intros H.
  apply bind_Ok in H. destruct H as (baseN & Hb & H).
  apply safeAdd_Ok in Hb. destruct Hb as [-> Hb].
  apply bind_Ok in H. destruct H as ([res p] & Hpow & H).
  apply bind_Ok in H. destruct H as (m & Hm & H).
  apply safeMul_Ok in Hm. destruct Hm as [-> Hm].
  injection H as <-. exists res, p. auto.
Qed.

Lemma sale_Ok s r c a t :
  valid_pool s r c -> a < s -> a <> 0 -> c <> MAX_CRR ->
  calculateSaleReturn s r c a = Ok t ->
  exists res p,
    power s (s - a) MAX_CRR c = Ok (res, p) /\
    r * res < 2 ^ 256 /\ res <> 0 /\ t = (r * res - Z.shiftl r p) / res.
Proof.
  intros Hv Ha Ha0 Hc. rewrite sale_general by assumption. intros H.
  apply bind_Ok in H. destruct H as ([res p] & Hpow & H).
  apply bind_Ok in H. destruct H as (m & Hm & H).
  apply safeMul_Ok in Hm. destruct Hm as [-> Hm].
  apply pydiv_Ok in H. destruct H as [Hres ->].
  exists res, p. auto.
Qed.

Lemma purchase_subtraction_safe s r c d res p :
  valid_pool s r c -> 0 <= d ->
  power (d + r) r c MAX_CRR = Ok (res, p) ->
  32 <= p <= 127 /\ 2 ^ p <= res /\ 0 <= Z.shiftr (s * res) p - s.
Proof.
  intros (Hs & Hr & Hc) Hd H.
  apply power_result_lower in H; try (unfold MAX_CRR in *; lia).
  destruct H as [Hp Hres]. repeat split; try lia.
  rewrite Z.shiftr_div_pow2 by lia.
  assert (0 < 2 ^ p) by (apply Z.pow_pos_nonneg; lia).
  assert (s <= s * res / 2 ^ p) by (apply Z.div_le_lower_bound; nia). lia.
Qed.

Lemma sale_subtraction_safe s r c a res p :
  valid_pool s r c -> 0 <= a < s ->
  power s (s - a) MAX_CRR c = Ok (res, p) ->
  32 <= p <= 127 /\ 2 ^ p <= res /\ 0 <= r * res - Z.shiftl r p /\ res <> 0.
Proof.
  intros (Hs & Hr & Hc) Ha H.
  apply power_result_lower in H; try (unfold MAX_CRR in *; lia).
  destruct H as [Hp Hres].
  assert (0 < 2 ^ p) by (apply Z.pow_pos_nonneg; lia).
  rewrite Z.shiftl_mul_pow2 by lia. repeat split; try lia. nia.
Qed.

(** C10: [fixedExp(x, p)] is at least [x + 2^p]; hence on the general path
    of the purchase formula [power]'s result is at least [2^precision] and
    the final subtraction [temp - _supply] is nonnegative, and on the
    general path of the sale formula [temp1 - temp2] is nonnegative and the
    divisor [result] is not zero. *)
Theorem fixedExp_lower_bound_keeps_subtractions_safe :
  (forall x p, 0 <= x -> 32 <= p <= 127 -> x + 2 ^ p <= fixedExp x p) /\
  (forall s r c d res p,
     valid_pool s r c -> 0 <= d ->
     power (d + r) r c MAX_CRR = Ok (res, p) ->
     32 <= p <= 127 /\ 2 ^ p <= res /\ 0 <= Z.shiftr (s * res) p - s) /\
  (forall s r c a res p,
     valid_pool s r c -> 0 <= a < s ->
     power s (s - a) MAX_CRR c = Ok (res, p) ->
     32 <= p <= 127 /\ 2 ^ p <= res /\ 0 <= r * res - Z.shiftl r p /\ res <> 0).
Proof.
  split; [|split].
  - intros x p Hx Hp. apply fixedExp_lower; lia.
  - apply purchase_subtraction_safe.
  - apply sale_subtraction_safe.
Qed.

Lemma fixedExp_lower_bound_keeps_subtractions_safe_witness :
  5 + 2 ^ 32 <= fixedExp 5 32.
Proof.
  apply (proj1 fixedExp_lower_bound_keeps_subtractions_safe 5 32); lia.
Defined.

(** Both formulas return nonnegative amounts. *)
Lemma purchase_nonneg s r c d t :
  valid_pool s r c -> 0 <= d ->
  calculatePurchaseReturn s r c d = Ok t -> 0 <= t.
Proof.
  intros Hv Hd H. pose proof Hv as (Hs & Hr & Hc).
  destruct (Z.eq_dec d 0) as [->|Hd0].
  { rewrite (purchase_zero s r c Hv) in H. injection H as <-. lia. }
  destruct (Z.eq_dec c MAX_CRR) as [->|Hc'].
  { rewrite purchase_linear in H by assumption.
    apply bind_Ok in H. destruct H as (m & Hm & H).
    apply safeMul_Ok in Hm. destruct Hm as [-> _].
    apply pydiv_Ok in H. destruct H as [_ ->]. apply Z.div_pos; nia. }
  apply purchase_Ok in H; auto. destruct H as (res & p & _ & Hp & _ & ->).
  eapply purchase_subtraction_safe; eauto.
Qed.

Lemma sale_bounds s r c a t :
  valid_pool s r c -> 0 <= a ->
  calculateSaleReturn s r c a = Ok t -> 0 <= t <= r.
Proof.
  intros Hv Ha0 H. pose proof Hv as (Hs & Hr & Hc).
  assert (Ha : a <= s).
  { unfold calculateSaleReturn in H. apply bind_Ok in H.
    destruct H as (u & Hu & _). apply assert_Ok_inv in Hu.
    rewrite !andb_true_iff in Hu. lia. }
  destruct (Z.eq_dec a 0) as [->|Ha1].
  { rewrite (sale_zero s r c Hv) in H. injection H as <-. lia. }
  destruct (Z.eq_dec a s) as [->|Has].
  { rewrite (sale_all s r c Hv) in H. injection H as <-. lia. }
  destruct (Z.eq_dec c MAX_CRR) as [->|Hc'].
  { rewrite sale_linear in H by lia.
    apply bind_Ok in H. destruct H as (m & Hm & H).
    apply safeMul_Ok in Hm. destruct Hm as [-> _].
    apply pydiv_Ok in H. destruct H as [_ ->]. split.
    - apply Z.div_pos; nia.
    - apply Z.div_le_upper_bound; nia. }
  apply sale_Ok in H; auto; [|lia]. destruct H as (res & p & Hp & _ & _ & ->).
  apply (sale_subtraction_safe s r c a res p Hv ltac:(lia)) in Hp.
  destruct Hp as (Hp & Hres & Hsub & _).
  assert (0 < 2 ^ p) by (apply Z.pow_pos_nonneg; lia).
  assert (0 <= Z.shiftl r p) by (rewrite Z.shiftl_mul_pow2; nia).
  split.
  - apply Z.div_pos; lia.
  - apply Z.div_le_upper_bound; nia.
Qed.

(** ** Monotonicity *)

(** At one precision [power] grows with the ratio of its base. *)
Lemma power_mono n1 d1 n2 d2 eN eD res1 res2 p :
  1 <= d1 -> d1 <= n1 -> 1 <= d2 ->
  n1 * FIXED_1 / d1 <= n2 * FIXED_1 / d2 ->
  0 <= eN -> 0 < eD ->
  power n1 d1 eN eD = Ok (res1, p) -> power n2 d2 eN eD = Ok (res2, p) ->
  res1 <= res2.
Proof.
  intros Hd1 Hn1 Hd2 Hx HeN HeD H1 H2.
  apply power_Ok in H1. destruct H1 as (l1 & Hl1 & _ & Hp1 & ->).
  apply power_Ok in H2. destruct H2 as (l2 & Hl2 & _ & Hp2 & ->).
  apply findPosition_range in Hp1. destruct Hp1 as [Hp _].
  pose proof (ln_nonneg _ _ _ Hd1 Hn1 Hl1) as Hl0.
  pose proof (ln_mono _ _ _ _ _ _ Hd1 Hn1 Hd2 Hx Hl1 Hl2) as Hl.
  apply fixedExp_mono; [|lia]. split.
  - apply (exponent_arg_nonneg l1 eN eD p); assumption.
  - unfold MAX_PRECISION. rewrite !Z.shiftr_div_pow2 by lia.
    apply Z.div_le_mono; [apply Z.pow_pos_nonneg; lia|].
    apply Z.div_le_mono; [assumption | nia].
Qed.

Lemma sale_quotient_mono r K res1 res2 :
  0 <= K -> 0 < res1 -> res1 <= res2 ->
  (r * res1 - K) / res1 <= (r * res2 - K) / res2.
Proof.
  intros HK H1 H12.
  replace (r * res1 - K) with (r * res1 + - K) by lia.
  replace (r * res2 - K) with (r * res2 + - K) by lia.
  rewrite !Z.div_add_l by lia.
  apply Zplus_le_compat_l.
  set (q := - K / res1).
  assert (Hq : q <= 0).
  { apply Z.div_le_upper_bound; lia. }
  pose proof (Z.mul_div_le (- K) res1 H1) as Hm. fold q in Hm.
  apply Z.div_le_lower_bound; [lia | nia].
Qed.

Lemma purchase_mono s r c d1 d2 t1 t2 :
  valid_pool s r c -> 0 <= d1 <= d2 ->
  calculatePurchaseReturn s r c d1 = Ok t1 ->
  calculatePurchaseReturn s r c d2 = Ok t2 ->
  c = MAX_CRR \/ d1 = 0 \/
    same_precision (power (d1 + r) r c MAX_CRR) (power (d2 + r) r c MAX_CRR) ->
  t1 <= t2.
Proof.
  intros Hv Hd H1 H2 Hcase. pose proof Hv as (Hs & Hr & Hc).
  destruct (Z.eq_dec d1 0) as [->|Hd1].
  { rewrite purchase_zero in H1 by assumption. injection H1 as <-.
    apply (purchase_nonneg s r c d2 t2 Hv ltac:(lia) H2). }
  destruct (Z.eq_dec c MAX_CRR) as [->|Hc'].
  { rewrite purchase_linear in H1, H2 by lia.
    rewrite safeMul_small in H1
      by (destruct (safeMul s d1) eqn:E; [now apply safeMul_Ok in E | discriminate]).
    rewrite safeMul_small in H2
      by (destruct (safeMul s d2) eqn:E; [now apply safeMul_Ok in E | discriminate]).
    cbn [bind] in H1, H2. apply pydiv_Ok in H1, H2.
    destruct H1 as [_ ->], H2 as [_ ->]. apply Z.div_le_mono; nia. }
  destruct Hcase as [?|[?|(res1 & res2 & p & P1 & P2)]]; try contradiction.
  apply purchase_Ok in H1; auto. destruct H1 as (res1' & p1 & _ & P1' & _ & ->).
  apply purchase_Ok in H2; auto; [|lia]. destruct H2 as (res2' & p2 & _ & P2' & _ & ->).
  rewrite P1 in P1'. injection P1' as <- <-.
  rewrite P2 in P2'. injection P2' as <- <-.
  assert (Hp : 32 <= p <= 127)
    by (apply (power_result_lower (d1 + r) r c MAX_CRR res1 p);
        unfold MAX_CRR; auto; lia).
  assert (res1 <= res2).
  { apply (power_mono (d1 + r) r (d2 + r) r c MAX_CRR res1 res2 p);
      try (unfold MAX_CRR; lia); auto.
    apply Z.div_le_mono; [lia|]. unfold FIXED_1. nia. }
  rewrite !Z.shiftr_div_pow2 by lia.
  assert (s * res1 / 2 ^ p <= s * res2 / 2 ^ p)
    by (apply Z.div_le_mono; [apply Z.pow_pos_nonneg; lia | nia]).
  lia.
Qed.

Lemma sale_mono s r c a1 a2 t1 t2 :
  valid_pool s r c -> 0 <= a1 <= a2 ->
  calculateSaleReturn s r c a1 = Ok t1 ->
  calculateSaleReturn s r c a2 = Ok t2 ->
  c = MAX_CRR \/ a1 = 0 \/ a2 = s \/
    same_precision (power s (s - a1) MAX_CRR c) (power s (s - a2) MAX_CRR c) ->
  t1 <= t2.
Proof.
  intros Hv Ha H1 H2 Hcase. pose proof Hv as (Hs & Hr & Hc).
  assert (Ha2 : a2 <= s).
  { unfold calculateSaleReturn in H2. apply bind_Ok in H2.
    destruct H2 as (u & Hu & _). apply assert_Ok_inv in Hu.
    rewrite !andb_true_iff in Hu. lia. }
  destruct (Z.eq_dec a1 0) as [->|Ha1].
  { rewrite sale_zero in H1 by assumption. injection H1 as <-.
    pose proof (sale_bounds s r c a2 t2 Hv ltac:(lia) H2). lia. }
  destruct (Z.eq_dec a2 s) as [->|Ha2s].
  { rewrite sale_all in H2 by assumption. injection H2 as <-.
    pose proof (sale_bounds s r c a1 t1 Hv ltac:(lia) H1). lia. }
  destruct (Z.eq_dec c MAX_CRR) as [->|Hc'].
  { rewrite sale_linear in H1, H2 by lia.
    rewrite safeMul_small in H1
      by (destruct (safeMul r a1) eqn:E; [now apply safeMul_Ok in E | discriminate]).
    rewrite safeMul_small in H2
      by (destruct (safeMul r a2) eqn:E; [now apply safeMul_Ok in E | discriminate]).
    cbn [bind] in H1, H2. apply pydiv_Ok in H1, H2.
    destruct H1 as [_ ->], H2 as [_ ->]. apply Z.div_le_mono; nia. }
  destruct Hcase as [?|[?|[?|(res1 & res2 & p & P1 & P2)]]]; try contradiction.
  apply sale_Ok in H1; auto; try lia.
  destruct H1 as (res1' & p1 & P1' & _ & _ & ->).
  apply sale_Ok in H2; auto; try lia.
  destruct H2 as (res2' & p2 & P2' & _ & _ & ->).
  rewrite P1 in P1'. injection P1' as <- <-.
  rewrite P2 in P2'. injection P2' as <- <-.
  destruct (sale_subtraction_safe s r c a1 res1 p Hv ltac:(lia) P1)
    as (Hp & Hres1 & _ & _).
  assert (0 < 2 ^ p) by (apply Z.pow_pos_nonneg; lia).
  assert (res1 <= res2).
  { apply (power_mono s (s - a1) s (s - a2) MAX_CRR c res1 res2 p);
      try (unfold MAX_CRR; lia); auto.
    apply Z.div_le_compat_l; [unfold FIXED_1; nia | lia]. }
  rewrite !Z.shiftl_mul_pow2 by lia.
  apply sale_quotient_mono; nia.
Qed.

Lemma purchase_drops_at_precision_change :
  let d := 12832681872683457951539608429327601366 in
  calculatePurchaseReturn (2 ^ 125) (2 ^ 120) 500000 d =
    Ok 96303433748249790970343707875371524850 /\
  calculatePurchaseReturn (2 ^ 125) (2 ^ 120) 500000 (d + 1) =
    Ok 96303433748249790970343707875371524848.
Proof. split; vm_compute; reflexivity. Qed.

Lemma sale_drops_at_precision_change :
  let a := 207266505146117373126384590951789606359 in
  calculateSaleReturn (2 ^ 128) (2 ^ 126) 700000 a =
    Ok 62836790359728735555128765241377227413 /\
  calculateSaleReturn (2 ^ 128) (2 ^ 126) 700000 (a + 1) =
    Ok 62836790359728735555128765241377227411.
Proof. split; vm_compute; reflexivity. Qed.

(** C2, counterexample: with supply 2^125, reserve 2^120 and reserve ratio
    500000, one more unit of deposit moves [power] from precision 124 to
    precision 123 and the purchase return drops by 2; the sale return drops
    in the same way (supply 2^128, reserve 2^126, ratio 700000, precision
    121 to 120). *)
Lemma returns_not_monotone :
  ~ returns_monotone (2 ^ 125) (2 ^ 120) 500000 /\
  ~ returns_monotone (2 ^ 128) (2 ^ 126) 700000.
Proof.
  split; intros [Hp Hs].
  - destruct purchase_drops_at_precision_change as [E1 E2].
    pose proof (fun h => Hp _ _ _ _ h E1 E2) as H.
    specialize (H ltac:(lia)). lia.
  - destruct sale_drops_at_precision_change as [E1 E2].
    pose proof (fun h => Hs _ _ _ _ h E1 E2) as H.
    specialize (H ltac:(lia)). lia.
Qed.

(** C2, amended: for a valid pool state and amounts [d1 <= d2] on which both
    calls succeed, the purchase return is non-decreasing when the reserve
    ratio is 1000000, or [d1] is 0, or [power] selects the same precision in
    both calls; the sale return is non-decreasing under the same conditions
    and also when the larger amount is the whole supply. *)
Theorem returns_monotone_at_one_precision s r c :
  valid_pool s r c ->
  (forall d1 d2 t1 t2,
     0 <= d1 <= d2 ->
     calculatePurchaseReturn s r c d1 = Ok t1 ->
     calculatePurchaseReturn s r c d2 = Ok t2 ->
     c = MAX_CRR \/ d1 = 0 \/
       same_precision (power (d1 + r) r c MAX_CRR) (power (d2 + r) r c MAX_CRR) ->
     t1 <= t2) /\
  (forall a1 a2 t1 t2,
     0 <= a1 <= a2 ->
     calculateSaleReturn s r c a1 = Ok t1 ->
     calculateSaleReturn s r c a2 = Ok t2 ->
     c = MAX_CRR \/ a1 = 0 \/ a2 = s \/
       same_precision (power s (s - a1) MAX_CRR c) (power s (s - a2) MAX_CRR c) ->
     t1 <= t2).
Proof.
  intros Hv. split.
  - intros d1 d2 t1 t2. now apply purchase_mono.
  - intros a1 a2 t1 t2. now apply sale_mono.
Qed.

Lemma returns_monotone_at_one_precision_witness : 189 <= 359.
Proof.
  assert (Hv : valid_pool 1000 1000 500000) by (unfold valid_pool, MAX_CRR; lia).
  apply (proj2 (returns_monotone_at_one_precision 1000 1000 500000 Hv) 100 200).
  - lia.
  - vm_compute. reflexivity.
  - vm_compute. reflexivity.
  - right. right. right.
    do 3 eexists. split; vm_compute; reflexivity.
Defined.

(** * The real-valued side *)

Section RealFacts.
#[local] Open Scope R_scope.

Lemma exp_le x y : x <= y -> exp x <= exp y.
Proof.
  intros [H| ->]; [left; now apply exp_increasing | right; reflexivity].
Qed.

Lemma Rln_le x y : 0 < x -> x <= y -> Rln x <= Rln y.
Proof.
  intros Hx [H| ->]; [left; now apply ln_increasing | right; reflexivity].
Qed.

Lemma Rln_nonneg x : 1 <= x -> 0 <= Rln x.
Proof. intros H. rewrite <- ln_1. apply Rln_le; lra. Qed.

Lemma Rln_le_sub1 z : 0 < z -> Rln z <= z - 1.
Proof.
  intros Hz. pose proof (exp_ineq1_le (Rln z)) as H.
  rewrite exp_ln in H by assumption. lra.
Qed.

Lemma Rln_div x y : 0 < x -> 0 < y -> Rln (x / y) = Rln x - Rln y.
Proof.
  intros Hx Hy. unfold Rdiv.
  rewrite ln_mult by (auto using Rinv_0_lt_compat).
  rewrite ln_Rinv by assumption. lra.
Qed.

(** Weighted mean inequality: [y^a <= 1 + a (y - 1)] for [0 <= a <= 1]. *)
Lemma exp_weighted_mean a y :
  0 <= a <= 1 -> 0 < y -> exp (a * Rln y) <= 1 + a * (y - 1).
Proof.
  intros Ha Hy. set (m := 1 + a * (y - 1)).
  assert (Hm : 0 < m) by (unfold m; nra).
  rewrite <- (exp_ln m Hm). apply exp_le.
  pose proof (Rln_le_sub1 (y / m) ltac:(now apply Rdiv_lt_0_compat)) as H1.
  pose proof (Rln_le_sub1 (/ m) ltac:(now apply Rinv_0_lt_compat)) as H2.
  rewrite Rln_div in H1 by assumption. rewrite ln_Rinv in H2 by assumption.
  assert (E : a * (y / m - 1) + (1 - a) * (/ m - 1) = 0).
  { unfold m. field. fold m. lra. }
  assert (a * (Rln y - Rln m) <= a * (y / m - 1))
    by (apply Rmult_le_compat_l; lra).
  assert ((1 - a) * (- Rln m) <= (1 - a) * (/ m - 1))
    by (apply Rmult_le_compat_l; lra).
  lra.
Qed.

(** *** Partial sums of the exponential series *)

Lemma E1_S x N : E1 x (S N) = E1 x N + / INR (fact (S N)) * x ^ S N.
Proof. reflexivity. Qed.

Lemma E1_0 x : E1 x 0 = 1.
Proof. unfold E1. simpl. field. Qed.

Lemma E1_lower x N : 0 <= x -> E1 x N <= exp x.
Proof.
  intros Hx. apply (growing_ineq (E1 x)); [|apply E1_cvg].
  intros n. rewrite E1_S.
  assert (0 <= / INR (fact (S n)) * x ^ S n).
  { apply Rmult_le_pos; [|now apply pow_le].
    left. apply Rinv_0_lt_compat, INR_fact_lt_0. }
  lra.
Qed.

Lemma pow_even_nonneg x j : 0 <= x ^ (2 * j).
Proof. rewrite pow_mult. apply pow_le. nra. Qed.

(** For [0 <= q <= 1] the odd partial sums at [-q] grow. *)
Lemma E1_odd_lower q m : 0 <= q <= 1 -> E1 (- q) (S (2 * m)) <= exp (- q).
Proof.
  intros Hq.
  apply (growing_ineq (fun m => E1 (- q) (S (2 * m)))).
  - intros n. replace (2 * S n)%nat with (S (S (2 * n))) by lia.
    rewrite (E1_S _ (S (S (2 * n)))), (E1_S _ (S (2 * n))).
    set (k := S (2 * n)).
    assert (Hk : 0 <= (- q) ^ S k).
    { unfold k. replace (S (S (2 * n))) with (2 * S n)%nat by lia.
      apply pow_even_nonneg. }
    assert (Hf : INR (fact (S (S k))) = INR (S (S k)) * INR (fact (S k))).
    { rewrite <- mult_INR. reflexivity. }
    assert (Hk2 : 2 <= INR (S (S k))).
    { rewrite !S_INR. pose proof (pos_INR k). lra. }
    assert (Hfp := INR_fact_lt_0 (S k)).
    rewrite Hf. rewrite <- (tech_pow_Rmult (- q) (S k)).
    rewrite Rinv_mult.
    set (t := / INR (fact (S k)) * (- q) ^ S k).
    assert (Ht : 0 <= t).
    { unfold t. apply Rmult_le_pos; [|assumption].
      left. now apply Rinv_0_lt_compat. }
    replace (/ INR (S (S k)) * / INR (fact (S k)) * (- q * (- q) ^ S k))
      with (t * (- q * / INR (S (S k)))) by (unfold t; ring).
    assert (0 <= / INR (S (S k)) <= / 2).
    { split; [left; apply Rinv_0_lt_compat; lra|].
      apply Rinv_le_contravar; lra. }
    assert (0 <= t * (1 + - q * / INR (S (S k)))) by (apply Rmult_le_pos; nra).
    lra.
  - intros eps Heps. destruct (E1_cvg (- q) eps Heps) as [N HN].
    exists N. intros n Hn. apply HN. lia.
Qed.
End RealFacts.

(** *** Partial sums at a rational point, computed in [Z] *)

Lemma IZR_Zfact n : IZR (Zfact n) = INR (fact n).
Proof.
  induction n as [|n IH]; [reflexivity|].
  change (Zfact (S n)) with (Z.of_nat (S n) * Zfact n).
  change (fact (S n)) with (S n * fact n)%nat.
  now rewrite mult_IZR, mult_INR, IH, <- INR_IZR_INZ.
Qed.

Lemma Zfact_pos n : 0 < Zfact n.
Proof.
  induction n as [|n IH]; [reflexivity|].
  change (Zfact (S n)) with (Z.of_nat (S n) * Zfact n). lia.
Qed.

Lemma exp_sum_num_spec A B N :
  B <> 0 ->
  IZR (exp_sum_num A B N) =
    (E1 (IZR A / IZR B) N * IZR B ^ N * INR (fact N))%R.
Proof.
  intros HB. assert (HB' : IZR B <> 0%R) by (now apply not_0_IZR).
  induction N as [|N IH].
  - rewrite E1_0. simpl. ring.
  - change (exp_sum_num A B (S N))
      with (Z.of_nat (S N) * B * exp_sum_num A B N + A ^ Z.of_nat (S N)).
    rewrite plus_IZR, !mult_IZR, IH, <- pow_IZR, <- INR_IZR_INZ, E1_S.
    change (fact (S N)) with (S N * fact N)%nat. rewrite mult_INR.
    assert (HS : INR (S N) <> 0%R) by (apply not_0_INR; lia).
    assert (HF := INR_fact_neq_0 N).
    unfold Rdiv. rewrite (Rpow_mult_distr (IZR A)), pow_inv.
    rewrite <- (tech_pow_Rmult (IZR B) N).
    assert (HP : (IZR B ^ N <> 0)%R) by (now apply pow_nonzero).
    set (bn := (IZR B ^ N)%R) in *. set (e := E1 _ N).
    rewrite <- tech_pow_Rmult. fold bn. field. auto.
Qed.

Lemma exp_sum_num_half A B N :
  0 < B ->
  Zfact N * B ^ Z.of_nat N <= 2 * exp_sum_num A B N ->
  (/ 2 <= E1 (IZR A / IZR B) N)%R.
Proof.
  intros HB H. apply IZR_le in H.
  rewrite !mult_IZR, exp_sum_num_spec, IZR_Zfact, <- pow_IZR in H by lia.
  assert (HB' : (0 < IZR B)%R) by (now apply IZR_lt).
  assert (HP : (0 < IZR B ^ N * INR (fact N))%R).
  { apply Rmult_lt_0_compat; [now apply pow_lt | apply INR_fact_lt_0]. }
  set (e := E1 _ N) in *.
  set (f := INR (fact N)) in *. set (bn := (IZR B ^ N)%R) in *.
  assert (1 <= 2 * e)%R; [|lra].
  apply Rmult_le_reg_r with (bn * f)%R; [assumption|]. lra.
Qed.

(** *** A lower bound of [ln 2] to 127 binary places *)

Lemma exp_sum_at_ln2_below :
  Zfact 33 * FIXED_1 ^ Z.of_nat 33 <= 2 * exp_sum_num (- ln2_below) FIXED_1 33.
Proof. vm_compute. discriminate. Qed.

Lemma exp_le_2_ln q : (0 <= q <= 1)%R -> forall m,
  (/ 2 <= E1 (- q) (S (2 * m)))%R -> (q <= Rln 2)%R.
Proof.
  intros Hq m Hsum.
  pose proof (E1_odd_lower q m Hq) as Hlow.
  rewrite exp_Ropp in Hlow.
  assert (Hexp : (exp q <= 2)%R).
  { pose proof (exp_pos q) as Hp.
    assert (H2 : (/ 2 <= / exp q)%R) by lra.
    apply Rinv_le_contravar in H2; [|lra].
    rewrite !Rinv_inv in H2. exact H2. }
  rewrite <- (ln_exp q). apply Rln_le; [apply exp_pos | assumption].
Qed.

Lemma ln2_lower : (IZR ln2_below / IZR FIXED_1 <= Rln 2)%R.
Proof.
  assert (HF : (0 < IZR FIXED_1)%R) by (apply IZR_lt; reflexivity).
  apply (exp_le_2_ln _) with (m := 16%nat).
  - split.
    + apply Rmult_le_pos; [apply IZR_le; discriminate|].
      left. now apply Rinv_0_lt_compat.
    + apply Rmult_le_reg_r with (IZR FIXED_1); [assumption|].
      unfold Rdiv. rewrite Rmult_assoc, Rinv_l, Rmult_1_r, Rmult_1_l by lra.
      apply IZR_le. discriminate.
  - replace (- (IZR ln2_below / IZR FIXED_1))%R
      with (IZR (- ln2_below) / IZR FIXED_1)%R
      by (rewrite opp_IZR; unfold Rdiv; ring).
    apply exp_sum_num_half; [reflexivity|].
    exact exp_sum_at_ln2_below.
Qed.

(** ** [ln] is a lower approximation of the natural logarithm *)

Lemma IZR_div_le a b : 0 < b -> (IZR (a / b) <= IZR a / IZR b)%R.
Proof.
  intros Hb. assert (Hb' : (0 < IZR b)%R) by (now apply IZR_lt).
  apply Rmult_le_reg_r with (IZR b); [assumption|].
  unfold Rdiv. rewrite Rmult_assoc, Rinv_l, Rmult_1_r by lra.
  rewrite <- mult_IZR. apply IZR_le.
  pose proof (Z.mul_div_le a b Hb). lia.
Qed.

Lemma IZR_shiftr_le a n :
  0 <= n -> (IZR (Z.shiftr a n) <= IZR a / 2 ^ Z.to_nat n)%R.
Proof.
  intros Hn. rewrite Z.shiftr_div_pow2 by assumption.
  replace (2 ^ Z.to_nat n)%R with (IZR (2 ^ n)).
  - apply IZR_div_le, Z.pow_pos_nonneg; lia.
  - rewrite <- (Z2Nat.id n) at 1 by assumption. now rewrite <- pow_IZR.
Qed.

Lemma IZR_FIXED_1_pos : (0 < IZR FIXED_1)%R.
Proof. apply IZR_lt. reflexivity. Qed.

Lemma fixed_value_pos x : 0 < x -> (0 < fixed_value x)%R.
Proof.
  intros Hx. apply Rdiv_lt_0_compat; [now apply IZR_lt | apply IZR_FIXED_1_pos].
Qed.

Lemma fixed_ln_nonneg x : FIXED_1 <= x -> (0 <= fixed_ln x)%R.
Proof.
  intros Hx. apply Rln_nonneg. unfold fixed_value.
  pose proof IZR_FIXED_1_pos as HF. apply IZR_le in Hx.
  apply Rmult_le_reg_r with (IZR FIXED_1); [assumption|].
  unfold Rdiv. rewrite Rmult_assoc, Rinv_l, Rmult_1_r by lra. lra.
Qed.

Lemma fixed_ln_square x :
  0 < x -> FIXED_1 <= x * x / FIXED_1 ->
  (fixed_ln (x * x / FIXED_1) <= 2 * fixed_ln x)%R.
Proof.
  intros Hx Hy. unfold fixed_ln.
  pose proof IZR_FIXED_1_pos as HF.
  pose proof (fixed_value_pos x Hx) as Hv.
  replace (2 * Rln (fixed_value x))%R with (Rln (fixed_value x * fixed_value x))
    by (rewrite ln_mult by assumption; ring).
  apply Rln_le.
  - apply fixed_value_pos. unfold FIXED_1 in *. lia.
  - unfold fixed_value.
    pose proof (IZR_div_le (x * x) FIXED_1 ltac:(reflexivity)) as H.
    rewrite mult_IZR in H.
    apply Rmult_le_reg_r with (IZR FIXED_1); [assumption|].
    replace (IZR x / IZR FIXED_1 * (IZR x / IZR FIXED_1) * IZR FIXED_1)%R
      with (IZR x * IZR x / IZR FIXED_1)%R by (field; lra).
    unfold Rdiv at 1. rewrite Rmult_assoc, Rinv_l, Rmult_1_r by lra. exact H.
Qed.

Lemma fixed_ln_shiftr y c :
  0 <= c -> 0 < Z.shiftr y c ->
  (fixed_ln (Z.shiftr y c) + IZR c * Rln 2 <= fixed_ln y)%R.
Proof.
  intros Hc Hpos. unfold fixed_ln.
  pose proof IZR_FIXED_1_pos as HF.
  pose proof (fixed_value_pos _ Hpos) as Hv.
  assert (Hp : (0 < 2 ^ Z.to_nat c)%R) by (apply pow_lt; lra).
  replace (IZR c * Rln 2)%R with (Rln (2 ^ Z.to_nat c)).
  2:{ rewrite ln_pow by lra. rewrite INR_IZR_INZ, Z2Nat.id by assumption. ring. }
  rewrite <- ln_mult by assumption.
  apply Rln_le; [now apply Rmult_lt_0_compat|].
  pose proof (IZR_shiftr_le y c Hc) as H. unfold fixed_value.
  apply Rmult_le_reg_r with (IZR FIXED_1 * / 2 ^ Z.to_nat c)%R.
  - apply Rmult_lt_0_compat; [assumption | now apply Rinv_0_lt_compat].
  - replace (IZR (Z.shiftr y c) / IZR FIXED_1 * 2 ^ Z.to_nat c *
               (IZR FIXED_1 * / 2 ^ Z.to_nat c))%R
      with (IZR (Z.shiftr y c)) by (field; lra).
    replace (IZR y / IZR FIXED_1 * (IZR FIXED_1 * / 2 ^ Z.to_nat c))%R
      with (IZR y / 2 ^ Z.to_nat c)%R by (field; lra).
    exact H.
Qed.

Lemma ln_loop_real i x res :
  FIXED_1 <= x < FIXED_2 ->
  (IZR (snd (ln_loop i x res)) * Rln 2 + fixed_ln (fst (ln_loop i x res))
   <= IZR res * Rln 2 + 2 ^ i * fixed_ln x)%R.
Proof.
  revert x res. induction i as [|j IH]; intros x res Hx.
  - simpl. lra.
  - cbn [ln_loop]. pose proof (square_range x Hx) as Hy.
    pose proof (fixed_ln_square x ltac:(unfold FIXED_1 in *; lia) (proj1 Hy)) as Hsq.
    set (y := x * x / FIXED_1) in *.
    replace (Z.of_nat (S j) - 1) with (Z.of_nat j) by lia.
    unfold ONE. rewrite Z.shiftl_1_l.
    assert (Hpj : (0 < 2 ^ j)%R) by (apply pow_lt; lra).
    rewrite <- tech_pow_Rmult.
    destruct (Z.geb_spec y FIXED_2) as [Hge|Hlt].
    + pose proof (halve_range y ltac:(lia)) as Hh.
      specialize (IH (Z.shiftr y 1) (res + 2 ^ Z.of_nat j) Hh).
      pose proof (fixed_ln_shiftr y 1 ltac:(lia)
                    ltac:(unfold FIXED_1 in *; lia)) as Hs.
      rewrite plus_IZR, <- pow_IZR in IH.
      assert ((2 ^ j * fixed_ln (Z.shiftr y 1) <= 2 ^ j * (fixed_ln y - Rln 2))%R)
        by (apply Rmult_le_compat_l; lra).
      assert ((2 ^ j * fixed_ln y <= 2 ^ j * (2 * fixed_ln x))%R)
        by (apply Rmult_le_compat_l; lra).
      lra.
    + specialize (IH y res ltac:(lia)).
      assert ((2 ^ j * fixed_ln y <= 2 ^ j * (2 * fixed_ln x))%R)
        by (apply Rmult_le_compat_l; lra).
      lra.
Qed.

(** The accumulated base-2 logarithm, times ln 2, is below the logarithm of
    the ratio. *)
Lemma log2_fixed_real x :
  FIXED_1 <= x < 2 ^ 256 ->
  (IZR (log2_fixed x) * Rln 2 <= IZR FIXED_1 * fixed_ln x)%R.
Proof.
  intros Hx. destruct (ln_int_spec x Hx) as (E & Hc & Hr).
  set (c := Z.log2 (x / FIXED_1)) in *.
  unfold log2_fixed. rewrite E, ln_frac_loop by assumption.
  pose proof (ln_loop_real (Z.to_nat MAX_PRECISION) _ (c * FIXED_1) Hr) as H.
  pose proof (ln_loop_bounds (Z.to_nat MAX_PRECISION) _ (c * FIXED_1) Hr) as B.
  destruct (ln_loop _ _ _) as [x' res']. cbn [fst snd] in *.
  pose proof (fixed_ln_nonneg x' ltac:(lia)) as Hx'.
  pose proof (fixed_ln_shiftr x c Hc ltac:(unfold FIXED_1 in *; lia)) as Hs.
  replace (2 ^ Z.to_nat MAX_PRECISION)%R with (IZR FIXED_1) in H
    by (change FIXED_1 with (2 ^ Z.of_nat (Z.to_nat MAX_PRECISION));
        now rewrite <- pow_IZR).
  rewrite mult_IZR in H.
  pose proof IZR_FIXED_1_pos as HF.
  assert ((IZR FIXED_1 * (fixed_ln (Z.shiftr x c) + IZR c * Rln 2)
           <= IZR FIXED_1 * fixed_ln x)%R)
    by (apply Rmult_le_compat_l; lra).
  lra.
Qed.

Lemma ln_scale_real res :
  0 <= res -> (IZR (ln_scale res) <= IZR res * Rln 2)%R.
Proof.
  intros Hres. unfold ln_scale.
  pose proof (IZR_div_le (res * LN2_MANTISSA) (2 ^ LN2_EXPONENT) ltac:(reflexivity)) as H.
  rewrite <- Z.shiftr_div_pow2 in H by discriminate.
  eapply Rle_trans; [exact H|].
  rewrite mult_IZR. unfold Rdiv. rewrite Rmult_assoc.
  apply Rmult_le_compat_l; [now apply IZR_le|].
  eapply Rle_trans; [|exact ln2_lower].
  pose proof IZR_FIXED_1_pos as HF.
  assert (HP : (0 < IZR (2 ^ LN2_EXPONENT))%R) by (apply IZR_lt; reflexivity).
  apply Rmult_le_reg_r with (IZR (2 ^ LN2_EXPONENT) * IZR FIXED_1)%R;
    [now apply Rmult_lt_0_compat|].
  replace (IZR LN2_MANTISSA * / IZR (2 ^ LN2_EXPONENT) *
             (IZR (2 ^ LN2_EXPONENT) * IZR FIXED_1))%R
    with (IZR LN2_MANTISSA * IZR FIXED_1)%R by (field; lra).
  replace (IZR ln2_below / IZR FIXED_1 * (IZR (2 ^ LN2_EXPONENT) * IZR FIXED_1))%R
    with (IZR ln2_below * IZR (2 ^ LN2_EXPONENT))%R by (field; lra).
  rewrite <- !mult_IZR. apply IZR_le. vm_compute. discriminate.
Qed.

(** The result of [ln], read with 127 fractional bits, never exceeds the
    natural logarithm of [n / d]. *)
Lemma ln_upper n d l :
  1 <= d -> d <= n -> ln n d = Ok l ->
  (IZR l <= IZR FIXED_1 * Rln (IZR n / IZR d))%R.
Proof.
  intros Hd Hdn H. apply ln_Ok in H. destruct H as (Hn & _ & ->).
  pose proof (ratio_range n d Hd Hdn Hn) as Hx.
  set (x := n * FIXED_1 / d) in *.
  pose proof (log2_fixed_nonneg x Hx) as H0.
  eapply Rle_trans; [apply ln_scale_real; assumption|].
  eapply Rle_trans; [apply log2_fixed_real; assumption|].
  pose proof IZR_FIXED_1_pos as HF.
  apply Rmult_le_compat_l; [lra|].
  unfold fixed_ln. apply Rln_le.
  - apply fixed_value_pos. unfold FIXED_1 in *. lia.
  - unfold fixed_value, x.
    assert (Hd' : (0 < IZR d)%R) by (apply IZR_lt; lia).
    pose proof (IZR_div_le (n * FIXED_1) d ltac:(lia)) as H.
    rewrite mult_IZR in H.
    apply Rmult_le_reg_r with (IZR FIXED_1); [assumption|].
    unfold Rdiv at 1. rewrite Rmult_assoc, Rinv_l, Rmult_1_r by lra.
    eapply Rle_trans; [exact H|]. right. field. lra.
Qed.

(** ** [fixedExp] is a lower approximation of the exponential *)

Lemma fixedExp_coefficients_factorials : coeffs_from 1 fixedExp_coefficients.
Proof. vm_compute. repeat split. Qed.

Lemma fixedExp_divisor_factorial : fixedExp_divisor = Zfact 33.
Proof. reflexivity. Qed.

Section FixedExpReal.
Variables x p : Z.
Hypothesis Hx : 0 <= x.
Hypothesis Hp : 0 <= p.

Let P : R := (2 ^ Z.to_nat p)%R.
Let y : R := (IZR x / P)%R.
Let F : R := IZR (Zfact 33).

Lemma fixedExp_scale_pos : (0 < P)%R.
Proof. apply pow_lt. lra. Qed.

Lemma fixedExp_arg_nonneg : (0 <= y)%R.
Proof.
  apply Rmult_le_pos; [now apply IZR_le|].
  left. apply Rinv_0_lt_compat, fixedExp_scale_pos.
Qed.

Lemma fixedExp_fold_real cs : forall k xi res,
  coeffs_from k cs -> 0 <= xi ->
  (IZR xi <= P * y ^ k)%R ->
  (IZR res <= F * P * (E1 y k - 1 - y))%R ->
  (IZR (snd (fold_left (fixedExp_step x p) cs (xi, res)))
   <= F * P * (E1 y (k + length cs) - 1 - y))%R.
Proof.
  pose proof fixedExp_scale_pos as HP. pose proof fixedExp_arg_nonneg as Hy.
  assert (HF : (0 < F)%R) by (apply IZR_lt, Zfact_pos).
  induction cs as [|c cs IH]; intros k xi res Hcs Hxi Bxi Bres.
  - simpl. now rewrite Nat.add_0_r.
  - destruct Hcs as [Hc Hcs]. cbn [fold_left fixedExp_step length].
    replace (k + S (length cs))%nat with (S k + length cs)%nat by lia.
    set (xi' := Z.shiftr (xi * x) p).
    assert (Hxi' : 0 <= xi') by (apply Z.shiftr_nonneg; nia).
    assert (Bxi' : (IZR xi' <= P * y ^ S k)%R).
    { eapply Rle_trans; [apply IZR_shiftr_le; assumption|]. fold P.
      rewrite mult_IZR, <- tech_pow_Rmult.
      replace (IZR xi * IZR x / P)%R with (IZR xi * y)%R by (unfold y; field; lra).
      replace (P * (y * y ^ k))%R with (P * y ^ k * y)%R by ring.
      now apply Rmult_le_compat_r. }
    apply IH; try assumption.
    rewrite plus_IZR, mult_IZR, E1_S.
    pose proof (Zfact_pos (S k)) as Hfk.
    pose proof (Zfact_pos 33) as Hf33.
    assert (Hc0 : 0 <= c) by nia.
    assert (HcR : (IZR c = F * / INR (fact (S k)))%R).
    { unfold F. rewrite <- Hc, mult_IZR, IZR_Zfact. field.
      apply INR_fact_neq_0. }
    assert ((IZR xi' * IZR c <= P * y ^ S k * IZR c)%R)
      by (apply Rmult_le_compat_r; [now apply IZR_le | assumption]).
    rewrite HcR in H.
    replace (F * P * (E1 y k + / INR (fact (S k)) * y ^ S k - 1 - y))%R
      with (F * P * (E1 y k - 1 - y) + P * y ^ S k * (F * / INR (fact (S k))))%R
      by ring.
    rewrite HcR. lra.
Qed.

Lemma fixedExp_upper : (IZR (fixedExp x p) <= P * exp y)%R.
Proof.
  pose proof fixedExp_scale_pos as HP. pose proof fixedExp_arg_nonneg as Hy.
  assert (HF : (0 < F)%R) by (apply IZR_lt, Zfact_pos).
  rewrite fixedExp_fold.
  pose proof (fixedExp_fold_real fixedExp_coefficients 1 x 0
                fixedExp_coefficients_factorials Hx) as H.
  change (1 + length fixedExp_coefficients)%nat with 33%nat in H.
  assert (E11 : E1 y 1 = (1 + y)%R).
  { rewrite E1_S, E1_0. simpl. field. }
  specialize (H ltac:(unfold y; right; field; lra)
                ltac:(rewrite E11; right; simpl; ring)).
  pose proof (fixedExp_fold_nonneg x p fixedExp_coefficients x 0 Hx
                fixedExp_coefficients_nonneg Hx ltac:(lia)) as H0.
  set (res := snd (fold_left _ _ _)) in *.
  pose proof (IZR_div_le res fixedExp_divisor ltac:(reflexivity)) as Hd.
  rewrite fixedExp_divisor_factorial in Hd. fold F in Hd.
  rewrite !plus_IZR. unfold ONE. rewrite Z.shiftl_1_l.
  replace (IZR (2 ^ p)) with P
    by (unfold P; rewrite <- (Z2Nat.id p) at 2 by assumption;
        now rewrite <- pow_IZR).
  pose proof (E1_lower y 33 Hy) as He.
  assert (Hq : (IZR res / F <= P * (E1 y 33 - 1 - y))%R).
  { apply Rmult_le_reg_r with F; [assumption|].
    unfold Rdiv. rewrite Rmult_assoc, Rinv_l, Rmult_1_r by lra. lra. }
  assert (Hxy : IZR x = (P * y)%R) by (unfold y; field; lra).
  assert ((P * E1 y 33 <= P * exp y)%R) by (apply Rmult_le_compat_l; lra).
  rewrite fixedExp_divisor_factorial. fold F. lra.
Qed.
End FixedExpReal.

(** ** [power] is a lower approximation of the real power *)

Lemma scale_pos p : (0 < scale p)%R.
Proof. apply pow_lt. lra. Qed.

Lemma scale_IZR p : 0 <= p -> scale p = IZR (2 ^ p).
Proof.
  intros Hp. unfold scale. rewrite <- (Z2Nat.id p) at 2 by assumption.
  now rewrite <- pow_IZR.
Qed.

Lemma scale_split p :
  0 <= p <= MAX_PRECISION ->
  (scale (MAX_PRECISION - p) * scale p = IZR FIXED_1)%R.
Proof.
  intros Hp. unfold scale. rewrite <- pow_add.
  replace (Z.to_nat (MAX_PRECISION - p) + Z.to_nat p)%nat
    with (Z.to_nat MAX_PRECISION) by lia.
  change FIXED_1 with (2 ^ Z.of_nat (Z.to_nat MAX_PRECISION)).
  now rewrite <- pow_IZR.
Qed.

Lemma power_upper bN bD eN eD res p :
  1 <= bD -> bD <= bN -> 0 <= eN -> 0 < eD ->
  power bN bD eN eD = Ok (res, p) ->
  (IZR res <= scale p * real_power bN bD eN eD)%R.
Proof.
  intros HbD HbN HeN HeD H.
  apply power_Ok in H. destruct H as (l & Hl & _ & Hp & ->).
  apply findPosition_range in Hp. destruct Hp as [Hp _].
  pose proof (ln_nonneg _ _ _ HbD HbN Hl) as Hl0.
  pose proof (ln_upper _ _ _ HbD HbN Hl) as Hlu.
  pose proof (exponent_arg_nonneg l eN eD p Hl0 HeN HeD) as Hx.
  unfold exponent_arg in Hx.
  eapply Rle_trans; [apply fixedExp_upper; [assumption | lia]|].
  fold (scale p). pose proof (scale_pos p) as HP.
  pose proof (scale_pos (MAX_PRECISION - p)) as HQ.
  pose proof (scale_split p ltac:(unfold MAX_PRECISION; lia)) as HS.
  pose proof IZR_FIXED_1_pos as HF.
  assert (HeD' : (0 < IZR eD)%R) by (now apply IZR_lt).
  assert (HeN' : (0 <= IZR eN)%R) by (now apply IZR_le).
  apply Rmult_le_compat_l; [lra|]. unfold real_power, Rpower.
  apply exp_le.
  set (L := Rln (IZR bN / IZR bD)) in *.
  set (q := l * eN / eD) in *.
  pose proof (IZR_shiftr_le q (MAX_PRECISION - p) ltac:(unfold MAX_PRECISION; lia)) as H1.
  fold (scale (MAX_PRECISION - p)) in H1.
  pose proof (IZR_div_le (l * eN) eD HeD) as H2. fold q in H2.
  rewrite mult_IZR in H2.
  set (xa := Z.shiftr q (MAX_PRECISION - p)) in *.
  (* xa / 2^p <= q / 2^127 <= l * eN / (eD * 2^127) <= eN / eD * L *)
  apply Rmult_le_reg_r with (scale p * scale (MAX_PRECISION - p) * IZR eD)%R.
  { repeat apply Rmult_lt_0_compat; assumption. }
  replace (IZR xa / scale p * (scale p * scale (MAX_PRECISION - p) * IZR eD))%R
    with (IZR xa * scale (MAX_PRECISION - p) * IZR eD)%R by (field; lra).
  replace (IZR eN / IZR eD * L * (scale p * scale (MAX_PRECISION - p) * IZR eD))%R
    with (IZR eN * (IZR FIXED_1 * L))%R by (rewrite <- HS; field; lra).
  assert (H3 : (IZR xa * scale (MAX_PRECISION - p) <= IZR q)%R).
  { apply Rmult_le_reg_r with (/ scale (MAX_PRECISION - p))%R;
      [now apply Rinv_0_lt_compat|].
    rewrite Rmult_assoc, Rinv_r, Rmult_1_r by lra. exact H1. }
  assert (H4 : (IZR q * IZR eD <= IZR l * IZR eN)%R).
  { apply Rmult_le_reg_r with (/ IZR eD)%R; [now apply Rinv_0_lt_compat|].
    rewrite Rmult_assoc, Rinv_r, Rmult_1_r by lra. exact H2. }
  assert (H5 : (IZR xa * scale (MAX_PRECISION - p) * IZR eD <= IZR q * IZR eD)%R)
    by (apply Rmult_le_compat_r; lra).
  assert (H6 : (IZR l * IZR eN <= IZR FIXED_1 * L * IZR eN)%R)
    by (apply Rmult_le_compat_r; lra).
  lra.
Qed.

Lemma power_of_2_36_squared :
  power (2 ^ 36) 1 1000000 500000 = Ok (586093511075640263214927271087, 34).
Proof. vm_compute. reflexivity. Qed.

Lemma power_of_150_squared :
  power 150 1 1000000 500000 = Ok (212506491249342565426015630, 73).
Proof. vm_compute. reflexivity. Qed.

Lemma real_power_square b :
  0 < b -> real_power b 1 1000000 500000 = IZR (b * b).
Proof.
  intros Hb. unfold real_power.
  assert (Hb' : (0 < IZR b)%R) by (now apply IZR_lt).
  replace (IZR 1000000 / IZR 500000)%R with (INR 2) by (simpl; lra).
  rewrite Rpower_pow by (apply Rdiv_lt_0_compat; [assumption | lra]).
  rewrite mult_IZR. field.
Qed.

(** A square that [power] returns at least 2^-30 below its real value, in
    relative terms, fails the claim. *)
Lemma square_not_accurate b res p :
  0 < b -> 0 <= p ->
  power b 1 1000000 500000 = Ok (res, p) ->
  res <= 2 ^ p * (b * b) ->
  2 ^ p * (b * b) <= (2 ^ p * (b * b) - res) * 2 ^ 30 ->
  ~ power_accurate b 1 1000000 500000.
Proof.
  intros Hb Hp Hpow Hle Hfar H. destruct (H _ _ Hpow) as [_ Habs].
  rewrite real_power_square, scale_IZR, <- mult_IZR in Habs by lia.
  set (v := 2 ^ p * (b * b)) in *.
  rewrite Rabs_left1 in Habs
    by (rewrite <- minus_IZR; apply IZR_le; lia).
  replace (2 ^ 30)%R with (IZR (2 ^ 30)) in Habs
    by (change (2 ^ 30) with (2 ^ Z.of_nat 30); now rewrite <- pow_IZR).
  apply (Rmult_lt_compat_r (IZR (2 ^ 30))) in Habs; [|apply IZR_lt; reflexivity].
  unfold Rdiv in Habs. rewrite Rmult_assoc, Rinv_l, Rmult_1_r in Habs
    by (apply not_0_IZR; discriminate).
  rewrite <- minus_IZR, <- opp_IZR, <- mult_IZR in Habs.
  apply lt_IZR in Habs. lia.
Qed.

(** C3, counterexample: on the sale path with reserve ratio 500000 the
    claimed bound fails twice.  With supply 2^36 and 2^36 - 1 tokens sold
    the real value is (2^36)^2 = 2^72, and [power] returns precision 34 and
    less than one hundredth of 2^72 * 2^34.  With supply 150 and 149 tokens
    sold the real value is 150^2 = 22500, and [power] returns precision 73
    and a result more than twice 2^-30 below 22500 * 2^73, in relative
    terms: the bound does not reach down to precision 73. *)
Lemma power_not_accurate :
  ~ power_accurate (2 ^ 36) 1 1000000 500000 /\
  ~ power_accurate 150 1 1000000 500000.
Proof.
  split.
  - eapply (square_not_accurate (2 ^ 36) _ 34); [reflexivity | discriminate | | |].
    + exact power_of_2_36_squared.
    + vm_compute. discriminate.
    + vm_compute. discriminate.
  - eapply (square_not_accurate 150 _ 73); [reflexivity | discriminate | | |].
    + exact power_of_150_squared.
    + vm_compute. discriminate.
    + vm_compute. discriminate.
Qed.

(** ** [ln] against the floor of the real logarithm *)

(** C7: [ln] is documented to return floor(ln(n/d) * 2^127).  At n = 2,
    d = 1 it returns 32 * LN2_MANTISSA, which is below that floor: the
    122-bit mantissa of ln 2 is shifted left by 5, so the last 5 bits of
    the result are 0. *)
Theorem ln_2_is_below_the_floor :
  ln 2 1 = Ok (32 * LN2_MANTISSA) /\
  32 * LN2_MANTISSA < Int_part (Rln (IZR 2 / IZR 1) * 2 ^ 127).
Proof.
  split; [vm_compute; reflexivity|].
  set (r := (Rln (IZR 2 / IZR 1) * 2 ^ 127)%R).
  assert (Hr : (IZR ln2_below <= r)%R).
  { unfold r. pose proof ln2_lower as H. pose proof IZR_FIXED_1_pos as HF.
    replace (IZR 2 / IZR 1)%R with 2%R by field.
    replace (2 ^ 127)%R with (IZR FIXED_1)
      by (change FIXED_1 with (2 ^ Z.of_nat 127); now rewrite <- pow_IZR).
    apply (Rmult_le_compat_r (IZR FIXED_1)) in H; [|lra].
    unfold Rdiv in H. rewrite Rmult_assoc, Rinv_l, Rmult_1_r in H by lra.
    exact H. }
  destruct (base_Int_part r) as [_ Hi].
  assert (Hlt : (IZR (ln2_below - 1) < IZR (Int_part r))%R)
    by (rewrite minus_IZR; lra).
  apply lt_IZR in Hlt. unfold ln2_below in Hlt. lia.
Qed.

(** ** How far [ln] falls below the natural logarithm *)

Lemma ulp_pos : (0 < ulp)%R.
Proof. apply Rinv_0_lt_compat, IZR_FIXED_1_pos. Qed.

Lemma ulp_FIXED_1 : (IZR FIXED_1 * ulp = 1)%R.
Proof. unfold ulp. apply Rinv_r. pose proof IZR_FIXED_1_pos. lra. Qed.

Lemma IZR_div_lt a b : 0 < b -> (IZR a / IZR b < IZR (a / b) + 1)%R.
Proof.
  intros Hb. assert (Hb' : (0 < IZR b)%R) by (now apply IZR_lt).
  apply Rmult_lt_reg_r with (IZR b); [assumption|].
  unfold Rdiv. rewrite Rmult_assoc, Rinv_l, Rmult_1_r by lra.
  rewrite <- (plus_IZR _ 1), <- mult_IZR. apply IZR_lt.
  pose proof (Z.mod_pos_bound a b Hb). pose proof (Z.div_mod a b ltac:(lia)). nia.
Qed.

(** Rounding down to an integer of at least 2^127 costs at most one [ulp]
    of logarithm. *)
Lemma Rln_floor y z :
  FIXED_1 <= y -> (0 < z < IZR y + 1)%R -> (Rln z <= Rln (IZR y) + ulp)%R.
Proof.
  intros Hy [Hz0 Hz].
  pose proof IZR_FIXED_1_pos as HF. pose proof ulp_pos as Hu.
  assert (Hy' : (IZR FIXED_1 <= IZR y)%R) by (now apply IZR_le).
  assert (Hyy : (0 < IZR y)%R) by lra.
  eapply Rle_trans; [apply (Rln_le z (IZR y + 1)); lra|].
  replace (IZR y + 1)%R with (IZR y * (1 + / IZR y))%R by (field; lra).
  assert (Hinv : (0 < / IZR y <= ulp)%R).
  { split; [now apply Rinv_0_lt_compat|].
    unfold ulp. apply Rinv_le_contravar; assumption. }
  rewrite ln_mult by lra.
  pose proof (Rln_le_sub1 (1 + / IZR y) ltac:(lra)). lra.
Qed.

Lemma Rln_div_floor a b :
  0 < b -> FIXED_1 <= a / b ->
  (Rln (IZR a / IZR b) <= Rln (IZR (a / b)) + ulp)%R.
Proof.
  intros Hb Hq. apply Rln_floor; [assumption|]. split.
  - pose proof IZR_FIXED_1_pos as HF.
    assert (0 < a) by (destruct (Z_lt_le_dec 0 a); [assumption|];
      assert (a / b <= 0) by (apply Z.div_le_upper_bound; nia);
      unfold FIXED_1 in *; lia).
    apply Rdiv_lt_0_compat; apply IZR_lt; assumption.
  - now apply IZR_div_lt.
Qed.

Lemma fixed_ln_eq x : 0 < x -> fixed_ln x = (Rln (IZR x) - Rln (IZR FIXED_1))%R.
Proof.
  intros Hx. unfold fixed_ln, fixed_value.
  apply Rln_div; [now apply IZR_lt | apply IZR_FIXED_1_pos].
Qed.

Lemma fixed_ln_square_lower x :
  FIXED_1 <= x ->
  (2 * fixed_ln x <= fixed_ln (x * x / FIXED_1) + ulp)%R.
Proof.
  intros Hx.
  assert (Hy : FIXED_1 <= x * x / FIXED_1)
    by (unfold FIXED_1 in *; apply Z.div_le_lower_bound; nia).
  pose proof (Rln_div_floor (x * x) FIXED_1 ltac:(reflexivity) Hy) as H.
  pose proof IZR_FIXED_1_pos as HF.
  assert (Hx' : (0 < IZR x)%R) by (apply IZR_lt; unfold FIXED_1 in *; lia).
  rewrite mult_IZR, Rln_div, ln_mult in H by (try apply Rmult_lt_0_compat; lra).
  rewrite !fixed_ln_eq by (unfold FIXED_1 in *; lia). lra.
Qed.

Lemma fixed_ln_shiftr_lower y c :
  0 <= c -> FIXED_1 <= Z.shiftr y c ->
  (fixed_ln y - IZR c * Rln 2 <= fixed_ln (Z.shiftr y c) + ulp)%R.
Proof.
  intros Hc Hs. rewrite Z.shiftr_div_pow2 in * by assumption.
  assert (Hp : 0 < 2 ^ c) by (apply Z.pow_pos_nonneg; lia).
  pose proof (Rln_div_floor y (2 ^ c) Hp Hs) as H.
  assert (Hy : 0 < y).
  { destruct (Z_lt_le_dec 0 y); [assumption|].
    assert (y / 2 ^ c <= 0) by (apply Z.div_le_upper_bound; nia).
    unfold FIXED_1 in *. lia. }
  assert (Hy' : (0 < IZR y)%R) by (now apply IZR_lt).
  assert (Hp' : (0 < IZR (2 ^ c))%R) by (now apply IZR_lt).
  rewrite Rln_div in H by assumption.
  assert (E : Rln (IZR (2 ^ c)) = (IZR c * Rln 2)%R).
  { rewrite <- (Z2Nat.id c) at 1 by assumption.
    rewrite <- pow_IZR, ln_pow, INR_IZR_INZ, Z2Nat.id by (assumption || lra).
    reflexivity. }
  rewrite E in H.
  rewrite !fixed_ln_eq by (unfold FIXED_1 in *; lia). lra.
Qed.

Lemma ln_loop_real_lower i x res :
  FIXED_1 <= x < FIXED_2 ->
  (IZR res * Rln 2 + 2 ^ i * fixed_ln x - 2 * ulp * (2 ^ i - 1)
   <= IZR (snd (ln_loop i x res)) * Rln 2 + fixed_ln (fst (ln_loop i x res)))%R.
Proof.
  revert x res. induction i as [|j IH]; intros x res Hx.
  - simpl. lra.
  - cbn [ln_loop]. pose proof (square_range x Hx) as Hy.
    pose proof (fixed_ln_square_lower x ltac:(lia)) as Hsq.
    set (y := x * x / FIXED_1) in *.
    replace (Z.of_nat (S j) - 1) with (Z.of_nat j) by lia.
    unfold ONE. rewrite Z.shiftl_1_l.
    assert (Hpj : (0 < 2 ^ j)%R) by (apply pow_lt; lra).
    pose proof ulp_pos as Hu.
    rewrite <- tech_pow_Rmult.
    destruct (Z.geb_spec y FIXED_2) as [Hge|Hlt].
    + pose proof (halve_range y ltac:(lia)) as Hh.
      specialize (IH (Z.shiftr y 1) (res + 2 ^ Z.of_nat j) Hh).
      pose proof (fixed_ln_shiftr_lower y 1 ltac:(lia) ltac:(lia)) as Hs.
      rewrite plus_IZR, <- pow_IZR in IH.
      assert ((2 ^ j * (fixed_ln y - Rln 2 - ulp)
               <= 2 ^ j * fixed_ln (Z.shiftr y 1))%R)
        by (apply Rmult_le_compat_l; lra).
      assert ((2 ^ j * (2 * fixed_ln x - ulp) <= 2 ^ j * fixed_ln y)%R)
        by (apply Rmult_le_compat_l; lra).
      lra.
    + specialize (IH y res ltac:(lia)).
      assert ((2 ^ j * (2 * fixed_ln x - ulp) <= 2 ^ j * fixed_ln y)%R)
        by (apply Rmult_le_compat_l; lra).
      nra.
Qed.

Lemma Rln_2_le_1 : (Rln 2 <= 1)%R.
Proof. pose proof (Rln_le_sub1 2 ltac:(lra)). lra. Qed.

Lemma Rln_2_pos : (0 < Rln 2)%R.
Proof. pose proof ln_lt_2. lra. Qed.

Lemma fixed_ln_below_ln2 x : 0 < x < FIXED_2 -> (fixed_ln x <= Rln 2)%R.
Proof.
  intros Hx. unfold fixed_ln. pose proof IZR_FIXED_1_pos as HF.
  apply Rln_le; [apply fixed_value_pos; lia|].
  unfold fixed_value.
  apply Rmult_le_reg_r with (IZR FIXED_1); [assumption|].
  unfold Rdiv. rewrite Rmult_assoc, Rinv_l, Rmult_1_r by lra.
  rewrite <- (mult_IZR 2). apply IZR_le. unfold FIXED_1, FIXED_2 in *. lia.
Qed.

Lemma log2_fixed_real_lower x :
  FIXED_1 <= x < 2 ^ 256 ->
  (IZR FIXED_1 * fixed_ln x - 4 <= IZR (log2_fixed x) * Rln 2)%R.
Proof.
  intros Hx. destruct (ln_int_spec x Hx) as (E & Hc & Hr).
  set (c := Z.log2 (x / FIXED_1)) in *.
  unfold log2_fixed. rewrite E, ln_frac_loop by assumption.
  pose proof (ln_loop_real_lower (Z.to_nat MAX_PRECISION) _ (c * FIXED_1) Hr) as H.
  pose proof (ln_loop_bounds (Z.to_nat MAX_PRECISION) _ (c * FIXED_1) Hr) as B.
  destruct (ln_loop _ _ _) as [x' res']. cbn [fst snd] in *.
  pose proof (fixed_ln_below_ln2 x' ltac:(unfold FIXED_1 in *; lia)) as Hx'.
  pose proof (fixed_ln_shiftr_lower x c Hc ltac:(lia)) as Hs.
  replace (2 ^ Z.to_nat MAX_PRECISION)%R with (IZR FIXED_1) in H
    by (change FIXED_1 with (2 ^ Z.of_nat (Z.to_nat MAX_PRECISION));
        now rewrite <- pow_IZR).
  rewrite mult_IZR in H.
  pose proof IZR_FIXED_1_pos as HF. pose proof ulp_pos as Hu.
  pose proof ulp_FIXED_1 as HuF. pose proof Rln_2_le_1 as H21.
  assert ((IZR FIXED_1 * (fixed_ln x - IZR c * Rln 2 - ulp)
           <= IZR FIXED_1 * fixed_ln (Z.shiftr x c))%R)
    by (apply Rmult_le_compat_l; lra).
  nra.
Qed.

(** *** An upper bound of [ln 2] to 122 binary places *)

Lemma exp_sum_num_ge A B N c :
  0 < B ->
  c * (Zfact N * B ^ Z.of_nat N) <= exp_sum_num A B N ->
  (IZR c <= E1 (IZR A / IZR B) N)%R.
Proof.
  intros HB H. apply IZR_le in H.
  rewrite !mult_IZR, exp_sum_num_spec, IZR_Zfact, <- pow_IZR in H by lia.
  assert (HB' : (0 < IZR B)%R) by (now apply IZR_lt).
  assert (HP : (0 < IZR B ^ N * INR (fact N))%R).
  { apply Rmult_lt_0_compat; [now apply pow_lt | apply INR_fact_lt_0]. }
  set (e := E1 _ N) in *.
  set (f := INR (fact N)) in *. set (bn := (IZR B ^ N)%R) in *.
  apply Rmult_le_reg_r with (bn * f)%R; [assumption|]. lra.
Qed.

Lemma exp_sum_above_ln2 :
  2 * (Zfact 33 * (2 ^ LN2_EXPONENT) ^ Z.of_nat 33)
  <= exp_sum_num (LN2_MANTISSA + 1) (2 ^ LN2_EXPONENT) 33.
Proof. vm_compute. discriminate. Qed.

Lemma ln2_upper :
  (Rln 2 <= IZR (LN2_MANTISSA + 1) / IZR (2 ^ LN2_EXPONENT))%R.
Proof.
  set (q := (IZR (LN2_MANTISSA + 1) / IZR (2 ^ LN2_EXPONENT))%R).
  assert (Hq : (0 <= q)%R).
  { apply Rmult_le_pos; [apply IZR_le; discriminate|].
    left. apply Rinv_0_lt_compat, IZR_lt. reflexivity. }
  pose proof (exp_sum_num_ge (LN2_MANTISSA + 1) (2 ^ LN2_EXPONENT) 33 2
                ltac:(reflexivity) exp_sum_above_ln2) as H.
  fold q in H. pose proof (E1_lower q 33 Hq) as Hl.
  rewrite <- (ln_exp q). apply Rln_le; lra.
Qed.

(** The last line of [ln]: the rescaling loses at most 2^-122 of the
    accumulated logarithm, and one unit to the shift. *)
Lemma ln_scale_real_lower res :
  0 <= res ->
  (IZR res * Rln 2 - IZR res / IZR (2 ^ LN2_EXPONENT) - 1
   <= IZR (ln_scale res))%R.
Proof.
  intros Hres. unfold ln_scale.
  rewrite Z.shiftr_div_pow2 by discriminate.
  pose proof (IZR_div_lt (res * LN2_MANTISSA) (2 ^ LN2_EXPONENT)
                ltac:(reflexivity)) as H.
  rewrite mult_IZR in H.
  pose proof ln2_upper as Hu. rewrite plus_IZR in Hu.
  assert (HP : (0 < IZR (2 ^ LN2_EXPONENT))%R) by (apply IZR_lt; reflexivity).
  assert (Hres' : (0 <= IZR res)%R) by (now apply IZR_le).
  set (P := IZR (2 ^ LN2_EXPONENT)) in *.
  assert (Hm : (Rln 2 - / P <= IZR LN2_MANTISSA / P)%R).
  { replace (IZR LN2_MANTISSA / P)%R with ((IZR LN2_MANTISSA + 1) / P - / P)%R
      by (field; lra). lra. }
  assert ((IZR res * (Rln 2 - / P) <= IZR res * (IZR LN2_MANTISSA / P))%R)
    by (now apply Rmult_le_compat_l).
  replace (IZR res * IZR LN2_MANTISSA / P)%R
    with (IZR res * (IZR LN2_MANTISSA / P))%R in H by (field; lra).
  unfold Rdiv at 1. lra.
Qed.

(** The result of [ln] is within 4134 units of the last place of
    [ln(n / d) * 2^127]. *)
Lemma ln_lower n d l :
  1 <= d -> d <= n -> ln n d = Ok l ->
  (IZR FIXED_1 * Rln (IZR n / IZR d) - 4134 <= IZR l)%R.
Proof.
  intros Hd Hdn H. apply ln_Ok in H. destruct H as (Hn & _ & ->).
  pose proof (ratio_range n d Hd Hdn Hn) as Hx.
  set (x := n * FIXED_1 / d) in *.
  pose proof (log2_fixed_nonneg x Hx) as H0.
  pose proof (log2_fixed_bounds x Hx) as B. cbv zeta in B.
  assert (Hq : x / FIXED_1 < 2 ^ 129).
  { apply Z.div_lt_upper_bound; [reflexivity|]. unfold x.
    apply Z.div_lt_upper_bound; [lia|]. unfold MAX_NUM, FIXED_1 in *. nia. }
  assert (Hc : Z.log2 (x / FIXED_1) < 129).
  { apply Z.log2_lt_pow2; [|exact Hq].
    apply Z.div_str_pos. unfold FIXED_1 in *. lia. }
  assert (Hres : log2_fixed x <= 129 * FIXED_1) by (unfold FIXED_1 in *; nia).
  pose proof (ln_scale_real_lower _ H0) as Hs.
  pose proof (log2_fixed_real_lower x Hx) as Hl.
  pose proof IZR_FIXED_1_pos as HF. pose proof ulp_pos as Hu.
  pose proof ulp_FIXED_1 as HuF.
  assert (Hsh : (IZR (log2_fixed x) / IZR (2 ^ LN2_EXPONENT) <= 4128)%R).
  { apply IZR_le in Hres. rewrite mult_IZR in Hres.
    assert (HP : (0 < IZR (2 ^ LN2_EXPONENT))%R) by (apply IZR_lt; reflexivity).
    apply Rmult_le_reg_r with (IZR (2 ^ LN2_EXPONENT)); [assumption|].
    unfold Rdiv. rewrite Rmult_assoc, Rinv_l, Rmult_1_r by lra.
    eapply Rle_trans; [exact Hres|].
    rewrite <- !mult_IZR. apply IZR_le. vm_compute. discriminate. }
  (* the ratio against its floor *)
  assert (Hr : (Rln (IZR n / IZR d) <= fixed_ln x + ulp)%R).
  { pose proof (Rln_div_floor (n * FIXED_1) d ltac:(lia) (proj1 Hx)) as Hf.
    fold x in Hf. rewrite fixed_ln_eq by (unfold FIXED_1 in *; lia).
    assert (Hd' : (0 < IZR d)%R) by (apply IZR_lt; lia).
    assert (Hn' : (0 < IZR n)%R) by (apply IZR_lt; lia).
    rewrite mult_IZR, Rln_div, ln_mult in Hf
      by (first [assumption | apply Rmult_lt_0_compat; assumption]).
    rewrite Rln_div by assumption. lra. }
  assert ((IZR FIXED_1 * Rln (IZR n / IZR d)
           <= IZR FIXED_1 * (fixed_ln x + ulp))%R)
    by (apply Rmult_le_compat_l; lra).
  nra.
Qed.

(** ** How far [fixedExp] falls below the exponential *)

(** *** The tail of the exponential series *)

Lemma Un_cv_le_bound (U : nat -> R) (l c : R) (N : nat) :
  Un_cv U l -> (forall n, (N <= n)%nat -> (U n <= c)%R) -> (l <= c)%R.
Proof.
  intros Hcv Hb. destruct (Rle_lt_dec l c) as [|Hlt]; [assumption|].
  destruct (Hcv (l - c)%R ltac:(lra)) as [N' HN'].
  specialize (HN' (max N N') ltac:(lia)). specialize (Hb (max N N') ltac:(lia)).
  unfold Rdist in HN'. apply Rabs_def2 in HN'. lra.
Qed.

Section Tail.
#[local] Open Scope R_scope.
Variable y : R.
Variable N : nat.
Hypothesis Hy : 0 <= y.
Hypothesis HyN : 2 * y <= INR N + 2.

Let term (k : nat) : R := / INR (fact k) * y ^ k.

Lemma term_nonneg k : 0 <= term k.
Proof.
  unfold term. apply Rmult_le_pos; [|now apply pow_le].
  left. apply Rinv_0_lt_compat, INR_fact_lt_0.
Qed.

Lemma term_halves k : (S N <= k)%nat -> term (S k) <= term k / 2.
Proof.
  intros Hk. unfold term.
  change (fact (S k)) with (S k * fact k)%nat.
  rewrite mult_INR, Rinv_mult, <- tech_pow_Rmult.
  pose proof (INR_fact_lt_0 k) as Hf.
  assert (Hk' : INR N + 2 <= INR (S k)).
  { replace (INR N + 2) with (INR (N + 2)) by (rewrite plus_INR; simpl; lra).
    apply le_INR. lia. }
  pose proof (pos_INR N) as HN0.
  assert (Hsk : 0 < INR (S k)) by lra.
  pose proof (term_nonneg k) as Ht. unfold term in Ht.
  set (t := / INR (fact k) * y ^ k) in *.
  replace (/ INR (S k) * / INR (fact k) * (y * y ^ k))
    with (t * (y * / INR (S k))) by (unfold t; ring).
  assert (y * / INR (S k) <= / 2).
  { apply Rmult_le_reg_r with (INR (S k)); [assumption|].
    rewrite Rmult_assoc, Rinv_l, Rmult_1_r by lra. lra. }
  unfold Rdiv. apply Rmult_le_compat_l; assumption.
Qed.

Lemma term_geometric j : term (S N + j) <= term (S N) * (/ 2) ^ j.
Proof.
  induction j as [|j IH].
  - rewrite Nat.add_0_r. simpl. lra.
  - replace (S N + S j)%nat with (S (S N + j)) by lia.
    eapply Rle_trans; [apply term_halves; lia|].
    rewrite <- tech_pow_Rmult. unfold Rdiv.
    apply (Rmult_le_compat_r (/ 2)) in IH; [|lra]. lra.
Qed.

Lemma E1_tail n : E1 y (N + n) <= E1 y N + term (S N) * (2 - 2 * (/ 2) ^ n).
Proof.
  induction n as [|n IH].
  - rewrite Nat.add_0_r. simpl. lra.
  - replace (N + S n)%nat with (S (N + n)) by lia.
    rewrite E1_S. fold (term (S (N + n))).
    pose proof (term_geometric n) as Hg.
    replace (S N + n)%nat with (S (N + n)) in Hg by lia.
    rewrite <- tech_pow_Rmult. lra.
Qed.

Lemma exp_tail : exp y <= E1 y N + 2 * (/ INR (fact (S N)) * y ^ S N).
Proof.
  fold (term (S N)).
  apply (Un_cv_le_bound (E1 y) _ _ N (E1_cvg y)).
  intros n Hn. replace n with (N + (n - N))%nat by lia.
  eapply Rle_trans; [apply E1_tail|].
  pose proof (term_nonneg (S N)) as Ht.
  assert (0 < (/ 2) ^ (n - N)) by (apply pow_lt; lra).
  nra.
Qed.
End Tail.

(** *** The truncations inside [fixedExp] *)

Section FixedExpLower.
Variables x p : Z.
Variable g : R.
Hypothesis Hx : 0 <= x.
Hypothesis Hp : 0 <= p.

Let P : R := (2 ^ Z.to_nat p)%R.
Let y : R := (IZR x / P)%R.
Let F : R := IZR (Zfact 33).

(** [g] bounds the argument: [x / 2^p + 1 <= g]. *)
Hypothesis Hg : (y + 1 <= g)%R.

Lemma fixedExp_fold_real_lower cs : forall k xi res,
  (1 <= k)%nat -> coeffs_from k cs -> 0 <= xi ->
  (P * y ^ k - g ^ (k - 1) <= IZR xi)%R ->
  (F * (P * (E1 y k - 1 - y) - (E1 g k - 1 - g) / g) <= IZR res)%R ->
  (F * (P * (E1 y (k + length cs) - 1 - y)
        - (E1 g (k + length cs) - 1 - g) / g)
   <= IZR (snd (fold_left (fixedExp_step x p) cs (xi, res))))%R.
Proof.
  pose proof (fixedExp_scale_pos p) as HP. fold P in HP.
  pose proof (fixedExp_arg_nonneg x p Hx) as Hy. fold P in Hy. fold y in Hy.
  assert (HF : (0 < F)%R) by (apply IZR_lt, Zfact_pos).
  assert (Hg1 : (1 <= g)%R) by lra.
  induction cs as [|c cs IH]; intros k xi res Hk Hcs Hxi Bxi Bres.
  - cbn [fold_left length snd]. now rewrite Nat.add_0_r.
  - destruct Hcs as [Hc Hcs]. cbn [fold_left fixedExp_step length].
    replace (k + S (length cs))%nat with (S k + length cs)%nat by lia.
    set (xi' := Z.shiftr (xi * x) p).
    assert (Hxi' : 0 <= xi') by (apply Z.shiftr_nonneg; nia).
    assert (Hgk : (1 <= g ^ (k - 0))%R) by (now apply pow_R1_Rle).
    assert (Hgk1 : (1 <= g ^ (k - 1))%R) by (now apply pow_R1_Rle).
    assert (Bxi' : (P * y ^ S k - g ^ (S k - 1) <= IZR xi')%R).
    { unfold xi'. rewrite Z.shiftr_div_pow2 by assumption.
      pose proof (IZR_div_lt (xi * x) (2 ^ p)
                    ltac:(apply Z.pow_pos_nonneg; lia)) as Hd.
      rewrite mult_IZR in Hd.
      replace (IZR (2 ^ p)) with P in Hd
        by (unfold P; rewrite <- (Z2Nat.id p) at 2 by assumption;
            now rewrite <- pow_IZR).
      replace (IZR xi * IZR x / P)%R with (IZR xi * y)%R in Hd
        by (unfold y; field; lra).
      replace (S k - 1)%nat with k by lia.
      rewrite Nat.sub_0_r in Hgk.
      assert (H1 : ((P * y ^ k - g ^ (k - 1)) * y <= IZR xi * y)%R)
        by (now apply Rmult_le_compat_r).
      assert (H2 : (g ^ (k - 1) * y + 1 <= g ^ k)%R).
      { destruct k as [|k']; [lia|].
        replace (S k' - 1)%nat with k' in * by lia.
        rewrite <- tech_pow_Rmult. nra. }
      rewrite <- tech_pow_Rmult. nra. }
    apply IH; try assumption; [lia|].
    rewrite plus_IZR, mult_IZR, !E1_S.
    pose proof (Zfact_pos (S k)) as Hfk. pose proof (Zfact_pos 33) as Hf33.
    assert (Hc0 : 0 <= c) by nia.
    assert (HcR : (IZR c = F * / INR (fact (S k)))%R).
    { unfold F. rewrite <- Hc, mult_IZR, IZR_Zfact. field.
      apply INR_fact_neq_0. }
    assert (H : ((P * y ^ S k - g ^ (S k - 1)) * IZR c <= IZR xi' * IZR c)%R)
      by (apply Rmult_le_compat_r; [now apply IZR_le | assumption]).
    replace (S k - 1)%nat with k in H by lia.
    rewrite HcR in H |- *.
    replace (F * (P * (E1 y k + / INR (fact (S k)) * y ^ S k - 1 - y)
                  - (E1 g k + / INR (fact (S k)) * g ^ S k - 1 - g) / g))%R
      with (F * (P * (E1 y k - 1 - y) - (E1 g k - 1 - g) / g)
            + (P * y ^ S k - g ^ k) * (F * / INR (fact (S k))))%R
      by (rewrite <- (tech_pow_Rmult g k); field;
          repeat split; first [apply INR_fact_neq_0 | lra]).
    lra.
Qed.

Lemma fixedExp_real_lower :
  (P * E1 y 33 - (E1 g 33 - 1 - g) / g - 1 <= IZR (fixedExp x p))%R.
Proof.
  pose proof (fixedExp_scale_pos p) as HP. fold P in HP.
  pose proof (fixedExp_arg_nonneg x p Hx) as Hy. fold P in Hy. fold y in Hy.
  assert (HF : (0 < F)%R) by (apply IZR_lt, Zfact_pos).
  rewrite fixedExp_fold.
  pose proof (fixedExp_fold_real_lower fixedExp_coefficients 1 x 0
                (le_n 1) fixedExp_coefficients_factorials Hx) as H.
  change (1 + length fixedExp_coefficients)%nat with 33%nat in H.
  assert (E11 : forall z, E1 z 1 = (1 + z)%R).
  { intros z. rewrite E1_S, E1_0. simpl. field. }
  assert (Hxy : IZR x = (P * y)%R) by (unfold y; field; lra).
  specialize (H ltac:(rewrite Hxy; change (1 - 1)%nat with 0%nat;
                      rewrite pow_1, pow_O; lra)
                ltac:(rewrite !E11; right; field; lra)).
  set (res := snd (fold_left _ _ _)) in *.
  pose proof (IZR_div_lt res fixedExp_divisor ltac:(reflexivity)) as Hd.
  rewrite fixedExp_divisor_factorial in *. fold F in Hd.
  rewrite !plus_IZR. unfold ONE. rewrite Z.shiftl_1_l.
  replace (IZR (2 ^ p)) with P
    by (unfold P; rewrite <- (Z2Nat.id p) at 2 by assumption;
        now rewrite <- pow_IZR).
  assert (Hq : (P * (E1 y 33 - 1 - y) - (E1 g 33 - 1 - g) / g <= IZR res / F)%R).
  { apply Rmult_le_reg_r with F; [assumption|].
    unfold Rdiv at 2. rewrite Rmult_assoc, Rinv_l, Rmult_1_r by lra. lra. }
  lra.
Qed.
End FixedExpLower.

(** ** The accuracy of [fixedExp] below the argument 7, and the exponent of [power] *)

Lemma exp_sum_num_le A B N c :
  0 < B ->
  exp_sum_num A B N <= c * (Zfact N * B ^ Z.of_nat N) ->
  (E1 (IZR A / IZR B) N <= IZR c)%R.
Proof.
  intros HB H. apply IZR_le in H.
  rewrite !mult_IZR, exp_sum_num_spec, IZR_Zfact, <- pow_IZR in H by lia.
  assert (HB' : (0 < IZR B)%R) by (now apply IZR_lt).
  assert (HP : (0 < IZR B ^ N * INR (fact N))%R).
  { apply Rmult_lt_0_compat; [now apply pow_lt | apply INR_fact_lt_0]. }
  set (e := E1 _ N) in *.
  set (f := INR (fact N)) in *. set (bn := (IZR B ^ N)%R) in *.
  apply Rmult_le_reg_r with (bn * f)%R; [assumption|]. lra.
Qed.

Lemma E1_8_33 : (E1 8 33 <= 2981)%R.
Proof.
  replace 8%R with (IZR 8 / IZR 1)%R by field.
  apply exp_sum_num_le; [reflexivity|]. vm_compute. discriminate.
Qed.

(** Below the argument bound 7 the truncations of [fixedExp] cost at most
    373 units of the last place. *)
Lemma fixedExp_lower_7 x p :
  0 <= x -> 0 <= p -> (IZR x / scale p <= 7)%R ->
  (scale p * E1 (IZR x / scale p) 33 - 373 <= IZR (fixedExp x p))%R.
Proof.
  intros Hx Hp Hy.
  pose proof (fixedExp_real_lower x p 8 Hx Hp) as H. fold (scale p) in H.
  specialize (H ltac:(lra)). pose proof E1_8_33 as H8. lra.
Qed.

(** The tail of the series after 34 terms, below the argument bound 7. *)
Lemma exp_tail_7 y :
  (0 <= y <= 7)%R -> (exp y <= E1 y 33 + 37 / 100000000000)%R.
Proof.
  intros Hy.
  assert (H33 : (2 * y <= INR 33 + 2)%R).
  { replace (INR 33) with 33%R by (rewrite INR_IZR_INZ; reflexivity). lra. }
  pose proof (exp_tail y 33 (proj1 Hy) H33) as H.
  eapply Rle_trans; [exact H|]. apply Rplus_le_compat_l.
  rewrite <- IZR_Zfact.
  assert (Hpow : (y ^ 34 <= IZR (7 ^ Z.of_nat 34))%R).
  { rewrite <- pow_IZR. apply pow_incr. lra. }
  assert (Hf : (0 < IZR (Zfact 34))%R) by (apply IZR_lt, Zfact_pos).
  assert (Hnum : (2 * IZR (7 ^ Z.of_nat 34) * 100000000000 <= 37 * IZR (Zfact 34))%R).
  { rewrite <- !mult_IZR. apply IZR_le. vm_compute. discriminate. }
  set (f := IZR (Zfact 34)) in *. set (s := IZR (7 ^ Z.of_nat 34)) in *.
  apply Rmult_le_reg_r with (f * 100000000000)%R; [lra|].
  replace (2 * (/ f * y ^ 34) * (f * 100000000000))%R
    with (2 * y ^ 34 * 100000000000)%R by (field; lra).
  replace (37 / 100000000000 * (f * 100000000000))%R with (37 * f)%R
    by (field; lra).
  lra.
Qed.

(** The argument of [fixedExp] in [power], against the real exponent. *)
Lemma exponent_arg_lower l eN eD p (L : R) :
  0 <= l -> 0 < eN <= 1000000 -> 0 < eD -> 0 <= p <= MAX_PRECISION ->
  (0 <= L)%R -> (IZR FIXED_1 * L - 4134 <= IZR l)%R ->
  (IZR eN / IZR eD * L - 4134000001 / IZR FIXED_1 - / scale p
   <= IZR (exponent_arg l eN eD p) / scale p)%R.
Proof.
  intros Hl HeN HeD Hp HL Hlow. unfold exponent_arg.
  set (q := l * eN / eD).
  pose proof (IZR_div_lt (l * eN) eD HeD) as Hq. fold q in Hq.
  rewrite mult_IZR in Hq.
  assert (Hsh : (IZR q / scale (MAX_PRECISION - p)
                 < IZR (Z.shiftr q (MAX_PRECISION - p)) + 1)%R).
  { rewrite Z.shiftr_div_pow2, scale_IZR by lia.
    apply IZR_div_lt, Z.pow_pos_nonneg; lia. }
  set (xa := Z.shiftr q (MAX_PRECISION - p)) in *.
  pose proof (scale_pos p) as HP.
  pose proof (scale_pos (MAX_PRECISION - p)) as HQ.
  pose proof (scale_split p Hp) as HS.
  pose proof IZR_FIXED_1_pos as HF.
  assert (HeD' : (1 <= IZR eD)%R) by (apply IZR_le; lia).
  assert (HeN' : (0 < IZR eN <= 1000000)%R)
    by (split; [apply IZR_lt | apply IZR_le]; lia).
  (* q / 2^127 - 1 / 2^p < xa / 2^p *)
  assert (H1 : (IZR q / IZR FIXED_1 - / scale p <= IZR xa / scale p)%R).
  { rewrite <- HS.
    apply Rmult_le_reg_r with (scale p); [assumption|].
    replace ((IZR q / (scale (MAX_PRECISION - p) * scale p) - / scale p) * scale p)%R
      with (IZR q / scale (MAX_PRECISION - p) - 1)%R by (field; lra).
    replace (IZR xa / scale p * scale p)%R with (IZR xa) by (field; lra).
    lra. }
  (* l * eN / eD - 1 < q, and the bound on l *)
  assert (Hr : (IZR eN / IZR eD <= 1000000)%R).
  { apply Rmult_le_reg_r with (IZR eD); [lra|].
    unfold Rdiv. rewrite Rmult_assoc, Rinv_l, Rmult_1_r by lra. nra. }
  assert (Hr0 : (0 <= IZR eN / IZR eD)%R).
  { apply Rmult_le_pos; [lra|]. left. apply Rinv_0_lt_compat. lra. }
  assert (H2 : ((IZR FIXED_1 * L - 4134) * (IZR eN / IZR eD)
                <= IZR l * (IZR eN / IZR eD))%R)
    by (now apply Rmult_le_compat_r).
  assert (H3 : (IZR FIXED_1 * (IZR eN / IZR eD * L) - 4134000001 <= IZR q)%R).
  { replace (IZR l * IZR eN / IZR eD)%R with (IZR l * (IZR eN / IZR eD))%R in Hq
      by (field; lra). nra. }
  assert (H4 : (IZR eN / IZR eD * L - 4134000001 / IZR FIXED_1
                <= IZR q / IZR FIXED_1)%R).
  { apply Rmult_le_reg_r with (IZR FIXED_1); [assumption|].
    replace ((IZR eN / IZR eD * L - 4134000001 / IZR FIXED_1) * IZR FIXED_1)%R
      with (IZR FIXED_1 * (IZR eN / IZR eD * L) - 4134000001)%R by (field; lra).
    unfold Rdiv at 2. rewrite Rmult_assoc, Rinv_l, Rmult_1_r by lra. exact H3. }
  lra.
Qed.

(** ** The accuracy of [power] at the precisions 74..127 *)

(** *** The tail of the series, relative to the exponential *)

Section RelativeTail.
#[local] Open Scope R_scope.

Lemma exp_INR_mult k z : exp (INR k * z) = exp z ^ k.
Proof.
  induction k as [|k IH].
  - simpl. rewrite Rmult_0_l. apply exp_0.
  - rewrite S_INR, Rmult_plus_distr_r, Rmult_1_l, exp_plus, IH.
    rewrite <- tech_pow_Rmult. ring.
Qed.

(** [y^k * e^-y] grows with [y] as long as [y <= k]. *)
Lemma pow_exp_neg_incr k y Y :
  0 <= y <= Y -> 0 < Y <= INR k -> y ^ k * exp (- y) <= Y ^ k * exp (- Y).
Proof.
  intros [Hy0 HyY] [HY HYk].
  assert (Hk : 0 < INR k) by lra.
  set (u := y / Y).
  assert (Hu : 0 <= u <= 1).
  { unfold u. split.
    - apply Rmult_le_pos; [assumption | left; now apply Rinv_0_lt_compat].
    - apply Rmult_le_reg_r with Y; [assumption|].
      unfold Rdiv. rewrite Rmult_assoc, Rinv_l, Rmult_1_r by lra. lra. }
  set (z := Y / INR k * (u - 1)).
  assert (Hr : 0 < Y / INR k <= 1).
  { split; [now apply Rdiv_lt_0_compat|].
    apply Rmult_le_reg_r with (INR k); [assumption|].
    unfold Rdiv. rewrite Rmult_assoc, Rinv_l, Rmult_1_r by lra. lra. }
  assert (Huz : u <= exp z).
  { pose proof (exp_ineq1_le z) as H. unfold z in *.
    assert (0 <= (1 - Y / INR k) * (1 - u)) by (apply Rmult_le_pos; lra).
    lra. }
  assert (Hpow : u ^ k <= exp (y - Y)).
  { replace (y - Y) with (INR k * z).
    - rewrite exp_INR_mult. apply pow_incr. lra.
    - unfold z, u. field. lra. }
  assert (Ey : y = u * Y) by (unfold u; field; lra).
  rewrite Ey at 1. rewrite Rpow_mult_distr.
  assert (HYk' : 0 <= Y ^ k) by (apply pow_le; lra).
  pose proof (exp_pos (- y)) as He.
  replace (exp (- Y)) with (exp (y - Y) * exp (- y))
    by (rewrite <- exp_plus; f_equal; ring).
  assert (u ^ k * (Y ^ k * exp (- y)) <= exp (y - Y) * (Y ^ k * exp (- y)))
    by (apply Rmult_le_compat_r; [apply Rmult_le_pos; lra | assumption]).
  lra.
Qed.

Variables y Y : R.
Variable N : nat.
Hypothesis Hy : 0 <= y <= Y.
Hypothesis HY : 0 < Y <= INR (S N).

Lemma E1_segment_incr n :
  (E1 y (N + n) - E1 y N) * exp (- y) <= (E1 Y (N + n) - E1 Y N) * exp (- Y).
Proof.
  induction n as [|n IH].
  - rewrite Nat.add_0_r. lra.
  - replace (N + S n)%nat with (S (N + n)) by lia. rewrite !E1_S.
    assert (Hk : 0 < Y <= INR (S (N + n))).
    { split; [lra|]. eapply Rle_trans; [apply HY|]. apply le_INR. lia. }
    pose proof (pow_exp_neg_incr (S (N + n)) y Y Hy Hk) as Hp.
    pose proof (INR_fact_lt_0 (S (N + n))) as Hf.
    assert (Hi : 0 < / INR (fact (S (N + n)))) by (now apply Rinv_0_lt_compat).
    apply (Rmult_le_compat_l (/ INR (fact (S (N + n))))) in Hp; [|lra].
    lra.
Qed.

(** The part of [e^y] that the first [N] terms miss, relative to [e^y], is
    at most what a longer partial sum at [Y] gives. *)
Lemma relative_tail n :
  2 * Y <= INR (N + n) + 2 ->
  (exp y - E1 y N) * exp (- y)
  <= (E1 Y (N + n) - E1 Y N
      + 2 * (/ INR (fact (S (N + n))) * Y ^ S (N + n))) * exp (- Y).
Proof.
  intros H2.
  pose proof (exp_tail y (N + n) (proj1 Hy) ltac:(lra)) as Ht.
  pose proof (E1_segment_incr n) as Hs.
  assert (Hk : 0 < Y <= INR (S (N + n))).
  { split; [lra|]. eapply Rle_trans; [apply HY|]. apply le_INR. lia. }
  pose proof (pow_exp_neg_incr (S (N + n)) y Y Hy Hk) as Hp.
  pose proof (INR_fact_lt_0 (S (N + n))) as Hf.
  assert (Hi : 0 < / INR (fact (S (N + n)))) by (now apply Rinv_0_lt_compat).
  apply (Rmult_le_compat_l (/ INR (fact (S (N + n))))) in Hp; [|lra].
  pose proof (exp_pos (- y)) as He.
  assert ((exp y - E1 y N) * exp (- y)
          <= (E1 y (N + n) - E1 y N
              + 2 * (/ INR (fact (S (N + n))) * y ^ S (N + n))) * exp (- y))
    by (apply Rmult_le_compat_r; lra).
  lra.
Qed.
End RelativeTail.

(** *** Partial sums at a rational point, to a given number of places *)

Lemma E1_floor_bounds A B N D :
  0 < B -> 0 < D ->
  (IZR (E1_floor A B N D) / IZR D <= E1 (IZR A / IZR B) N
   < (IZR (E1_floor A B N D) + 1) / IZR D)%R.
Proof.
  intros HB HD. unfold E1_floor.
  set (K := Zfact N * B ^ Z.of_nat N).
  assert (HK : 0 < K).
  { unfold K. apply Z.mul_pos_pos; [apply Zfact_pos | apply Z.pow_pos_nonneg; lia]. }
  pose proof (IZR_div_le (D * exp_sum_num A B N) K HK) as Hlo.
  pose proof (IZR_div_lt (D * exp_sum_num A B N) K HK) as Hhi.
  set (c := D * exp_sum_num A B N / K) in *.
  assert (HK' : (0 < IZR K)%R) by (now apply IZR_lt).
  assert (HD' : (0 < IZR D)%R) by (now apply IZR_lt).
  assert (E : (IZR (D * exp_sum_num A B N) / IZR K
               = IZR D * E1 (IZR A / IZR B) N)%R).
  { rewrite mult_IZR, exp_sum_num_spec by lia.
    unfold K. rewrite mult_IZR, IZR_Zfact, <- pow_IZR.
    assert (HB' : (0 < IZR B)%R) by (now apply IZR_lt).
    assert (HP : (0 < IZR B ^ N)%R) by (now apply pow_lt).
    pose proof (INR_fact_lt_0 N) as HF.
    set (e := E1 _ N). set (f := INR (fact N)) in *.
    set (bn := (IZR B ^ N)%R) in *. field. lra. }
  rewrite E in Hlo, Hhi. set (e := E1 _ N) in *. split.
  - apply Rmult_le_reg_r with (IZR D); [assumption|].
    unfold Rdiv. rewrite Rmult_assoc, Rinv_l, Rmult_1_r by lra. lra.
  - apply Rmult_lt_reg_r with (IZR D); [assumption|].
    unfold Rdiv. rewrite Rmult_assoc, Rinv_l, Rmult_1_r by lra. lra.
Qed.

Lemma series_term_le A B k D :
  0 <= A -> 0 < B -> 0 < D ->
  D * A ^ Z.of_nat k <= Zfact k * B ^ Z.of_nat k ->
  (/ INR (fact k) * (IZR A / IZR B) ^ k <= / IZR D)%R.
Proof.
  intros HA HB HD H. apply IZR_le in H.
  rewrite !mult_IZR, IZR_Zfact, <- !pow_IZR in H.
  assert (HB' : (0 < IZR B)%R) by (now apply IZR_lt).
  assert (HD' : (0 < IZR D)%R) by (now apply IZR_lt).
  assert (HP : (0 < IZR B ^ k)%R) by (now apply pow_lt).
  pose proof (INR_fact_lt_0 k) as HF.
  unfold Rdiv. rewrite Rpow_mult_distr, pow_inv.
  set (f := INR (fact k)) in *. set (bk := (IZR B ^ k)%R) in *.
  set (ak := (IZR A ^ k)%R) in *.
  apply Rmult_le_reg_r with (IZR D * f * bk)%R.
  { apply Rmult_lt_0_compat; [apply Rmult_lt_0_compat|]; assumption. }
  replace (/ f * (ak * / bk) * (IZR D * f * bk))%R with (IZR D * ak)%R
    by (field; lra).
  replace (/ IZR D * (IZR D * f * bk))%R with (f * bk)%R by (field; lra).
  exact H.
Qed.

Lemma E1_le_add y N n : (0 <= y)%R -> (E1 y N <= E1 y (N + n))%R.
Proof.
  intros Hy. induction n as [|n IH].
  - rewrite Nat.add_0_r. lra.
  - replace (N + S n)%nat with (S (N + n)) by lia. rewrite E1_S.
    assert (0 <= / INR (fact (S (N + n))) * y ^ S (N + n))%R.
    { apply Rmult_le_pos; [|now apply pow_le].
      left. apply Rinv_0_lt_compat, INR_fact_lt_0. }
    lra.
Qed.

(** *** The bound at 9.665 *)

Lemma tail_check_74 :
  (E1_floor 1933 200 60 (10 ^ 12) + 1 - E1_floor 1933 200 33 (10 ^ 12) + 2)
    * 10 ^ 11
  <= 93 * E1_floor 1933 200 33 (10 ^ 12).
Proof. vm_compute. discriminate. Qed.

Lemma term_61_check :
  10 ^ 12 * 1933 ^ Z.of_nat 61 <= Zfact 61 * 200 ^ Z.of_nat 61.
Proof. vm_compute. discriminate. Qed.

Lemma tail_at_arg_bound_74 :
  ((E1 arg_bound_74 (33 + 27) - E1 arg_bound_74 33
    + 2 * (/ INR (fact (S (33 + 27))) * arg_bound_74 ^ S (33 + 27)))
   * exp (- arg_bound_74) <= 93 / 100000000000)%R.
Proof.
  unfold arg_bound_74.
  pose proof (E1_floor_bounds 1933 200 33 (10 ^ 12) ltac:(reflexivity)
                ltac:(reflexivity)) as [L33 _].
  pose proof (E1_floor_bounds 1933 200 60 (10 ^ 12) ltac:(reflexivity)
                ltac:(reflexivity)) as [_ U60].
  pose proof (series_term_le 1933 200 61 (10 ^ 12) ltac:(discriminate)
                ltac:(reflexivity) ltac:(reflexivity) term_61_check) as T61.
  pose proof (IZR_le _ _ tail_check_74) as Hc.
  set (c33 := E1_floor 1933 200 33 (10 ^ 12)) in *.
  set (c60 := E1_floor 1933 200 60 (10 ^ 12)) in *.
  rewrite !mult_IZR, !plus_IZR, minus_IZR, plus_IZR in Hc.
  change (33 + 27)%nat with 60%nat. change (S 60) with 61%nat.
  set (Y := (IZR 1933 / IZR 200)%R) in *.
  assert (HY : (0 <= Y)%R).
  { unfold Y. apply Rmult_le_pos; [apply IZR_le; discriminate|].
    left. apply Rinv_0_lt_compat, IZR_lt. reflexivity. }
  pose proof (E1_le_add Y 33 27 HY) as Hmono.
  change (33 + 27)%nat with 60%nat in Hmono.
  pose proof (E1_lower Y 60 HY) as Hexp.
  set (e33 := E1 Y 33) in *. set (e60 := E1 Y 60) in *.
  set (t61 := (/ INR (fact 61) * Y ^ 61)%R) in *.
  assert (HD : IZR (10 ^ 12) = 1000000000000%R) by reflexivity.
  assert (H11 : IZR (10 ^ 11) = 100000000000%R) by reflexivity.
  rewrite HD in *. rewrite H11 in Hc.
  assert (Hc33 : (15000 * 1000000000000 <= IZR c33)%R).
  { rewrite <- mult_IZR. apply IZR_le. vm_compute. discriminate. }
  assert (He33 : (0 < e33)%R).
  { apply Rlt_le_trans with (IZR c33 / 1000000000000)%R; [|assumption].
    apply Rdiv_lt_0_compat; lra. }
  assert (Ht61 : (0 <= t61)%R).
  { unfold t61. apply Rmult_le_pos; [|now apply pow_le].
    left. apply Rinv_0_lt_compat, INR_fact_lt_0. }
  set (d := (e60 - e33 + 2 * t61)%R).
  assert (Hd0 : (0 <= d)%R) by (unfold d; lra).
  assert (Hd : (d <= 93 / 100000000000 * e33)%R).
  { unfold d.
    assert (IZR c33 <= 1000000000000 * e33)%R.
    { apply Rmult_le_reg_r with (/ 1000000000000)%R; [lra|].
      replace (1000000000000 * e33 * / 1000000000000)%R with e33 by (field; lra).
      exact L33. }
    assert (1000000000000 * e60 < IZR c60 + 1)%R.
    { apply Rmult_lt_reg_r with (/ 1000000000000)%R; [lra|].
      replace (1000000000000 * e60 * / 1000000000000)%R with e60 by (field; lra).
      exact U60. }
    assert (1000000000000 * t61 <= 1)%R.
    { apply Rmult_le_reg_r with (/ 1000000000000)%R; [lra|].
      replace (1000000000000 * t61 * / 1000000000000)%R with t61 by (field; lra).
      lra. }
    lra. }
  rewrite exp_Ropp.
  pose proof (exp_pos Y) as HeY.
  apply Rmult_le_reg_r with (exp Y); [assumption|].
  rewrite Rmult_assoc, Rinv_l, Rmult_1_r by lra.
  assert (93 / 100000000000 * e33 <= 93 / 100000000000 * exp Y)%R
    by (apply Rmult_le_compat_l; lra).
  lra.
Qed.

(** The first 34 terms of the series give [e^y] up to a relative error of
    9.3e-10, for every argument of at most 9.665. *)
Lemma exp_tail_74 y :
  (0 <= y <= arg_bound_74)%R ->
  (exp y * (1 - 93 / 100000000000) <= E1 y 33)%R.
Proof.
  intros Hy.
  assert (HY : (0 < arg_bound_74 <= INR 34)%R).
  { unfold arg_bound_74. rewrite INR_IZR_INZ. split.
    - apply Rdiv_lt_0_compat; apply IZR_lt; reflexivity.
    - apply Rmult_le_reg_r with (IZR 200); [apply IZR_lt; reflexivity|].
      unfold Rdiv. rewrite Rmult_assoc, Rinv_l, Rmult_1_r
        by (apply not_0_IZR; discriminate).
      rewrite <- mult_IZR. apply IZR_le. vm_compute. discriminate. }
  assert (H2 : (2 * arg_bound_74 <= INR (33 + 27) + 2)%R).
  { unfold arg_bound_74. rewrite INR_IZR_INZ.
    apply Rmult_le_reg_r with (IZR 200); [apply IZR_lt; reflexivity|].
    replace (2 * (IZR 1933 / IZR 200) * IZR 200)%R with (2 * IZR 1933)%R
      by (field; apply not_0_IZR; discriminate).
    rewrite <- (plus_IZR _ 2), <- !mult_IZR. apply IZR_le. vm_compute. discriminate. }
  pose proof (relative_tail y arg_bound_74 33 Hy HY 27 H2) as Hrel.
  pose proof tail_at_arg_bound_74 as Hnum.
  pose proof (exp_pos y) as He.
  assert (Hr : ((exp y - E1 y 33) * exp (- y) <= 93 / 100000000000)%R) by lra.
  rewrite exp_Ropp in Hr.
  apply (Rmult_le_compat_r (exp y)) in Hr; [|lra].
  rewrite Rmult_assoc, Rinv_l, Rmult_1_r in Hr by lra.
  lra.
Qed.

(** *** [power] at the precisions 74..127 *)

Lemma E1_11_33 : (E1 11 33 <= 59875)%R.
Proof.
  replace 11%R with (IZR 11 / IZR 1)%R by field.
  apply exp_sum_num_le; [reflexivity|]. vm_compute. discriminate.
Qed.

(** Below the argument bound 9.665 the truncations of [fixedExp] cost at
    most 5444 units of the last place. *)
Lemma fixedExp_lower_74 x p :
  0 <= x -> 0 <= p -> (IZR x / scale p <= arg_bound_74)%R ->
  (scale p * E1 (IZR x / scale p) 33 - 5444 <= IZR (fixedExp x p))%R.
Proof.
  intros Hx Hp Hy. unfold arg_bound_74 in Hy.
  pose proof (fixedExp_real_lower x p 11 Hx Hp) as H. fold (scale p) in H.
  specialize (H ltac:(lra)). pose proof E1_11_33 as H11. lra.
Qed.

Lemma tbl_74_bound : 200 * tbl 74 <= 1933 * FIXED_1.
Proof. vm_compute. discriminate. Qed.

Lemma scale_ge_74 p : 74 <= p -> (10000000000000000000000 <= scale p)%R.
Proof.
  intros Hp. rewrite scale_IZR by lia. apply IZR_le.
  transitivity (2 ^ 74); [vm_compute; discriminate|].
  apply Z.pow_le_mono_r; lia.
Qed.

(** At a precision of at least 74 the result of [power] is within 2^-30 of
    the real value, in relative terms. *)
Lemma power_lower_74 bN bD eN eD res p :
  1 <= bD -> bD <= bN -> 0 < eN <= 1000000 -> 0 < eD <= 1000000 ->
  power bN bD eN eD = Ok (res, p) -> 74 <= p ->
  (scale p * real_power bN bD eN eD * (1 - / 2 ^ 30) < IZR res)%R.
Proof.
  intros HbD HbN HeN HeD H Hp74.
  apply power_Ok in H. destruct H as (l & Hl & _ & Hp & ->).
  apply findPosition_range in Hp. destruct Hp as [Hp Htbl].
  pose proof (ln_nonneg _ _ _ HbD HbN Hl) as Hl0.
  pose proof (ln_lower _ _ _ HbD HbN Hl) as Hlow.
  set (L := Rln (IZR bN / IZR bD)) in *.
  assert (HL : (0 <= L)%R).
  { apply Rln_nonneg.
    assert (Hd : (0 < IZR bD)%R) by (apply IZR_lt; lia).
    apply Rmult_le_reg_r with (IZR bD); [assumption|].
    unfold Rdiv. rewrite Rmult_assoc, Rinv_l, Rmult_1_r, Rmult_1_l by lra.
    now apply IZR_le. }
  pose proof (exponent_arg_nonneg l eN eD p Hl0 ltac:(lia) ltac:(lia)) as Hx.
  pose proof (exponent_arg_lower l eN eD p L Hl0 HeN ltac:(lia)
                ltac:(unfold MAX_PRECISION; lia) HL Hlow) as Hy.
  unfold exponent_arg in Hx, Hy.
  set (q := l * eN / eD) in *.
  set (xa := Z.shiftr q (MAX_PRECISION - p)) in *.
  pose proof (scale_pos p) as HP. pose proof (scale_ge_74 p Hp74) as HP74.
  pose proof IZR_FIXED_1_pos as HF.
  set (y := (IZR xa / scale p)%R) in *.
  assert (Hy0 : (0 <= y)%R).
  { unfold y. apply Rmult_le_pos; [now apply IZR_le|].
    left. now apply Rinv_0_lt_compat. }
  assert (HyB : (y <= arg_bound_74)%R).
  { pose proof (IZR_shiftr_le q (MAX_PRECISION - p)
                  ltac:(unfold MAX_PRECISION; lia)) as Hs.
    fold (scale (MAX_PRECISION - p)) in Hs. fold xa in Hs.
    pose proof (scale_pos (MAX_PRECISION - p)) as HQ.
    pose proof (scale_split p ltac:(unfold MAX_PRECISION; lia)) as HS.
    pose proof (tbl_mono 74 p ltac:(lia) ltac:(lia)) as Hm.
    pose proof tbl_74_bound as H74.
    assert (HqB : (200 * IZR q <= 1933 * IZR FIXED_1)%R).
    { rewrite <- !mult_IZR. apply IZR_le. lia. }
    unfold y, arg_bound_74.
    apply Rmult_le_reg_r with (scale p * scale (MAX_PRECISION - p))%R;
      [now apply Rmult_lt_0_compat|].
    replace (IZR xa / scale p * (scale p * scale (MAX_PRECISION - p)))%R
      with (IZR xa * scale (MAX_PRECISION - p))%R by (field; lra).
    replace (scale p * scale (MAX_PRECISION - p))%R with (IZR FIXED_1)
      by (rewrite <- HS; ring).
    assert (IZR xa * scale (MAX_PRECISION - p) <= IZR q)%R; [|lra].
    apply Rmult_le_reg_r with (/ scale (MAX_PRECISION - p))%R;
      [now apply Rinv_0_lt_compat|].
    rewrite Rmult_assoc, Rinv_r, Rmult_1_r by lra. exact Hs. }
  pose proof (fixedExp_lower_74 xa p Hx ltac:(lia) HyB) as Hfe. fold y in Hfe.
  pose proof (exp_tail_74 y (conj Hy0 HyB)) as Htail.
  unfold real_power, Rpower. fold L.
  set (E := (IZR eN / IZR eD * L)%R) in *.
  assert (HE : (0 <= E)%R).
  { unfold E. apply Rmult_le_pos; [|assumption].
    apply Rmult_le_pos; [apply IZR_le; lia|].
    left. apply Rinv_0_lt_compat, IZR_lt. lia. }
  (* the loss in the exponent *)
  set (dlt := (4134000001 / IZR FIXED_1 + / scale p)%R).
  assert (Hd1 : (4134000001 / IZR FIXED_1 <= / 10000000000000000000000000000)%R).
  { apply Rmult_le_reg_r with (IZR FIXED_1 * 10000000000000000000000000000)%R; [lra|].
    replace (4134000001 / IZR FIXED_1 *
               (IZR FIXED_1 * 10000000000000000000000000000))%R
      with (4134000001 * 10000000000000000000000000000)%R by (field; lra).
    replace (/ 10000000000000000000000000000 *
               (IZR FIXED_1 * 10000000000000000000000000000))%R
      with (IZR FIXED_1) by (field; lra).
    rewrite <- mult_IZR. apply IZR_le. vm_compute. discriminate. }
  assert (Hd2 : (/ scale p <= / 10000000000000000000000)%R)
    by (apply Rinv_le_contravar; lra).
  assert (Hd0 : (0 < / scale p)%R) by (now apply Rinv_0_lt_compat).
  assert (Hd3 : (0 < 4134000001 / IZR FIXED_1)%R)
    by (apply Rdiv_lt_0_compat; lra).
  assert (Hexp : (exp E * (1 - dlt) <= exp y)%R).
  { assert (Hle : (E - dlt <= y)%R) by (unfold dlt; lra).
    apply exp_le in Hle.
    replace (E - dlt)%R with (E + - dlt)%R in Hle by ring.
    rewrite exp_plus in Hle.
    pose proof (exp_ineq1_le (- dlt)) as Hb. pose proof (exp_pos E) as HeE.
    assert ((exp E * (1 + - dlt) <= exp E * exp (- dlt))%R)
      by (apply Rmult_le_compat_l; lra).
    lra. }
  assert (HeE : (1 <= exp E)%R).
  { rewrite <- exp_0. now apply exp_le. }
  assert (H30 : (9313 / 10000000000000 <= / 2 ^ 30)%R).
  { replace (2 ^ 30)%R with (IZR (2 ^ Z.of_nat 30)) by (now rewrite <- pow_IZR).
    assert (Hz : (0 < IZR (2 ^ Z.of_nat 30))%R) by (apply IZR_lt; reflexivity).
    apply Rmult_le_reg_r with (IZR (2 ^ Z.of_nat 30) * 10000000000000)%R; [lra|].
    replace (9313 / 10000000000000 * (IZR (2 ^ Z.of_nat 30) * 10000000000000))%R
      with (9313 * IZR (2 ^ Z.of_nat 30))%R by (field; lra).
    replace (/ IZR (2 ^ Z.of_nat 30) * (IZR (2 ^ Z.of_nat 30) * 10000000000000))%R
      with 10000000000000%R by (field; lra).
    rewrite <- mult_IZR. apply IZR_le. vm_compute. discriminate. }
  set (h := (/ 2 ^ 30)%R) in *.
  set (rho := (93 / 100000000000)%R) in *.
  (* res >= P * exp y * (1 - rho) - 5444
         >= P * exp E * (1 - dlt) * (1 - rho) - 5444 *)
  assert (Hrho : (0 <= 1 - rho)%R) by (unfold rho; lra).
  assert (Hdlt : (0 <= dlt)%R) by (unfold dlt; lra).
  assert (A1 : (scale p * (exp y * (1 - rho)) <= scale p * E1 y 33)%R)
    by (apply Rmult_le_compat_l; lra).
  assert (A2 : (exp E * (1 - dlt) * (1 - rho) <= exp y * (1 - rho))%R)
    by (apply Rmult_le_compat_r; lra).
  assert (A3 : (scale p * (exp E * (1 - dlt) * (1 - rho))
                <= scale p * (exp y * (1 - rho)))%R)
    by (apply Rmult_le_compat_l; lra).
  set (k := (h - dlt - rho + dlt * rho)%R).
  assert (Hk : (12 / 10000000000000 <= k)%R).
  { assert (0 <= dlt * rho)%R by (apply Rmult_le_pos; unfold rho; lra).
    unfold k, dlt, rho in *. lra. }
  assert (B1 : (1 * k <= exp E * k)%R) by (apply Rmult_le_compat_r; lra).
  assert (B2 : (scale p * (12 / 10000000000000) <= scale p * (exp E * k))%R)
    by (apply Rmult_le_compat_l; lra).
  assert (B3 : (5444 < scale p * (12 / 10000000000000))%R) by lra.
  replace (scale p * exp E * (1 - h))%R
    with (scale p * (exp E * (1 - dlt) * (1 - rho)) - scale p * (exp E * k))%R
    by (unfold k; ring).
  lra.
Qed.

(** C3, amended: on the valid domain a successful [power] returns a
    precision in [32, 127] and a result that is at least 2^precision and at
    most the real value (baseN/baseD)^(expN/expD) * 2^precision; when the
    returned precision is at least 74 (the scaled logarithm is at most
    maxExpArray[74], about 9.66 * 2^127), the relative error is below 2^-30. *)
Theorem power_approximation bN bD eN eD res p :
  1 <= bD -> bD <= bN -> bN <= MAX_NUM ->
  0 < eN <= 1000000 -> 0 < eD <= 1000000 ->
  power bN bD eN eD = Ok (res, p) ->
  32 <= p <= 127 /\ 2 ^ p <= res /\
  (IZR res <= scale p * real_power bN bD eN eD)%R /\
  (74 <= p ->
   (Rabs (IZR res - scale p * real_power bN bD eN eD)
    < scale p * real_power bN bD eN eD / 2 ^ 30)%R).
Proof.
  intros HbD HbN _ HeN HeD H.
  destruct (power_result_lower bN bD eN eD res p) as [Hp Hres]; auto; try lia.
  pose proof (power_upper bN bD eN eD res p HbD HbN ltac:(lia) ltac:(lia) H) as Hup.
  repeat split; try lia; try assumption.
  intros Hp74.
  pose proof (power_lower_74 bN bD eN eD res p HbD HbN HeN HeD H Hp74) as Hlow.
  rewrite Rabs_left1 by lra. unfold Rdiv. lra.
Qed.

Lemma power_approximation_witness :
  32 <= 127 <= 127 /\ 2 ^ 127 <= 240615969168004511545033772477625056910 /\
  (IZR 240615969168004511545033772477625056910
   <= scale 127 * real_power 2 1 1 2)%R /\
  (74 <= 127 ->
   (Rabs (IZR 240615969168004511545033772477625056910
          - scale 127 * real_power 2 1 1 2)
    < scale 127 * real_power 2 1 1 2 / 2 ^ 30)%R).
Proof.
  apply (power_approximation 2 1 1 2); try lia.
  - unfold MAX_NUM. lia.
  - vm_compute. reflexivity.
Defined.

(** ** The round trip *)

Lemma IZR_MAX_CRR_pos : (0 < IZR MAX_CRR)%R.
Proof. apply IZR_lt. reflexivity. Qed.

(** The purchase return never exceeds the linear estimate
    [s * (c / 1000000) * (d / r)]. *)
Lemma purchase_le_linear s r c d t :
  valid_pool s r c -> 0 <= d ->
  calculatePurchaseReturn s r c d = Ok t ->
  t * MAX_CRR * r <= s * c * d.
Proof.
  intros Hv Hd H. pose proof Hv as (Hs & Hr & Hc).
  destruct (Z.eq_dec d 0) as [->|Hd0].
  { rewrite purchase_zero in H by assumption. injection H as <-. lia. }
  destruct (Z.eq_dec c MAX_CRR) as [->|Hc'].
  { rewrite purchase_linear in H by assumption.
    apply bind_Ok in H. destruct H as (m & Hm & H).
    apply safeMul_Ok in Hm. destruct Hm as [-> _].
    apply pydiv_Ok in H. destruct H as [_ ->].
    pose proof (Z.mul_div_le (s * d) r Hr). unfold MAX_CRR. nia. }
  apply purchase_Ok in H; auto. destruct H as (res & p & _ & Hpow & _ & ->).
  pose proof (purchase_subtraction_safe s r c d res p Hv Hd Hpow) as (Hp & Hres & _).
  pose proof (power_upper (d + r) r c MAX_CRR res p ltac:(lia) ltac:(lia)
                ltac:(lia) ltac:(reflexivity) Hpow) as Hup.
  unfold real_power, Rpower in Hup.
  assert (Hs' : (0 < IZR s)%R) by (now apply IZR_lt).
  assert (Hr' : (0 < IZR r)%R) by (now apply IZR_lt).
  assert (Hd' : (0 <= IZR d)%R) by (now apply IZR_le).
  assert (Hc1 : (0 < IZR c)%R) by (apply IZR_lt; lia).
  assert (Hc2 : (IZR c <= IZR MAX_CRR)%R) by (apply IZR_le; lia).
  pose proof IZR_MAX_CRR_pos as HM. pose proof (scale_pos p) as HP.
  set (a := (IZR c / IZR MAX_CRR)%R) in *.
  assert (Ha : (0 <= a <= 1)%R).
  { unfold a. split.
    - apply Rmult_le_pos; [lra | left; now apply Rinv_0_lt_compat].
    - apply Rmult_le_reg_r with (IZR MAX_CRR); [assumption|].
      unfold Rdiv. rewrite Rmult_assoc, Rinv_l, Rmult_1_r by lra. lra. }
  assert (Hy : (0 < IZR (d + r) / IZR r)%R)
    by (apply Rdiv_lt_0_compat; [apply IZR_lt; lia | assumption]).
  pose proof (exp_weighted_mean a _ Ha Hy) as Hw.
  replace (IZR (d + r) / IZR r - 1)%R with (IZR d / IZR r)%R in Hw
    by (rewrite plus_IZR; field; lra).
  (* s + t <= s * res / 2^p <= s * (1 + a * d / r) *)
  pose proof (IZR_shiftr_le (s * res) p ltac:(lia)) as Hsh.
  fold (scale p) in Hsh. rewrite mult_IZR in Hsh.
  set (T := Z.shiftr (s * res) p) in *.
  assert (H1 : (IZR T * scale p <= IZR s * IZR res)%R).
  { apply Rmult_le_reg_r with (/ scale p)%R; [now apply Rinv_0_lt_compat|].
    rewrite Rmult_assoc, Rinv_r, Rmult_1_r by lra. exact Hsh. }
  assert (H2 : (IZR s * IZR res
                <= IZR s * (scale p * (1 + a * (IZR d / IZR r))))%R).
  { apply Rmult_le_compat_l; [lra|]. eapply Rle_trans; [exact Hup|].
    apply Rmult_le_compat_l; lra. }
  assert (H3 : (IZR T <= IZR s * (1 + a * (IZR d / IZR r)))%R).
  { apply Rmult_le_reg_r with (scale p); [assumption|]. lra. }
  assert (H4 : (IZR (T - s) * (IZR MAX_CRR * IZR r) <= IZR s * IZR c * IZR d)%R).
  { rewrite minus_IZR.
    replace (IZR s * IZR c * IZR d)%R
      with (IZR s * (a * (IZR d / IZR r)) * (IZR MAX_CRR * IZR r))%R
      by (unfold a; field; lra).
    apply Rmult_le_compat_r; [|lra].
    left. now apply Rmult_lt_0_compat. }
  rewrite <- !mult_IZR in H4. apply le_IZR in H4. lia.
Qed.

(** The sale return never exceeds the real value
    [r * (1 - (1 - t/s) ^ (1000000 / c))]. *)
Lemma sale_upper s r c t back :
  valid_pool s r c -> 0 < t < s -> c <> MAX_CRR ->
  calculateSaleReturn s r c t = Ok back ->
  (IZR back
   <= IZR r * (1 - exp (IZR MAX_CRR / IZR c * Rln (IZR (s - t) / IZR s))))%R.
Proof.
  intros Hv Ht Hc' H. pose proof Hv as (Hs & Hr & Hc).
  apply sale_Ok in H; auto; try lia.
  destruct H as (res & p & Hpow & _ & _ & ->).
  pose proof (sale_subtraction_safe s r c t res p Hv ltac:(lia) Hpow)
    as (Hp & Hres & Hsub & _).
  pose proof (power_upper s (s - t) MAX_CRR c res p ltac:(lia) ltac:(lia)
                ltac:(discriminate) ltac:(lia) Hpow) as Hup.
  unfold real_power, Rpower in Hup.
  assert (Hs' : (0 < IZR s)%R) by (now apply IZR_lt).
  assert (Hst : (0 < IZR (s - t))%R) by (apply IZR_lt; lia).
  assert (Hr' : (0 < IZR r)%R) by (now apply IZR_lt).
  pose proof (scale_pos p) as HP.
  assert (H2p : 0 < 2 ^ p) by (apply Z.pow_pos_nonneg; lia).
  assert (Hres' : (0 < IZR res)%R) by (apply IZR_lt; lia).
  rewrite Rln_div in * by assumption.
  set (k := (IZR MAX_CRR / IZR c)%R) in *.
  replace (k * (Rln (IZR (s - t)) - Rln (IZR s)))%R
    with (- (k * (Rln (IZR s) - Rln (IZR (s - t)))))%R by ring.
  set (e := (k * (Rln (IZR s) - Rln (IZR (s - t))))%R) in *.
  rewrite exp_Ropp. pose proof (exp_pos e) as He.
  eapply Rle_trans; [apply IZR_div_le; lia|].
  rewrite minus_IZR, mult_IZR, Z.shiftl_mul_pow2, mult_IZR,
    <- scale_IZR by lia.
  replace ((IZR r * IZR res - IZR r * scale p) / IZR res)%R
    with (IZR r * (1 - scale p / IZR res))%R by (field; lra).
  apply Rmult_le_compat_l; [lra|].
  assert (/ exp e <= scale p / IZR res)%R; [|lra].
  apply Rmult_le_reg_r with (IZR res * exp e)%R;
    [now apply Rmult_lt_0_compat|].
  replace (/ exp e * (IZR res * exp e))%R with (IZR res) by (field; lra).
  replace (scale p / IZR res * (IZR res * exp e))%R with (scale p * exp e)%R
    by (field; lra).
  exact Hup.
Qed.

(** [1 - w <= (1 - u) ^ (1 / a)] when [u <= a * w]: the real inequality
    behind the round trip. *)
Lemma round_trip_real a u w :
  (0 < a <= 1)%R -> (0 <= u < 1)%R -> (u <= a * w)%R ->
  (1 - w <= exp (/ a * Rln (1 - u)))%R.
Proof.
  intros Ha Hu Huw.
  destruct (Rle_lt_dec 1 w) as [Hw|Hw].
  { pose proof (exp_pos (/ a * Rln (1 - u))). lra. }
  pose proof (exp_weighted_mean a (1 - w) ltac:(lra) ltac:(lra)) as Hm.
  assert (Hle : (exp (a * Rln (1 - w)) <= 1 - u)%R) by lra.
  assert (Hln : (a * Rln (1 - w) <= Rln (1 - u))%R).
  { rewrite <- (ln_exp (a * Rln (1 - w))). apply Rln_le; [apply exp_pos | exact Hle]. }
  rewrite <- (exp_ln (1 - w)) at 1 by lra. apply exp_le.
  assert (Hinv : (0 < / a)%R) by (apply Rinv_0_lt_compat; lra).
  apply (Rmult_le_compat_l (/ a)) in Hln; [|lra].
  rewrite <- Rmult_assoc, Rinv_l, Rmult_1_l in Hln by lra. exact Hln.
Qed.

(** C1: on a valid pool state, when a deposit [d] buys [t] tokens and the
    sale of [t] tokens at the same pool state succeeds, the sale returns at
    most [d]. *)
Theorem round_trip_bound s r c d t back :
  valid_pool s r c -> 0 <= d ->
  calculatePurchaseReturn s r c d = Ok t ->
  calculateSaleReturn s r c t = Ok back ->
  back <= d.
Proof.
  intros Hv Hd Hbuy Hsell. pose proof Hv as (Hs & Hr & Hc).
  pose proof (purchase_nonneg s r c d t Hv Hd Hbuy) as Ht0.
  pose proof (purchase_le_linear s r c d t Hv Hd Hbuy) as Hlin.
  assert (Hts : t <= s).
  { unfold calculateSaleReturn in Hsell. apply bind_Ok in Hsell.
    destruct Hsell as (u & Hu & _). apply assert_Ok_inv in Hu.
    rewrite !andb_true_iff in Hu. lia. }
  destruct (Z.eq_dec t 0) as [->|Ht].
  { rewrite sale_zero in Hsell by assumption. injection Hsell as <-. lia. }
  destruct (Z.eq_dec t s) as [->|Hts'].
  { rewrite sale_all in Hsell by assumption. injection Hsell as <-.
    assert (MAX_CRR * r <= c * d).
    { apply Z.mul_le_mono_pos_l with s; [assumption|]. lia. }
    assert (c * d <= MAX_CRR * d) by (apply Z.mul_le_mono_nonneg_r; lia).
    unfold MAX_CRR in *. lia. }
  destruct (Z.eq_dec c MAX_CRR) as [->|Hc'].
  { rewrite sale_linear in Hsell by lia.
    apply bind_Ok in Hsell. destruct Hsell as (m & Hm & Hsell).
    apply safeMul_Ok in Hm. destruct Hm as [-> _].
    apply pydiv_Ok in Hsell. destruct Hsell as [_ ->].
    apply Z.div_le_upper_bound; [lia|].
    apply Z.mul_le_mono_pos_l with MAX_CRR; [reflexivity|]. lia. }
  pose proof (sale_upper s r c t back Hv ltac:(lia) Hc' Hsell) as Hup.
  assert (Hs' : (0 < IZR s)%R) by (now apply IZR_lt).
  assert (Hr' : (0 < IZR r)%R) by (now apply IZR_lt).
  assert (Hc1 : (0 < IZR c)%R) by (apply IZR_lt; lia).
  assert (Hc2 : (IZR c <= IZR MAX_CRR)%R) by (apply IZR_le; lia).
  pose proof IZR_MAX_CRR_pos as HM.
  set (a := (IZR c / IZR MAX_CRR)%R).
  set (u := (IZR t / IZR s)%R).
  set (w := (IZR d / IZR r)%R).
  assert (Ha : (0 < a <= 1)%R).
  { unfold a. split.
    - now apply Rdiv_lt_0_compat.
    - apply Rmult_le_reg_r with (IZR MAX_CRR); [assumption|].
      unfold Rdiv. rewrite Rmult_assoc, Rinv_l, Rmult_1_r by lra. lra. }
  assert (Hu : (0 <= u < 1)%R).
  { unfold u. split.
    - apply Rmult_le_pos; [apply IZR_le; lia | left; now apply Rinv_0_lt_compat].
    - apply Rmult_lt_reg_r with (IZR s); [assumption|].
      unfold Rdiv. rewrite Rmult_assoc, Rinv_l, Rmult_1_r, Rmult_1_l by lra.
      apply IZR_lt. lia. }
  assert (Huw : (u <= a * w)%R).
  { apply IZR_le in Hlin. rewrite !mult_IZR in Hlin.
    apply Rmult_le_reg_r with (IZR s * IZR MAX_CRR * IZR r)%R;
      [apply Rmult_lt_0_compat; [apply Rmult_lt_0_compat|]; assumption|].
    replace (u * (IZR s * IZR MAX_CRR * IZR r))%R
      with (IZR t * IZR MAX_CRR * IZR r)%R by (unfold u; field; lra).
    replace (a * w * (IZR s * IZR MAX_CRR * IZR r))%R
      with (IZR s * IZR c * IZR d)%R by (unfold a, w; field; lra).
    exact Hlin. }
  pose proof (round_trip_real a u w Ha Hu Huw) as Hrt.
  replace (/ a)%R with (IZR MAX_CRR / IZR c)%R in Hrt by (unfold a; field; lra).
  replace (1 - u)%R with (IZR (s - t) / IZR s)%R in Hrt
    by (unfold u; rewrite minus_IZR; field; lra).
  apply le_IZR. eapply Rle_trans; [exact Hup|].
  replace (IZR d) with (IZR r * w)%R by (unfold w; field; lra).
  apply Rmult_le_compat_l; lra.
Qed.

Lemma round_trip_bound_witness : 656 <= 1000.
Proof.
  apply (round_trip_bound 1000 1000 500000 1000 414 656).
  - unfold valid_pool, MAX_CRR. lia.
  - lia.
  - vm_compute. reflexivity.
  - vm_compute. reflexivity.
Defined.

(** * Further properties of the module *)

(** ** floorLog2 *)

(** X1: for a positive input of at most 256 bits, [floorLog2] returns the
    exponent [e] of the largest power of two that is at most the input:
    [2^e <= n < 2^(e+1)], with [0 <= e <= 255]. *)
Theorem floorLog2_brackets n :
  0 < n < 2 ^ 256 ->
  0 <= floorLog2 n <= 255 /\ 2 ^ floorLog2 n <= n < 2 ^ (floorLog2 n + 1).
Proof.
  intros Hn. rewrite floorLog2_correct by assumption.
  pose proof (Z.log2_spec n ltac:(lia)) as H.
  pose proof (Z.log2_nonneg n).
  assert (Z.log2 n < 256) by (apply Z.log2_lt_pow2; lia).
  rewrite <- Z.add_1_r in H. lia.
Qed.

Lemma floorLog2_brackets_witness :
  0 <= floorLog2 1000 <= 255 /\
  2 ^ floorLog2 1000 <= 1000 < 2 ^ (floorLog2 1000 + 1).
Proof. apply (floorLog2_brackets 1000). lia. Defined.

Lemma floorLog2_widths_saturate j n res :
  2 ^ (2 ^ (Z.of_nat j + 1)) <= n -> res mod 2 ^ (Z.of_nat j + 1) = 0 ->
  snd (fold_left floorLog2_step (widths_from j) (n, res))
  = res + 2 ^ (Z.of_nat j + 1) - 1.
Proof.
  revert n res. induction j as [|j IH]; intros n res Hn Hres.
  - cbn [widths_from fold_left floorLog2_step].
    change (Z.shiftl ONE 1) with 2. change (2 ^ 2 ^ (Z.of_nat 0 + 1)) with 4 in Hn.
    destruct (Z.geb_spec n 2); [|lia]. cbn [snd].
    pose proof (lor_pow2 res 0 ltac:(lia) Hres) as E.
    change (2 ^ 0) with 1 in E. rewrite E.
    change (2 ^ (Z.of_nat 0 + 1)) with 2. lia.
  - cbn [widths_from fold_left floorLog2_step].
    set (s := 2 ^ Z.of_nat (S j)).
    assert (Hs : 0 < s) by (apply Z.pow_pos_nonneg; lia).
    assert (Hs2 : 2 ^ (Z.of_nat (S j) + 1) = s + s).
    { unfold s. rewrite Z.pow_add_r by lia. lia. }
    assert (Hs' : s = 2 ^ (Z.of_nat j + 1)) by (unfold s; f_equal; lia).
    rewrite Hs2 in Hn |- *.
    unfold ONE. rewrite Z.shiftl_1_l.
    assert (Hpow : 2 ^ (s + s) = 2 ^ s * 2 ^ s) by (apply Z.pow_add_r; lia).
    assert (H2s : 0 < 2 ^ s) by (apply Z.pow_pos_nonneg; lia).
    destruct (Z.geb_spec n (2 ^ s)) as [Hge|Hlt]; [|nia].
    unfold s at 2. rewrite lor_pow2 by (assumption || lia). fold s.
    rewrite IH.
    + rewrite <- Hs'. lia.
    + rewrite <- Hs'. rewrite Z.shiftr_div_pow2 by lia.
      apply Z.div_le_lower_bound; lia.
    + rewrite Hs' at 1. rewrite <- Zplus_mod_idemp_r, Z.mod_same
        by (apply Z.pow_nonzero; lia).
      rewrite Z.add_0_r.
      apply Z.mod_divide; [apply Z.pow_nonzero; lia|].
      apply Z.mod_divide in Hres; [|apply Z.pow_nonzero; lia].
      destruct Hres as [q ->]. exists (q * 2).
      replace (Z.of_nat (S j) + 1) with (Z.of_nat j + 1 + 1) by lia.
      rewrite (Z.pow_add_r _ _ 1) by lia. change (2 ^ 1) with 2. lia.
Qed.

(** X2: outside that range [floorLog2] does not fail: an input of at most 1
    (0 and negative numbers included) gives 0, and an input of 2^256 or more
    gives 255 whatever its size. *)
Theorem floorLog2_outside_domain n :
  (n <= 1 -> floorLog2 n = 0) /\ (2 ^ 256 <= n -> floorLog2 n = 255).
Proof.
  split; intros Hn; unfold floorLog2.
  - replace (n <? 256) with true by lia. cbn [floorLog2_small].
    replace (n >? 1) with false by lia. reflexivity.
  - replace (n <? 256) with false by lia. cbv zeta.
    rewrite floorLog2_big_fold, floorLog2_widths_eq.
    rewrite floorLog2_widths_saturate; [reflexivity | exact Hn | reflexivity].
Qed.

Lemma floorLog2_outside_domain_witness :
  floorLog2 0 = 0 /\ floorLog2 (2 ^ 300) = 255.
Proof.
  destruct (floorLog2_outside_domain 0) as [H0 _].
  destruct (floorLog2_outside_domain (2 ^ 300)) as [_ H1].
  split; [apply H0 | apply H1]; lia.
Defined.

(** ** Checked arithmetic *)

(** X3: [safeSub] undoes [safeAdd]: when [safeAdd(x, y)] returns [z] for a
    nonnegative [x], [safeSub(z, y)] returns [x]; and [safeSub(x, y)] fails
    with an underflow exactly when [y > x]. *)
Theorem safeSub_undoes_safeAdd x y :
  (forall z, 0 <= x -> safeAdd x y = Ok z -> safeSub z y = Ok x) /\
  (safeSub x y = Err ArithmeticUnderflow <-> x < y).
Proof.
  split.
  - intros z Hx H. apply safeAdd_Ok in H. destruct H as [-> _].
    unfold safeSub, assert. replace (x + y - y >=? 0) with true by lia.
    cbn [bind]. f_equal. lia.
  - unfold safeSub, assert. destruct (Z.geb_spec (x - y) 0) as [Hge|Hlt];
      cbn [bind]; split; intros Hc; try discriminate; try reflexivity; lia.
Qed.

Lemma safeSub_undoes_safeAdd_witness : safeSub (5 + 7) 7 = Ok 5.
Proof.
  apply (proj1 (safeSub_undoes_safeAdd 5 7) (5 + 7)); [lia | reflexivity].
Defined.

(** ** ln *)

(** X4: [ln] fails with [NumeratorOutOfRange] exactly when the numerator
    exceeds MAX_NUM (the denominator is not looked at before), and with
    [ZeroDivisionError] exactly when the numerator is in range and the
    denominator is 0. *)
Theorem ln_failures n d :
  (ln n d = Err NumeratorOutOfRange <-> MAX_NUM < n) /\
  (ln n d = Err ZeroDivisionError <-> n <= MAX_NUM /\ d = 0).
Proof.
  rewrite ln_unfold. unfold assert, pydiv.
  destruct (Z.leb_spec n MAX_NUM) as [Hn|Hn]; cbn [bind];
    destruct (Z.eqb_spec d 0) as [Hd|Hd]; cbn [bind];
    repeat split; intros; try discriminate; try lia; try reflexivity;
    try (destruct H; lia).
Qed.

Lemma ln_small_ratio n d :
  0 <= n -> n <= d -> 1 <= d -> n <= MAX_NUM -> ln n d = Ok 0.
Proof.
  intros Hn Hnd Hd Hmax. rewrite ln_defined by lia. f_equal.
  assert (Hx : n * FIXED_1 / d <= FIXED_1).
  { apply Z.div_le_upper_bound; [lia|]. unfold FIXED_1. nia. }
  set (x := n * FIXED_1 / d) in *.
  unfold log2_fixed, ln_int.
  destruct (Z.geb_spec x FIXED_2) as [H2|H2];
    [unfold FIXED_1, FIXED_2 in *; lia|].
  unfold ln_frac. destruct (Z.gtb_spec x FIXED_1) as [H1|H1]; [lia|].
  reflexivity.
Qed.

(** X5: on a ratio of at most 1 ([0 <= n <= d], [d >= 1], [n <= MAX_NUM])
    [ln] returns 0 and not a negative number; in particular [ln(n, n) = 0]. *)
Theorem ln_of_ratio_at_most_1 n d :
  0 <= n -> n <= d -> 1 <= d -> n <= MAX_NUM -> ln n d = Ok 0.
Proof. apply ln_small_ratio. Qed.

Lemma ln_of_ratio_at_most_1_witness : ln 1000 1000 = Ok 0.
Proof. apply (ln_of_ratio_at_most_1 1000 1000); unfold MAX_NUM; lia. Defined.

(** X6: [ln] grows with its numerator and shrinks when its denominator
    grows, on ratios of at least 1. *)
Theorem ln_monotone n1 n2 d1 d2 l1 l2 :
  1 <= d2 -> d2 <= d1 -> d1 <= n1 -> n1 <= n2 ->
  ln n1 d1 = Ok l1 -> ln n2 d2 = Ok l2 -> l1 <= l2.
Proof.
  intros Hd2 Hd Hn1 Hn H1 H2.
  apply (ln_mono n1 d1 n2 d2 l1 l2); try lia; try assumption.
  transitivity (n1 * FIXED_1 / d2).
  - apply Z.div_le_compat_l; [unfold FIXED_1; nia | lia].
  - apply Z.div_le_mono; [lia|]. unfold FIXED_1. nia.
Qed.

Lemma ln_monotone_witness :
  117932881612756647068972071382077242176
  <= 186919194958206833801747092330235412021.
Proof.
  apply (ln_monotone 2 3 1 1); try lia; vm_compute; reflexivity.
Defined.

(** X7: on its domain ([1 <= d <= n <= MAX_NUM]) [ln] returns a value [l]
    with [ln(n/d) * 2^127 - 4134 <= l <= ln(n/d) * 2^127], [ln] on the right
    being the real natural logarithm: a nonnegative lower approximation
    that is at most 4134 units of 2^-127 short. *)
Theorem ln_accuracy n d :
  1 <= d -> d <= n -> n <= MAX_NUM ->
  exists l,
    ln n d = Ok l /\ 0 <= l /\
    (IZR FIXED_1 * Rln (IZR n / IZR d) - 4134 <= IZR l
     <= IZR FIXED_1 * Rln (IZR n / IZR d))%R.
Proof.
  intros Hd Hdn Hn.
  pose proof (ln_defined n d Hn ltac:(lia)) as E.
  eexists. split; [exact E|].
  split; [eapply ln_nonneg; eauto|].
  split; [eapply ln_lower; eauto | eapply ln_upper; eauto].
Qed.

Lemma ln_accuracy_witness :
  exists l,
    ln 3 2 = Ok l /\ 0 <= l /\
    (IZR FIXED_1 * Rln (IZR 3 / IZR 2) - 4134 <= IZR l
     <= IZR FIXED_1 * Rln (IZR 3 / IZR 2))%R.
Proof. apply (ln_accuracy 3 2); unfold MAX_NUM; lia. Defined.

(** ** fixedExp *)

Lemma fixedExp_fold_zero p cs xi res :
  snd (fold_left (fixedExp_step 0 p) cs (xi, res)) = res.
Proof.
  revert xi res. induction cs as [|c cs IH]; intros xi res; [reflexivity|].
  cbn [fold_left fixedExp_step].
  rewrite Z.mul_0_r, Z.shiftr_0_l, Z.mul_0_l, Z.add_0_r. apply IH.
Qed.

Lemma fixedExp_zero p : 0 <= p -> fixedExp 0 p = 2 ^ p.
Proof.
  intros Hp. rewrite fixedExp_fold, fixedExp_fold_zero.
  unfold ONE. rewrite Z.shiftl_1_l. reflexivity.
Qed.

(** X8: at the argument 0 [fixedExp] is exact: it returns [2^precision],
    the representation of e^0 = 1. *)
Theorem fixedExp_at_zero p : 0 <= p -> fixedExp 0 p = 2 ^ p.
Proof. apply fixedExp_zero. Qed.

Lemma fixedExp_at_zero_witness : fixedExp 0 32 = 2 ^ 32.
Proof. apply (fixedExp_at_zero 32). lia. Defined.

(** X9: at a fixed precision [fixedExp] is non-decreasing in its argument. *)
Theorem fixedExp_monotone x1 x2 p :
  0 <= x1 -> x1 <= x2 -> 0 <= p -> fixedExp x1 p <= fixedExp x2 p.
Proof. intros H1 H12 Hp. apply fixedExp_mono; lia. Qed.

Lemma fixedExp_monotone_witness : fixedExp 5 32 <= fixedExp 6 32.
Proof. apply (fixedExp_monotone 5 6 32); lia. Defined.

(** ** The precision selector *)

(** X10: the selected precision never grows with the argument: for
    [x1 <= x2] on which the selector succeeds, the precision of [x2] is at
    most that of [x1]; and every [x] up to [maxExpArray[127]] (0 and
    negative numbers included) gets the precision 127. *)
Theorem findPositionInMaxExpArray_antitone x1 x2 :
  (forall p1 p2,
     x1 <= x2 ->
     findPositionInMaxExpArray x1 = Ok p1 ->
     findPositionInMaxExpArray x2 = Ok p2 -> p2 <= p1) /\
  (x1 <= 0x00857ddf0117efa215952912839f6473e6 ->
   findPositionInMaxExpArray x1 = Ok 127).
Proof.
  split.
  - intros p1 p2 Hx H1 H2.
    destruct (findPosition_cases x1) as [(k & E & Hk & Hxk & Hmax)|[E _]];
      rewrite E in H1; [|discriminate]. injection H1 as <-.
    apply findPosition_range in H2. destruct H2 as [Hp2 Hx2].
    apply Hmax; lia.
  - intros Hx.
    destruct (findPosition_cases x1) as [(k & E & Hk & Hxk & Hmax)|[E Hnone]].
    + rewrite E. f_equal.
      specialize (Hmax 127 ltac:(lia) Hx). lia.
    + specialize (Hnone 127 ltac:(lia)).
      change (tbl 127) with 0x00857ddf0117efa215952912839f6473e6 in Hnone. lia.
Qed.

Lemma findPositionInMaxExpArray_antitone_witness :
  findPositionInMaxExpArray 0 = Ok 127.
Proof.
  apply (proj2 (findPositionInMaxExpArray_antitone 0 0)). lia.
Defined.

(** ** power *)

Lemma findPosition_zero : findPositionInMaxExpArray 0 = Ok 127.
Proof. vm_compute. reflexivity. Qed.

(** X11: a base of ratio 1 gives exactly 1: for [1 <= n <= MAX_NUM] and a
    nonzero [expD], [power(n, n, expN, expD)] returns [(2^127, 127)]
    whatever the exponent. *)
Theorem power_of_one n eN eD :
  1 <= n -> n <= MAX_NUM -> eD <> 0 ->
  power n n eN eD = Ok (2 ^ 127, 127).
Proof.
  intros Hn Hmax HeD. unfold power.
  rewrite (ln_small_ratio n n) by lia. cbn [bind].
  rewrite Z.mul_0_l, pydiv_pos by assumption.
  rewrite Z.div_0_l by assumption. cbn [bind].
  rewrite findPosition_zero. cbn [bind].
  change (MAX_PRECISION - 127) with 0. rewrite Z.shiftr_0_r.
  rewrite fixedExp_zero by lia. reflexivity.
Qed.

Lemma power_of_one_witness : power 1000 1000 3 7 = Ok (2 ^ 127, 127).
Proof. apply (power_of_one 1000 3 7); unfold MAX_NUM; lia. Defined.

(** ** The 256-bit word of the Solidity original *)

Lemma precision_In p : 32 <= p <= 127 -> In p (map Z.of_nat (seq 32 96)).
Proof.
  intros Hp. apply in_map_iff. exists (Z.to_nat p). split; [lia|].
  apply in_seq. lia.
Qed.

Lemma fixedExp_fits_check :
  forallb fixedExp_fits_at (map Z.of_nat (seq 32 96)) = true.
Proof. vm_compute. reflexivity. Qed.

Lemma fixedExp_overflows_check :
  forallb fixedExp_overflows_after (map Z.of_nat (seq 32 96)) = true.
Proof. vm_compute. reflexivity. Qed.

Lemma low_bits_check : forallb low_bits_set (map Z.of_nat (seq 32 96)) = true.
Proof. vm_compute. reflexivity. Qed.

Lemma last_cons_default (a d : Z) l : last (a :: l) d = last l a.
Proof.
  revert a d. induction l as [|b l IH]; intros a d; [reflexivity|].
  change (last (a :: b :: l) d) with (last (b :: l) d).
  rewrite (IH b d), (IH b a). reflexivity.
Qed.

(** The listed values are those of the run: the last one is the sum that
    [fixedExp] divides. *)
Lemma fixedExp_values_last x p cs xi res :
  last (fixedExp_values x p cs xi res) res
  = snd (fold_left (fixedExp_step x p) cs (xi, res)).
Proof.
  revert xi res. induction cs as [|c cs IH]; intros xi res; [reflexivity|].
  cbn [fixedExp_values fold_left fixedExp_step].
  rewrite <- IH. now rewrite !last_cons_default.
Qed.

Lemma fixedExp_values_mono p cs :
  Forall (fun c => 0 <= c) cs -> 0 <= p ->
  forall x1 x2 xi1 xi2 res1 res2,
    0 <= x1 <= x2 -> 0 <= xi1 <= xi2 -> res1 <= res2 ->
    Forall2 Z.le (fixedExp_values x1 p cs xi1 res1)
                 (fixedExp_values x2 p cs xi2 res2).
Proof.
  intros Hcs Hp.
  induction Hcs as [|c cs Hc _ IH]; intros x1 x2 xi1 xi2 res1 res2 Hx Hxi Hres;
    [constructor|].
  cbn [fixedExp_values].
  assert (0 <= Z.shiftr (xi1 * x1) p) by (apply Z.shiftr_nonneg; nia).
  assert (Z.shiftr (xi1 * x1) p <= Z.shiftr (xi2 * x2) p).
  { rewrite !Z.shiftr_div_pow2 by assumption.
    apply Z.div_le_mono; [apply Z.pow_pos_nonneg; lia | nia]. }
  repeat constructor; try nia.
  apply IH; try lia. nia.
Qed.

Lemma Forall2_le_Forall_lt l1 l2 B :
  Forall2 Z.le l1 l2 -> Forall (fun v => v < B) l2 -> Forall (fun v => v < B) l1.
Proof.
  induction 1 as [|a b l1 l2 Hab _ IH]; intros H; [constructor|].
  inversion H; subst. constructor; [lia | auto].
Qed.

Lemma fits_256_Forall l :
  forallb fits_256 l = true <-> Forall (fun v => v < 2 ^ 256) l.
Proof.
  rewrite forallb_forall, Forall_forall. unfold fits_256.
  split; intros H v Hv; specialize (H v Hv); lia.
Qed.

Lemma fits_256_Forall_1 (l : list Z) :
  forallb fits_256 l = true -> Forall (fun v => v < 2 ^ 256) l.
Proof. intros Hv. exact (proj1 (fits_256_Forall _) Hv). Qed.

Lemma fits_256_lt (v : Z) : fits_256 v = true -> v < 2 ^ 256.
Proof. unfold fits_256. intros Hr. apply Z.ltb_lt. exact Hr. Qed.

Lemma fixedExp_fits_at_all p : 32 <= p <= 127 -> fixedExp_fits_at p = true.
Proof.
  intros Hp.
  exact (proj1 (forallb_forall _ _) fixedExp_fits_check p (precision_In p Hp)).
Qed.

Lemma fixedExp_fits_at_max p :
  32 <= p <= 127 ->
  Forall (fun v => v < 2 ^ 256)
    (fixedExp_values (max_permitted p) p fixedExp_coefficients (max_permitted p) 0)
  /\ fixedExp (max_permitted p) p < 2 ^ 256.
Proof.
  intros Hp. pose proof (fixedExp_fits_at_all p Hp) as H.
  unfold fixedExp_fits_at in H.
  pose proof (proj1 (andb_prop _ _ H)) as Hv.
  pose proof (proj2 (andb_prop _ _ H)) as Hr.
  split.
  - apply fits_256_Forall_1. exact Hv.
  - apply fits_256_lt. exact Hr.
Qed.

Lemma fixedExp_fits x p :
  32 <= p <= 127 -> 0 <= x <= max_permitted p ->
  Forall (fun v => v < 2 ^ 256) (fixedExp_values x p fixedExp_coefficients x 0) /\
  fixedExp x p < 2 ^ 256.
Proof.
  intros Hp Hx. destruct (fixedExp_fits_at_max p Hp) as [Hv Hr].
  destruct Hx as [Hx0 Hx1]. split.
  - apply (Forall2_le_Forall_lt _ _ _ 
             (fixedExp_values_mono p fixedExp_coefficients
                fixedExp_coefficients_nonneg (Z.le_trans 0 32 p ltac:(discriminate) (proj1 Hp))
                x (max_permitted p) x (max_permitted p) 0 0
                (conj Hx0 Hx1) (conj Hx0 Hx1) (Z.le_refl 0)) Hv).
  - pose proof (fixedExp_mono x (max_permitted p) p (conj Hx0 Hx1)
                  (Z.le_trans 0 32 p ltac:(discriminate) (proj1 Hp))) as Hm.
    exact (Z.le_lt_trans _ _ _ Hm Hr).
Qed.

Lemma fixedExp_overflows_after_all p :
  32 <= p <= 127 -> fixedExp_overflows_after p = true.
Proof.
  intros Hp.
  exact (proj1 (forallb_forall _ _) fixedExp_overflows_check p (precision_In p Hp)).
Qed.

Lemma max_permitted_nonneg p : 32 <= p <= 127 -> 0 <= max_permitted p.
Proof.
  intros Hp. unfold max_permitted. apply Z.shiftr_nonneg.
  pose proof (tbl_mono p 127 ltac:(lia) ltac:(lia)) as Ht.
  assert (0 <= tbl 127) by (vm_compute; discriminate). lia.
Qed.

Lemma fixedExp_overflows x p :
  32 <= p <= 127 -> max_permitted p < x ->
  ~ Forall (fun v => v < 2 ^ 256) (fixedExp_values x p fixedExp_coefficients x 0).
Proof.
  intros Hp Hx Hall. pose proof (fixedExp_overflows_after_all p Hp) as H.
  unfold fixedExp_overflows_after in H.
  destruct (proj1 (existsb_exists _ _) H) as (v & Hin & Hv).
  unfold fits_256 in Hv.
  pose proof (max_permitted_nonneg p Hp) as Hm.
  assert (Hp0 : 0 <= p) by lia.
  assert (H1 : 0 <= max_permitted p + 1 <= x) by lia.
  pose proof (fixedExp_values_mono p fixedExp_coefficients
                fixedExp_coefficients_nonneg Hp0
                (max_permitted p + 1) x (max_permitted p + 1) x 0 0
                H1 H1 (Z.le_refl 0)) as Hle.
  pose proof (Forall2_le_Forall_lt _ _ _ Hle Hall) as Hsmall.
  pose proof (proj1 (Forall_forall _ _) Hsmall v Hin) as Hlt. cbv beta in Hlt.
  destruct (Z.ltb_spec v (2 ^ 256)); [discriminate | lia].
Qed.

(** X12: the table is exactly the overflow limit of [fixedExp]: at a
    precision of 32..127 every number that [fixedExp] computes for an
    argument [x >= 0] (the products, the sums and the result) stays below
    2^256 if [x <= maxExpArray[precision] >> (127 - precision)], and one of
    them reaches 2^256 for every larger [x]. *)
Theorem fixedExp_fits_256_bits_iff x p :
  32 <= p <= 127 -> 0 <= x ->
  (Forall (fun v => v < 2 ^ 256) (fixedExp_values x p fixedExp_coefficients x 0)
   <-> x <= max_permitted p) /\
  (x <= max_permitted p -> fixedExp x p < 2 ^ 256).
Proof.
  intros Hp Hx. split; [split|].
  - intros Hall. destruct (Z_le_gt_dec x (max_permitted p)) as [|Hgt];
      [assumption|].
    exfalso. apply (fixedExp_overflows x p Hp ltac:(lia) Hall).
  - intros Hle. apply fixedExp_fits; lia.
  - intros Hle. apply fixedExp_fits; lia.
Qed.

Lemma fixedExp_fits_256_bits_iff_witness :
  fixedExp 100 32 < 2 ^ 256.
Proof.
  apply (proj2 (fixedExp_fits_256_bits_iff 100 32 ltac:(lia) ltac:(lia))).
  vm_compute. discriminate.
Defined.

Lemma tbl_low_bits p :
  32 <= p <= 127 ->
  tbl p + 1 = (max_permitted p + 1) * 2 ^ (MAX_PRECISION - p).
Proof.
  intros Hp. pose proof low_bits_check as H.
  rewrite forallb_forall in H. specialize (H p (precision_In p Hp)).
  unfold low_bits_set in H. apply Z.eqb_eq in H.
  unfold max_permitted. rewrite Z.shiftr_div_pow2 by (unfold MAX_PRECISION; lia).
  set (k := 2 ^ (MAX_PRECISION - p)) in *.
  assert (Hk : 0 < k) by (apply Z.pow_pos_nonneg; unfold MAX_PRECISION; lia).
  pose proof (Z.div_mod (tbl p + 1) k ltac:(lia)) as E.
  pose proof (Z.div_mod (tbl p) k ltac:(lia)) as E'.
  pose proof (Z.mod_pos_bound (tbl p) k Hk) as B.
  rewrite H in E.
  assert (tbl p / k = (tbl p + 1) / k - 1); [|nia].
  symmetry. apply Z.div_unique with (k - 1); [lia|]. nia.
Qed.

Lemma selection_bounds_argument p q :
  32 <= p <= 127 ->
  q <= tbl p <-> Z.shiftr q (MAX_PRECISION - p) <= max_permitted p.
Proof.
  intros Hp. pose proof (tbl_low_bits p Hp) as E.
  rewrite Z.shiftr_div_pow2 by (unfold MAX_PRECISION; lia).
  set (k := 2 ^ (MAX_PRECISION - p)) in *.
  assert (Hk : 0 < k) by (apply Z.pow_pos_nonneg; unfold MAX_PRECISION; lia).
  pose proof (Z.div_mod q k ltac:(lia)) as Eq.
  pose proof (Z.mod_pos_bound q k Hk) as B.
  split; intros H; nia.
Qed.

(** X13: every table entry of index [p] in 32..127 ends in [127 - p] one
    bits, so comparing the unshifted logarithm with the entry is the same
    as comparing the shifted argument with the permitted maximum:
    [q <= maxExpArray[p]] if and only if
    [q >> (127 - p) <= maxExpArray[p] >> (127 - p)]. *)
Theorem table_entry_bounds_shifted_argument p q :
  32 <= p <= 127 ->
  (tbl p + 1) mod 2 ^ (MAX_PRECISION - p) = 0 /\
  (q <= tbl p <-> Z.shiftr q (MAX_PRECISION - p) <= max_permitted p).
Proof.
  intros Hp. split; [|now apply selection_bounds_argument].
  rewrite tbl_low_bits by assumption. apply Z.mod_mul.
  apply Z.pow_nonzero; unfold MAX_PRECISION; lia.
Qed.

Lemma table_entry_bounds_shifted_argument_witness :
  (tbl 100 + 1) mod 2 ^ (MAX_PRECISION - 100) = 0 /\
  (5 <= tbl 100 <-> Z.shiftr 5 (MAX_PRECISION - 100) <= max_permitted 100).
Proof. apply (table_entry_bounds_shifted_argument 100 5). lia. Defined.

(** X14: in every successful call of [power] on a base of ratio at least 1
    the argument handed to [fixedExp] is within the permitted maximum of
    the selected precision, so no number of that [fixedExp] run reaches
    2^256 and the result fits 256 bits. *)
Theorem power_stays_in_256_bits bN bD eN eD res p :
  1 <= bD -> bD <= bN -> 0 <= eN -> 0 < eD ->
  power bN bD eN eD = Ok (res, p) ->
  exists x,
    0 <= x <= max_permitted p /\ res = fixedExp x p /\
    Forall (fun v => v < 2 ^ 256) (fixedExp_values x p fixedExp_coefficients x 0) /\
    2 ^ p <= res < 2 ^ 256.
Proof.
  intros HbD HbN HeN HeD H.
  pose proof (power_result_lower _ _ _ _ _ _ HbD HbN HeN HeD H) as [Hp Hlow].
  apply power_Ok in H. destruct H as (l & Hl & _ & Hsel & ->).
  apply findPosition_range in Hsel. destruct Hsel as [_ Htbl].
  pose proof (ln_nonneg _ _ _ HbD HbN Hl) as Hl0.
  pose proof (exponent_arg_nonneg l eN eD p Hl0 HeN HeD) as Hx.
  unfold exponent_arg in Hx.
  apply (selection_bounds_argument p _ Hp) in Htbl.
  set (x := Z.shiftr (l * eN / eD) (MAX_PRECISION - p)) in *.
  destruct (fixedExp_fits x p Hp ltac:(lia)) as [Hv Hr].
  exists x. repeat split; try lia; assumption.
Qed.

Lemma power_stays_in_256_bits_witness :
  exists x,
    0 <= x <= max_permitted 127 /\
    240615969168004511545033772477625056910 = fixedExp x 127 /\
    Forall (fun v => v < 2 ^ 256)
      (fixedExp_values x 127 fixedExp_coefficients x 0) /\
    2 ^ 127 <= 240615969168004511545033772477625056910 < 2 ^ 256.
Proof.
  apply (power_stays_in_256_bits 2 1 1 2); try lia.
  vm_compute. reflexivity.
Defined.

Lemma ln_loop_squares_fit i x :
  FIXED_1 <= x < FIXED_2 ->
  length (ln_loop_squares i x) = i /\
  Forall (fun v => 0 <= v < 2 ^ 256) (ln_loop_squares i x).
Proof.
  revert x. induction i as [|j IH]; intros x Hx.
  - split; [reflexivity | constructor].
  - cbn [ln_loop_squares]. pose proof (square_range x Hx) as Hy.
    set (y := x * x / FIXED_1) in *.
    assert (Hsq : 0 <= x * x < 2 ^ 256) by (unfold FIXED_1, FIXED_2 in *; nia).
    destruct (Z.geb_spec y FIXED_2) as [Hge|Hlt].
    + destruct (IH (Z.shiftr y 1) (halve_range y ltac:(lia))) as [Hl Hf].
      cbn [length]. split; [lia | now constructor].
    + destruct (IH y ltac:(lia)) as [Hl Hf].
      cbn [length]. split; [lia | now constructor].
Qed.

(** X15: the assertion [_numerator <= MAX_NUM] is what keeps [ln] within
    256 bits: for [1 <= d <= n <= MAX_NUM] every product that [ln] forms
    (the scaled numerator, each square of the loop, the product with
    LN2_MANTISSA) is below 2^256, while for [n > MAX_NUM] the first product
    [n * FIXED_1] already reaches 2^256. *)
Theorem ln_stays_in_256_bits n d :
  (1 <= d -> d <= n -> n <= MAX_NUM ->
   Forall (fun v => 0 <= v < 2 ^ 256) (ln_products n d)) /\
  (MAX_NUM < n -> 2 ^ 256 <= n * FIXED_1).
Proof.
  split.
  - intros Hd Hdn Hn. unfold ln_products.
    pose proof (ratio_range n d Hd Hdn Hn) as Hx.
    set (x := n * FIXED_1 / d) in *.
    destruct (ln_int_spec x Hx) as (E & Hc & Hr). rewrite E. cbn [fst].
    constructor; [unfold MAX_NUM, FIXED_1 in *; nia|].
    apply Forall_app. split.
    + destruct (Z.shiftr x (Z.log2 (x / FIXED_1)) >? FIXED_1); [|constructor].
      apply (ln_loop_squares_fit _ _ Hr).
    + constructor; [|constructor].
      pose proof (log2_fixed_nonneg x Hx) as H0.
      pose proof (log2_fixed_bounds x Hx) as B. cbv zeta in B.
      assert (Hq : x / FIXED_1 < 2 ^ 129).
      { apply Z.div_lt_upper_bound; [reflexivity|]. unfold x.
        apply Z.div_lt_upper_bound; [lia|]. unfold MAX_NUM, FIXED_1 in *. nia. }
      assert (Hlog : Z.log2 (x / FIXED_1) < 129).
      { apply Z.log2_lt_pow2; [|exact Hq].
        apply Z.div_str_pos. unfold FIXED_1 in *. lia. }
      unfold FIXED_1, LN2_MANTISSA in *. nia.
  - intros Hn. unfold MAX_NUM, FIXED_1 in *. lia.
Qed.

Lemma ln_stays_in_256_bits_witness :
  Forall (fun v => 0 <= v < 2 ^ 256) (ln_products 3 2).
Proof.
  apply (proj1 (ln_stays_in_256_bits 3 2)); unfold MAX_NUM; lia.
Defined.

(** ** BancorFormula *)

(** X16: on a list of 128 entries [BancorFormula] keeps the entries 0..31
    and overwrites each of the entries 32..127 with its constant, whatever
    the list held before; so the table does not depend on the previous
    contents and a second call changes nothing. *)
Theorem BancorFormula_overwrites arr :
  length arr = 128%nat ->
  BancorFormula arr = firstn 32 arr ++ skipn 32 maxExpArray /\
  BancorFormula (BancorFormula arr) = BancorFormula arr.
Proof.
  intros Hlen.
  do 128 (destruct arr as [|? arr]; [discriminate|]).
  destruct arr; [|discriminate].
  split; vm_compute; reflexivity.
Qed.

Lemma BancorFormula_overwrites_witness :
  BancorFormula (repeat 7 128) = firstn 32 (repeat 7 128) ++ skipn 32 maxExpArray.
Proof.
  apply (proj1 (BancorFormula_overwrites (repeat 7 128) ltac:(reflexivity))).
Defined.

(** ** When [power] succeeds *)

Lemma findPosition_succeeds x :
  x <= tbl 32 -> exists p, findPositionInMaxExpArray x = Ok p.
Proof.
  intros Hx. destruct (findPosition_cases x) as [(k & E & _)|[_ Hnone]]; [eauto|].
  specialize (Hnone 32 ltac:(lia)). lia.
Qed.

Lemma findPosition_fails x :
  tbl 32 < x -> findPositionInMaxExpArray x = Err PrecisionRangeExceeded.
Proof.
  intros Hx. destruct (findPosition_cases x) as [(k & E & Hk & Hxk & _)|[E _]];
    [|exact E].
  pose proof (tbl_mono 32 k ltac:(lia) ltac:(lia)). lia.
Qed.

(** X17: on a base of ratio at least 1 ([1 <= baseD <= baseN <= MAX_NUM],
    [expN >= 0], [expD > 0]) [power] fails only with
    [PrecisionRangeExceeded], and exactly when
    [ln(baseN, baseD) * expN / expD] exceeds [maxExpArray[32]]; it succeeds
    whenever the real logarithm of the value, [expN/expD * ln(baseN/baseD)],
    times 2^127 is at most [maxExpArray[32]] (about 56.4). *)
Theorem power_succeeds_iff bN bD eN eD :
  1 <= bD -> bD <= bN -> bN <= MAX_NUM -> 0 <= eN -> 0 < eD ->
  exists l,
    ln bN bD = Ok l /\
    (l * eN / eD <= tbl 32 <-> exists res p, power bN bD eN eD = Ok (res, p)) /\
    (tbl 32 < l * eN / eD <-> power bN bD eN eD = Err PrecisionRangeExceeded) /\
    ((IZR FIXED_1 * (IZR eN / IZR eD * Rln (IZR bN / IZR bD)) <= IZR (tbl 32))%R ->
     l * eN / eD <= tbl 32).
Proof.
  intros HbD HbN Hmax HeN HeD.
  pose proof (ln_defined bN bD Hmax ltac:(lia)) as El.
  set (l := ln_scale (log2_fixed (bN * FIXED_1 / bD))) in *.
  exists l. split; [exact El|].
  assert (Epow : power bN bD eN eD =
                 (precision <- findPositionInMaxExpArray (l * eN / eD) ;;
                  Ok (fixedExp (Z.shiftr (l * eN / eD) (MAX_PRECISION - precision))
                        precision, precision))).
  { unfold power. rewrite El. cbn [bind]. rewrite pydiv_pos by lia. reflexivity. }
  split; [|split].
  - split.
    + intros H. destruct (findPosition_succeeds _ H) as [p Ep].
      rewrite Epow, Ep. cbn [bind]. eauto.
    + intros (res & p & H). rewrite Epow in H.
      apply bind_Ok in H. destruct H as (p' & Ep & _).
      apply findPosition_range in Ep. destruct Ep as [Hp Hx].
      pose proof (tbl_mono 32 p' ltac:(lia) ltac:(lia)). lia.
  - split.
    + intros H. rewrite Epow, (findPosition_fails _ H). reflexivity.
    + intros H. destruct (Z_lt_le_dec (tbl 32) (l * eN / eD)) as [|Hle];
        [assumption|].
      destruct (findPosition_succeeds _ Hle) as [p Ep].
      rewrite Epow, Ep in H. discriminate.
  - intros Hreal.
    pose proof (ln_upper _ _ _ HbD HbN El) as Hup.
    pose proof (ln_nonneg _ _ _ HbD HbN El) as Hl0.
    pose proof (IZR_div_le (l * eN) eD HeD) as Hq. rewrite mult_IZR in Hq.
    assert (HeD' : (0 < IZR eD)%R) by (now apply IZR_lt).
    assert (HeN' : (0 <= IZR eN)%R) by (now apply IZR_le).
    apply le_IZR. eapply Rle_trans; [exact Hq|].
    eapply Rle_trans; [|exact Hreal].
    set (L := Rln (IZR bN / IZR bD)) in *.
    apply Rmult_le_reg_r with (IZR eD); [assumption|].
    replace (IZR l * IZR eN / IZR eD * IZR eD)%R with (IZR l * IZR eN)%R
      by (field; lra).
    replace (IZR FIXED_1 * (IZR eN / IZR eD * L) * IZR eD)%R
      with (IZR FIXED_1 * L * IZR eN)%R by (field; lra).
    now apply Rmult_le_compat_r.
Qed.

Lemma power_succeeds_iff_witness :
  exists l,
    ln 2 1 = Ok l /\
    (l * 1 / 2 <= tbl 32 <-> exists res p, power 2 1 1 2 = Ok (res, p)) /\
    (tbl 32 < l * 1 / 2 <-> power 2 1 1 2 = Err PrecisionRangeExceeded) /\
    ((IZR FIXED_1 * (IZR 1 / IZR 2 * Rln (IZR 2 / IZR 1)) <= IZR (tbl 32))%R ->
     l * 1 / 2 <= tbl 32).
Proof. apply (power_succeeds_iff 2 1 1 2); unfold MAX_NUM; lia. Defined.

(** ** The errors of the two formulas *)

Lemma power_errors bN bD eN eD e :
  power bN bD eN eD = Err e ->
  e = NumeratorOutOfRange \/ e = ZeroDivisionError \/ e = PrecisionRangeExceeded.
Proof.
  unfold power. rewrite ln_unfold. unfold assert, pydiv.
  destruct (bN <=? MAX_NUM); cbn [bind]; [|intros [= <-]; auto].
  destruct (bD =? 0); cbn [bind]; [intros [= <-]; auto|].
  destruct (eD =? 0); cbn [bind]; [intros [= <-]; auto|].
  match goal with |- context [findPositionInMaxExpArray ?q] =>
    destruct (findPosition_cases q) as [(k & E & _)|[E _]]; rewrite E end;
    cbn [bind]; [discriminate | intros [= <-]; auto].
Qed.

Lemma power_no_zero_division bN bD eN eD :
  bD <> 0 -> eD <> 0 -> power bN bD eN eD <> Err ZeroDivisionError.
Proof.
  intros HbD HeD. unfold power. rewrite ln_unfold. unfold assert, pydiv.
  destruct (bN <=? MAX_NUM); cbn [bind]; [|discriminate].
  destruct (Z.eqb_spec bD 0); [contradiction|]. cbn [bind].
  destruct (Z.eqb_spec eD 0); [contradiction|]. cbn [bind].
  match goal with |- context [findPositionInMaxExpArray ?q] =>
    destruct (findPosition_cases q) as [(k & E & _)|[E _]]; rewrite E end;
    cbn [bind]; discriminate.
Qed.

Lemma valid_pool_check_iff s r c :
  (s >? 0) && (r >? 0) && (c >? 0) && (c <=? MAX_CRR) = true <-> valid_pool s r c.
Proof.
  unfold valid_pool. rewrite !andb_true_iff. lia.
Qed.

(** X18: [calculatePurchaseReturn] fails with [InvalidArgument] exactly on
    an invalid pool state (whatever the deposit, 0 included); on a valid
    pool state and a deposit [d >= 0] it can only fail with
    [ArithmeticOverflow], [NumeratorOutOfRange] or [PrecisionRangeExceeded]:
    never with a division by zero. *)
Theorem purchase_errors s r c d :
  (calculatePurchaseReturn s r c d = Err InvalidArgument <-> ~ valid_pool s r c) /\
  (valid_pool s r c -> 0 <= d ->
   forall e, calculatePurchaseReturn s r c d = Err e ->
     e = ArithmeticOverflow \/ e = NumeratorOutOfRange \/
     e = PrecisionRangeExceeded).
Proof.
  assert (Hgen : valid_pool s r c -> 0 <= d ->
    forall e, calculatePurchaseReturn s r c d = Err e ->
      e = ArithmeticOverflow \/ e = NumeratorOutOfRange \/
      e = PrecisionRangeExceeded).
  { intros Hv Hd e H. pose proof Hv as (Hs & Hr & Hc).
    destruct (Z.eq_dec d 0) as [->|Hd0];
      [rewrite purchase_zero in H by assumption; discriminate|].
    destruct (Z.eq_dec c MAX_CRR) as [->|Hc'].
    - rewrite purchase_linear in H by assumption.
      unfold safeMul, assert in H.
      destruct (s * d <? Z.shiftl 1 256); cbn [bind] in H;
        [rewrite pydiv_pos in H by lia; discriminate | injection H as <-; auto].
    - rewrite purchase_general in H by assumption.
      unfold safeAdd, assert in H.
      destruct (d + r <? Z.shiftl 1 256); cbn [bind] in H;
        [|injection H as <-; auto].
      destruct (power (d + r) r c MAX_CRR) as [[res p]|e'] eqn:Ep; cbn [bind] in H.
      + unfold safeMul, assert in H.
        destruct (s * res <? Z.shiftl 1 256); cbn [bind] in H;
          [discriminate | injection H as <-; auto].
      + injection H as <-.
        pose proof (power_no_zero_division (d + r) r c MAX_CRR ltac:(lia)
                      ltac:(discriminate)) as Hz.
        destruct (power_errors _ _ _ _ _ Ep) as [-> | [-> | ->]]; auto.
        contradiction. }
  split; [|exact Hgen]. split.
  - intros H Hv. unfold calculatePurchaseReturn in H.
    rewrite (valid_pool_check _ _ _ Hv) in H. cbn [assert bind] in H.
    pose proof Hv as (Hs & Hr & Hc).
    destruct (Z.eq_dec d 0) as [->|Hd0]; [discriminate|].
    replace (d =? 0) with false in H by lia.
    destruct (Z.eq_dec c MAX_CRR) as [->|Hc'].
    + rewrite Z.eqb_refl in H. unfold safeMul, assert in H.
      destruct (s * d <? Z.shiftl 1 256); cbn [bind] in H;
        [rewrite pydiv_pos in H by lia|]; discriminate.
    + replace (c =? MAX_CRR) with false in H by lia.
      unfold safeAdd, assert in H.
      destruct (d + r <? Z.shiftl 1 256); cbn [bind] in H; [|discriminate].
      destruct (power (d + r) r c MAX_CRR) as [[res p]|e'] eqn:Ep; cbn [bind] in H.
      * unfold safeMul, assert in H.
        destruct (s * res <? Z.shiftl 1 256); cbn [bind] in H; discriminate.
      * injection H as He. subst e'.
        destruct (power_errors _ _ _ _ _ Ep) as [Hc1|[Hc1|Hc1]]; discriminate.
  - intros Hnv. unfold calculatePurchaseReturn.
    destruct ((s >? 0) && (r >? 0) && (c >? 0) && (c <=? MAX_CRR)) eqn:E;
      [|reflexivity].
    apply valid_pool_check_iff in E. contradiction.
Qed.

Lemma purchase_errors_witness :
  NumeratorOutOfRange = ArithmeticOverflow \/
  NumeratorOutOfRange = NumeratorOutOfRange \/
  NumeratorOutOfRange = PrecisionRangeExceeded.
Proof.
  apply (proj2 (purchase_errors 1 1 1 (2 ^ 200))).
  - unfold valid_pool, MAX_CRR. lia.
  - lia.
  - vm_compute. reflexivity.
Defined.

Lemma sale_check_iff s r c a :
  (s >? 0) && (r >? 0) && (c >? 0) && (c <=? MAX_CRR) && (a <=? s) = true
  <-> valid_pool s r c /\ a <= s.
Proof. unfold valid_pool. rewrite !andb_true_iff. lia. Qed.

(** X19: [calculateSaleReturn] fails with [InvalidArgument] exactly when
    the pool state is invalid or the amount exceeds the supply; on a valid
    pool state and [0 <= a <= s] it can only fail with [ArithmeticOverflow],
    [NumeratorOutOfRange] or [PrecisionRangeExceeded]: its two unchecked
    divisions never divide by zero. *)
Theorem sale_errors s r c a :
  (calculateSaleReturn s r c a = Err InvalidArgument
   <-> ~ (valid_pool s r c /\ a <= s)) /\
  (valid_pool s r c -> 0 <= a <= s ->
   forall e, calculateSaleReturn s r c a = Err e ->
     e = ArithmeticOverflow \/ e = NumeratorOutOfRange \/
     e = PrecisionRangeExceeded).
Proof.
  assert (Hgen : valid_pool s r c -> a <= s ->
    forall e, calculateSaleReturn s r c a = Err e ->
      e <> InvalidArgument /\
      (0 <= a ->
       e = ArithmeticOverflow \/ e = NumeratorOutOfRange \/
       e = PrecisionRangeExceeded)).
  { intros Hv Has e H. pose proof Hv as (Hs & Hr & Hc).
    destruct (Z.eq_dec a 0) as [->|Ha0];
      [rewrite sale_zero in H by assumption; discriminate|].
    destruct (Z.eq_dec a s) as [->|Ha1];
      [rewrite sale_all in H by assumption; discriminate|].
    destruct (Z.eq_dec c MAX_CRR) as [->|Hc'].
    - rewrite sale_linear in H by lia.
      unfold safeMul, assert in H.
      destruct (r * a <? Z.shiftl 1 256); cbn [bind] in H;
        [rewrite pydiv_pos in H by lia; discriminate|].
      injection H as <-. split; [discriminate | auto].
    - rewrite sale_general in H by (assumption || lia).
      destruct (power s (s - a) MAX_CRR c) as [[res p]|e'] eqn:Ep; cbn [bind] in H.
      + unfold safeMul, assert in H.
        destruct (r * res <? Z.shiftl 1 256); cbn [bind] in H;
          [|injection H as <-; split; [discriminate | auto]].
        unfold pydiv in H. destruct (Z.eqb_spec res 0) as [->|Hres];
          [|discriminate].
        injection H as <-. split; [discriminate|]. intros Ha.
        exfalso.
        pose proof (sale_subtraction_safe s r c a 0 p Hv ltac:(lia) Ep)
          as (_ & _ & _ & Hne). contradiction.
      + injection H as <-.
        pose proof (power_no_zero_division s (s - a) MAX_CRR c ltac:(lia)
                      ltac:(lia)) as Hz.
        destruct (power_errors _ _ _ _ _ Ep) as [-> | [-> | ->]];
          (split; [discriminate | auto]).
        contradiction. }
  split.
  - split.
    + intros H [Hv Has]. destruct (Hgen Hv Has _ H) as [Hne _]. now apply Hne.
    + intros Hnv. unfold calculateSaleReturn.
      destruct ((s >? 0) && (r >? 0) && (c >? 0) && (c <=? MAX_CRR) && (a <=? s))
        eqn:E; [|reflexivity].
      apply sale_check_iff in E. contradiction.
  - intros Hv [Ha0 Has] e H. now apply (Hgen Hv Has e H).
Qed.

Lemma sale_errors_witness :
  NumeratorOutOfRange = ArithmeticOverflow \/
  NumeratorOutOfRange = NumeratorOutOfRange \/
  NumeratorOutOfRange = PrecisionRangeExceeded.
Proof.
  apply (proj2 (sale_errors (2 ^ 200) 1 1 1)).
  - unfold valid_pool, MAX_CRR. lia.
  - lia.
  - vm_compute. reflexivity.
Defined.

(** X20: the general paths work on 129-bit bases only: with a reserve
    ratio below 1000000, a positive deposit fails with [ArithmeticOverflow]
    when [d + r >= 2^256] and with [NumeratorOutOfRange] when
    [MAX_NUM < d + r < 2^256]; a partial sale ([0 < a < s]) fails with
    [NumeratorOutOfRange] when the supply exceeds MAX_NUM. *)
Theorem general_path_range_errors s r c :
  valid_pool s r c -> c <> MAX_CRR ->
  (forall d, 0 < d ->
     (2 ^ 256 <= d + r ->
      calculatePurchaseReturn s r c d = Err ArithmeticOverflow) /\
     (MAX_NUM < d + r < 2 ^ 256 ->
      calculatePurchaseReturn s r c d = Err NumeratorOutOfRange)) /\
  (forall a, 0 < a < s -> MAX_NUM < s ->
     calculateSaleReturn s r c a = Err NumeratorOutOfRange).
Proof.
  intros Hv Hc. split.
  - intros d Hd. rewrite purchase_general by (assumption || lia).
    unfold safeAdd, assert. change (Z.shiftl 1 256) with (2 ^ 256). split; intros H.
    + replace (d + r <? 2 ^ 256) with false by lia. reflexivity.
    + replace (d + r <? 2 ^ 256) with true by lia. cbn [bind].
      unfold power. rewrite ln_unfold. unfold assert.
      replace (d + r <=? MAX_NUM) with false by lia. reflexivity.
  - intros a Ha Hs. rewrite sale_general by (assumption || lia).
    unfold power. rewrite ln_unfold. unfold assert.
    replace (s <=? MAX_NUM) with false by lia. reflexivity.
Qed.

Lemma general_path_range_errors_witness :
  calculateSaleReturn (2 ^ 130) 1000 500000 5 = Err NumeratorOutOfRange.
Proof.
  assert (Hv : valid_pool (2 ^ 130) 1000 500000)
    by (unfold valid_pool, MAX_CRR; lia).
  apply (proj2 (general_path_range_errors (2 ^ 130) 1000 500000 Hv
                  ltac:(unfold MAX_CRR; lia)) 5).
  - lia.
  - unfold MAX_NUM. lia.
Defined.

(** ** Bounds of the two returns *)

(** X21: a purchase never returns a negative amount and never more than
    the linear estimate: for a valid pool state and [d >= 0],
    [0 <= t] and [t * 1000000 * r <= s * c * d], that is
    [t <= s * (c / 1000000) * (d / r)]. *)
Theorem purchase_return_bounds s r c d t :
  valid_pool s r c -> 0 <= d ->
  calculatePurchaseReturn s r c d = Ok t ->
  0 <= t /\ t * MAX_CRR * r <= s * c * d.
Proof.
  intros Hv Hd H. split.
  - now apply (purchase_nonneg s r c d).
  - now apply purchase_le_linear.
Qed.

Lemma purchase_return_bounds_witness :
  0 <= 414 /\ 414 * MAX_CRR * 1000 <= 1000 * 500000 * 1000.
Proof.
  apply (purchase_return_bounds 1000 1000 500000 1000 414).
  - unfold valid_pool, MAX_CRR. lia.
  - lia.
  - vm_compute. reflexivity.
Defined.

(** X22: a sale never returns a negative amount and never more than the
    reserve: for a valid pool state and [a >= 0], [0 <= t <= r]. *)
Theorem sale_return_bounds s r c a t :
  valid_pool s r c -> 0 <= a ->
  calculateSaleReturn s r c a = Ok t -> 0 <= t <= r.
Proof. apply sale_bounds. Qed.

Lemma sale_return_bounds_witness : 0 <= 656 <= 1000.
Proof.
  apply (sale_return_bounds 1000 1000 500000 414 656).
  - unfold valid_pool, MAX_CRR. lia.
  - lia.
  - vm_compute. reflexivity.
Defined.

(** ** The returns against the formulas of the docstrings *)

Lemma real_power_base_1 b eN eD : 0 < b -> real_power b b eN eD = 1%R.
Proof.
  intros Hb. unfold real_power, Rpower.
  assert (Hb' : (0 < IZR b)%R) by (now apply IZR_lt).
  replace (IZR b / IZR b)%R with 1%R by (field; lra).
  rewrite ln_1, Rmult_0_r. apply exp_0.
Qed.

Lemma real_power_exponent_1 bN bD e :
  0 < bN -> 0 < bD -> 0 < e -> real_power bN bD e e = (IZR bN / IZR bD)%R.
Proof.
  intros HbN HbD He. unfold real_power.
  assert (He' : (0 < IZR e)%R) by (now apply IZR_lt).
  replace (IZR e / IZR e)%R with 1%R by (field; lra).
  apply Rpower_1. apply Rdiv_lt_0_compat; now apply IZR_lt.
Qed.

(** X23: the purchase return never exceeds the formula of its docstring,
    [_supply * ((1 + _depositAmount / _reserveBalance) ^
    (_reserveRatio / 1000000) - 1)], evaluated on the reals. *)
Theorem purchase_below_real_formula s r c d t :
  valid_pool s r c -> 0 <= d ->
  calculatePurchaseReturn s r c d = Ok t ->
  (IZR t <= IZR s * (real_power (d + r) r c MAX_CRR - 1))%R.
Proof.
  intros Hv Hd H. pose proof Hv as (Hs & Hr & Hc).
  assert (Hs' : (0 < IZR s)%R) by (now apply IZR_lt).
  assert (Hr' : (0 < IZR r)%R) by (now apply IZR_lt).
  destruct (Z.eq_dec d 0) as [->|Hd0].
  { rewrite purchase_zero in H by assumption. injection H as <-.
    rewrite Z.add_0_l, real_power_base_1 by assumption. lra. }
  destruct (Z.eq_dec c MAX_CRR) as [->|Hc'].
  { rewrite purchase_linear in H by assumption.
    apply bind_Ok in H. destruct H as (m & Hm & H).
    apply safeMul_Ok in Hm. destruct Hm as [-> _].
    apply pydiv_Ok in H. destruct H as [_ ->].
    rewrite real_power_exponent_1 by (reflexivity || lia).
    eapply Rle_trans; [apply IZR_div_le; assumption|].
    rewrite mult_IZR, plus_IZR. right. field. lra. }
  apply purchase_Ok in H; auto. destruct H as (res & p & _ & Hpow & _ & ->).
  pose proof (purchase_subtraction_safe s r c d res p Hv Hd Hpow) as (Hp & _ & _).
  pose proof (power_upper (d + r) r c MAX_CRR res p ltac:(lia) ltac:(lia)
                ltac:(lia) ltac:(reflexivity) Hpow) as Hup.
  pose proof (scale_pos p) as HP.
  pose proof (IZR_shiftr_le (s * res) p ltac:(lia)) as Hsh.
  fold (scale p) in Hsh. rewrite mult_IZR in Hsh.
  rewrite minus_IZR.
  set (rp := real_power (d + r) r c MAX_CRR) in *.
  assert (H1 : (IZR s * IZR res <= IZR s * (scale p * rp))%R)
    by (apply Rmult_le_compat_l; lra).
  assert (H2 : (IZR s * IZR res / scale p <= IZR s * rp)%R).
  { apply Rmult_le_reg_r with (scale p); [assumption|].
    unfold Rdiv. rewrite Rmult_assoc, Rinv_l, Rmult_1_r by lra. lra. }
  lra.
Qed.

Lemma purchase_below_real_formula_witness :
  (IZR 414 <= IZR 1000 * (real_power (1000 + 1000) 1000 500000 MAX_CRR - 1))%R.
Proof.
  apply (purchase_below_real_formula 1000 1000 500000 1000 414).
  - unfold valid_pool, MAX_CRR. lia.
  - lia.
  - vm_compute. reflexivity.
Defined.

(** X24: the return of a partial sale never exceeds the formula of its
    docstring, [_reserveBalance * (1 - (1 - _sellAmount / _supply) ^
    (1000000 / _reserveRatio))], evaluated on the reals (written with the
    inverse of [(s / (s - a)) ^ (1000000 / c)], the power that the code
    computes). *)
Theorem sale_below_real_formula s r c a back :
  valid_pool s r c -> 0 <= a < s ->
  calculateSaleReturn s r c a = Ok back ->
  (IZR back <= IZR r * (1 - / real_power s (s - a) MAX_CRR c))%R.
Proof.
  intros Hv Ha H. pose proof Hv as (Hs & Hr & Hc).
  assert (Hs' : (0 < IZR s)%R) by (now apply IZR_lt).
  assert (Hr' : (0 < IZR r)%R) by (now apply IZR_lt).
  destruct (Z.eq_dec a 0) as [->|Ha0].
  { rewrite sale_zero in H by assumption. injection H as <-.
    rewrite Z.sub_0_r, real_power_base_1 by assumption. lra. }
  assert (Hsa : (0 < IZR (s - a))%R) by (apply IZR_lt; lia).
  destruct (Z.eq_dec c MAX_CRR) as [->|Hc'].
  { rewrite sale_linear in H by lia.
    apply bind_Ok in H. destruct H as (m & Hm & H).
    apply safeMul_Ok in Hm. destruct Hm as [-> _].
    apply pydiv_Ok in H. destruct H as [_ ->].
    rewrite real_power_exponent_1 by (reflexivity || lia).
    eapply Rle_trans; [apply IZR_div_le; assumption|].
    rewrite mult_IZR. rewrite minus_IZR in *. right. field. lra. }
  pose proof (sale_upper s r c a back Hv ltac:(lia) Hc' H) as Hup.
  unfold real_power, Rpower. rewrite <- exp_Ropp.
  replace (- (IZR MAX_CRR / IZR c * Rln (IZR s / IZR (s - a))))%R
    with (IZR MAX_CRR / IZR c * Rln (IZR (s - a) / IZR s))%R; [exact Hup|].
  rewrite !Rln_div by assumption. ring.
Qed.

Lemma sale_below_real_formula_witness :
  (IZR 189 <= IZR 1000 * (1 - / real_power 1000 (1000 - 100) MAX_CRR 500000))%R.
Proof.
  apply (sale_below_real_formula 1000 1000 500000 100 189).
  - unfold valid_pool, MAX_CRR. lia.
  - lia.
  - vm_compute. reflexivity.
Defined.

(** ** The accuracy of [fixedExp] *)

(** X25: [fixedExp(x, p)] never exceeds [e^(x / 2^p) * 2^p], and for an
    argument [x / 2^p] of at most 7 it is short of it by at most
    [3.7e-10 * 2^p + 373]: the tail of the series after 34 terms plus the
    truncations of the 32 shifts and the final division. *)
Theorem fixedExp_accuracy x p :
  0 <= x -> 0 <= p ->
  (IZR (fixedExp x p) <= scale p * exp (IZR x / scale p))%R /\
  ((IZR x / scale p <= 7)%R ->
   (scale p * (exp (IZR x / scale p) - 37 / 100000000000) - 373
    <= IZR (fixedExp x p))%R).
Proof.
  intros Hx Hp. split.
  - apply fixedExp_upper; assumption.
  - intros H7. pose proof (scale_pos p) as HP.
    assert (Hy0 : (0 <= IZR x / scale p)%R).
    { apply Rmult_le_pos; [now apply IZR_le|]. left. now apply Rinv_0_lt_compat. }
    pose proof (fixedExp_lower_7 x p Hx Hp H7) as Hlow.
    pose proof (exp_tail_7 _ (conj Hy0 H7)) as Htail.
    set (y := (IZR x / scale p)%R) in *.
    assert ((scale p * (exp y - 37 / 100000000000) <= scale p * E1 y 33)%R)
      by (apply Rmult_le_compat_l; lra).
    lra.
Qed.

Lemma fixedExp_accuracy_witness :
  (IZR (fixedExp 5 32) <= scale 32 * exp (IZR 5 / scale 32))%R.
Proof. apply (proj1 (fixedExp_accuracy 5 32 ltac:(lia) ltac:(lia))). Defined.
